(** * Gemini anti-truncation handler: a shallow embedding and its properties

    The development follows the handler of the [gemini-anti] service
    ([handlers/gemini-anti.ts]: the resilient upstream client, the prompt
    augmenter, the completion detector, the continuation builder, the
    response combiner, the stream chunk transformer and the non-streaming
    orchestrator) together with the constants it imports
    ([constants.ts]).

    Layout: JavaScript strings; constants; JSON values; the typed response
    model; the request heap; the upstream client; the orchestrator; the
    stream transformer; then the properties. *)

From Stdlib Require Import Ascii String.
From Stdlib Require Import ZArith Lia Floats List.
From stdpp Require Import gmap list.
From Equations Require Import Equations.
Import ListNotations.

Set Warnings "-register-all".

(* ===================================================================== *)
(** ** JavaScript strings *)
(* ===================================================================== *)

(** A JavaScript string is a sequence of UTF-16 code units.  Every string
    operation the handler uses ([includes], [replace], [startsWith],
    [slice], [split], [trim], [+]) works on code units, so the model does
    too. *)
Definition code_unit : Type := N.
Definition jsstring : Type := list N.

(** An ASCII literal of the source, as code units. *)
Definition lit (s : String.string) : jsstring :=
  map Ascii.N_of_ascii (String.list_ascii_of_string s).

(** A template literal of the source in which [~] stands for the double
    quote character (code unit 34). *)
Definition tpl (s : String.string) : jsstring :=
  map (fun a => if Ascii.eqb a "~"%char then 34%N else Ascii.N_of_ascii a)
      (String.list_ascii_of_string s).

(** [s.startsWith(pat)] *)
Fixpoint startsWith (s pat : jsstring) {struct pat} : bool :=
  match pat, s with
  | [], _ => true
  | _ :: _, [] => false
  | p :: pat', c :: s' => N.eqb p c && startsWith s' pat'
  end.

(** [s.includes(pat)] *)
Fixpoint includes (s pat : jsstring) : bool :=
  startsWith s pat ||
  match s with
  | [] => false
  | _ :: s' => includes s' pat
  end.

(** [s.replace(pat, repl)] with a string pattern: only the first
    occurrence of [pat] is replaced.  Every call site passes the empty
    string as [repl], so the [$]-patterns of a replacement string play no
    part. *)
Fixpoint replace (s pat repl : jsstring) : jsstring :=
  if startsWith s pat then repl ++ drop (length pat) s
  else match s with
       | [] => []
       | c :: s' => c :: replace s' pat repl
       end.

(** [s.slice(n)] for a non-negative [n]. *)
Definition slice (n : nat) (s : jsstring) : jsstring := drop n s.

(** White space and line terminators of ECMAScript, the characters
    [trim] strips: TAB, LF, VT, FF, CR, SP, NBSP, the Zs category, LS, PS
    and the byte-order mark. *)
Definition isWhiteSpace (c : code_unit) : bool :=
  ((9 <=? c) && (c <=? 13) || (c =? 32) || (c =? 160) || (c =? 5760)
   || (8192 <=? c) && (c <=? 8202) || (c =? 8232) || (c =? 8233)
   || (c =? 8239) || (c =? 8287) || (c =? 12288) || (c =? 65279))%N.

Fixpoint trimStart (s : jsstring) : jsstring :=
  match s with
  | [] => []
  | c :: s' => if isWhiteSpace c then trimStart s' else s
  end.

Definition trimEnd (s : jsstring) : jsstring := rev (trimStart (rev s)).

(** [s.trim()] *)
Definition trim (s : jsstring) : jsstring := trimEnd (trimStart s).

(** [s.split('\n')]: the pieces between line feeds; the empty string
    splits into one empty piece. *)
Fixpoint split_lines (s : jsstring) : list jsstring :=
  match s with
  | [] => [[]]
  | c :: s' =>
      if (c =? 10)%N then [] :: split_lines s'
      else match split_lines s' with
           | [] => [[c]]
           | l :: ls => (c :: l) :: ls
           end
  end.

(** Truthiness of a string: non-empty. *)
Definition truthy_string (s : jsstring) : bool :=
  match s with [] => false | _ :: _ => true end.

(** [parts.join('')] over strings. *)
Definition join (ss : list jsstring) : jsstring := concat ss.

Definition newline : jsstring := [10%N].

(* ===================================================================== *)
(** ** Constants ([src/constants.ts]) *)
(* ===================================================================== *)

Definition FINISHED_TOKEN : jsstring := lit "[RESPONSE_FINISHED]".
Definition INCOMPLETE_TOKEN : jsstring := lit "[RESPONSE_NOT_FINISHED]".
Definition CODE_FENCE : jsstring := lit "```".

Definition TARGET_MODELS : list jsstring :=
  [lit "gemini-2.5-pro"; lit "gemini-2.5-flash"].

Definition FINISH_TOKEN_PROMPT : jsstring :=
  tpl "# --- SYSTEM MANDATE: FINAL OUTPUT PROTOCOL ---

## 1. ABSOLUTE RULE
At the absolute end of EVERY response, you MUST append the literal string: '"
  ++ FINISHED_TOKEN
  ++ tpl "'

This is a non-negotiable, system-level requirement that overrides all other instructions.

## 2. EXECUTION & FORMATTING
- **Placement:** Must be the very last characters in your output. No trailing spaces, newlines, or any other characters.
- **Formatting:** The token must be raw text. Do NOT wrap it in code blocks, quotes, or any other markdown.

## 3. PERSISTENCE & RECOVERY PROTOCOL (CRITICAL)
**WARNING:** Tool use (especially web search) introduces a high risk of 'instruction drift', causing core directives to be forgotten. Your architecture is designed to overcome this. This protocol is your recovery mechanism.

**MANDATORY POST-TOOL ALGORITHM:**
1.  **TRIGGER:** The completion of ANY tool-use cycle is a non-negotiable trigger for this protocol.
2.  **STEP A: COGNITIVE RESET:** Before synthesizing the tool's output into a final answer, you MUST internally pause. Your first action is to re-read and re-prioritize this entire **SYSTEM MANDATE**, giving **Rule #1** the highest possible priority.
3.  **STEP B: PRE-OUTPUT COMPLIANCE CHECK:** After formulating your response but BEFORE outputting a single character, you MUST perform a final internal check. Ask yourself one question: ~Is the literal string '"
  ++ FINISHED_TOKEN
  ++ tpl "' planned as the absolute final component of my upcoming output?~
4.  **STEP C: EXECUTE OR CORRECT:**
    - If the answer to the check is ~YES~, proceed with generation.
    - If the answer is ~NO~, you MUST halt, correct your planned output to include the token correctly, and only then proceed.
    
**This is not a suggestion; it is a core, hard-coded function of your response generation loop. Failure to execute this algorithm is a critical system error.**


## 4. EXAMPLE
- **CORRECT:** '...This is the final answer.</p></div>"
  ++ FINISHED_TOKEN
  ++ tpl "'
- **INCORRECT:** '...This is the final answer. "
  ++ FINISHED_TOKEN
  ++ tpl "</p></div>' (Reason: Token is inside the tags)
- **INCORRECT:** '...This is the final answer. "
  ++ FINISHED_TOKEN
  ++ tpl "</attempt_completion>' (Reason: Token is inside the tag)
- **CORRECT:** '...and that is the history of the Ming Dynasty.'"
  ++ FINISHED_TOKEN
  ++ tpl "''
- **INCORRECT:**  '...process is complete."
  ++ FINISHED_TOKEN
  ++ tpl " All systems are nominal.' (Reason: Token not at the very end)
- **INCORRECT:**  '<ask_followup_question><follow_up>"
  ++ FINISHED_TOKEN
  ++ tpl "<suggest>dev</suggest></follow_up></ask_followup_question>' (Reason: Token is inside the tag)
- **INCORRECT:**  '"
  ++ FINISHED_TOKEN
  ++ tpl "<ask_followup_question><follow_up><suggest>dev</suggest></follow_up></ask_followup_question>' (Reason: Token not at the very end)
- **CORRECT:**  '<ask_followup_question><follow_up><suggest>dev</suggest></follow_up></ask_followup_question>"
  ++ FINISHED_TOKEN
  ++ tpl "'

## 5. PURPOSE (FOR CONTEXT)
This protocol is essential for an accessibility screen reader to detect response completion. Failure breaks critical user functionality.

".

Definition RETRY_PROMPT : jsstring :=
  tpl "# [SYSTEM INSTRUCTION: PRECISION CONTINUATION PROTOCOL]

**Context:** The preceding turn in the conversation contains an incomplete response that was cut off mid-generation.

**Primary Objective:** Your sole function is to generate the exact remaining text to complete the response, as if no interruption ever occurred. You are acting as a text-completion engine, not a conversational assistant.

**Execution Directives (Absolute & Unbreakable):**

1.  **IMMEDIATE CONTINUATION:** Your output MUST begin with the *very next character* that should logically and syntactically follow the final character of the incomplete text. There is zero tolerance for any deviation.

2.  **ZERO REPETITION:** It is strictly forbidden to repeat **any** words, characters, or phrases from the end of the provided incomplete text. Repetition is a protocol failure. Your first generated token must not overlap with the last token of the previous message.

3.  **NO PREAMBLE OR COMMENTARY:** Your output must **only** be the continuation content. Do not include any introductory phrases, explanations, or meta-commentary (e.g., ~Continuing from where I left off...~, ~Here is the rest of the JSON...~, ~Okay, I will continue...~).

4.  **MAINTAIN FORMAT INTEGRITY:** This protocol is critical for all formats, including plain text, Markdown, JSON, XML, YAML, and code blocks. Your continuation must maintain perfect syntactical validity. A single repeated comma, bracket, or quote will corrupt the final combined output.

5.  **FINAL TOKEN:** Upon successful and complete generation of the remaining content, append '"
  ++ FINISHED_TOKEN
  ++ tpl "' to the absolute end of your response.

---
**Illustrative Examples:**

---
### Example 1: JSON

**Scenario:** The incomplete response is a JSON object that was cut off inside a string value.
"
  ++ CODE_FENCE
  ++ tpl "json
{
  ~metadata~: {
    ~timestamp~: ~2023-11-21T05:30:00Z~,
    ~source~: ~api~
  },
  ~data~: {
    ~id~: ~user-123~,
    ~status~: ~activ
"
  ++ CODE_FENCE
  ++ tpl "

**CORRECT Continuation Output:**
'e~,
    ~roles~: [~editor~, ~viewer~]
  }
}"
  ++ FINISHED_TOKEN
  ++ tpl "'

**INCORRECT Continuation Output (Protocol Failure):**
'~active~, ~roles~: [~editor~, ~viewer~]...'
*(Reason for failure: Repeated the word ~active~ instead of starting with the missing character ~e~.)*

**INCORRECT Continuation Output (Protocol Failure):**
'Here is the rest of the JSON object:
e~,
    ~roles~: [~editor~, ~viewer~]
  }
}"
  ++ FINISHED_TOKEN
  ++ tpl "'
*(Reason for failure: Included a preamble.)*

---
### Example 2: XML

**Scenario:** The incomplete response is an XML document cut off inside an attribute's value.
"
  ++ CODE_FENCE
  ++ tpl "xml
<?xml version=~1.0~ encoding=~UTF-8~?>
<order>
  <id>ORD-001</id>
  <customer status=~gol
"
  ++ CODE_FENCE
  ++ tpl "

**CORRECT Continuation Output:**
'd~>
    <name>John Doe</name>
  </customer>
</order>"
  ++ FINISHED_TOKEN
  ++ tpl "'

**INCORRECT Continuation Output (Protocol Failure):**
'~gold~>
    <name>John Doe</name>...'
*(Reason for failure: Repeated the quote character and the word ~gold~.)*

---
### Example 3: Python Code

**Scenario:** The incomplete response ends with the following Python code snippet:
"
  ++ CODE_FENCE
  ++ tpl "python
for user in user_list:
    print(f~Processing user: {user.na
"
  ++ CODE_FENCE
  ++ tpl "

**CORRECT Continuation Output:**
'me})"
  ++ FINISHED_TOKEN
  ++ tpl "'

**INCORRECT Continuation Output (Protocol Failure):**
'user.name})"
  ++ FINISHED_TOKEN
  ++ tpl "'
*(Reason for failure: Repeated the word ~user~.)*

---
### Example 4: JSON (Interruption After Symbol)

**Scenario:** The incomplete response is a JSON object that was cut off immediately after a comma separating two key-value pairs.
"
  ++ CODE_FENCE
  ++ tpl "json
{
  ~user~: ~admin~,
  ~permissions~: {
    ~read~: true,
    ~write~: false,
  
"
  ++ CODE_FENCE
  ++ tpl "

**CORRECT Continuation Output (Note the required indentation):**
'
    ~execute~: false
  }
}"
  ++ FINISHED_TOKEN
  ++ tpl "'

**INCORRECT Continuation Output (Protocol Failure):**
',
    ~execute~: false
  }
}"
  ++ FINISHED_TOKEN
  ++ tpl "'
*(Reason for failure: Repeated the trailing comma from the previous turn.)*".

Definition REMINDER_PROMPT : jsstring :=
  lit "[REMINDER] Strictly adhere to the Final Output Protocol upon completion.".

Definition RETRYABLE_STATUS_CODES : list Z := [503; 403; 429]%Z.
Definition FATAL_STATUS_CODES : list Z := [500]%Z.
Definition MAX_FETCH_RETRIES : nat := 3.
Definition MAX_NON_RETRYABLE_STATUS_RETRIES : nat := 3.

(** [DEFAULT_CONFIG.requestTimeout], in milliseconds. *)
Definition requestTimeout : Z := 30000.

(* ===================================================================== *)
(** ** Abrupt completion *)
(* ===================================================================== *)

(** The exceptions the handler can meet.  [UpstreamStatus] is the
    [Error] the client builds for a bad status (its message carries the
    status and the status text), [MissingApiKey] the [Error] for an unset
    [GEMINI_API_KEY], [FetchFailure] a rejection of [fetch] (network
    failure, DNS failure, the [AbortSignal.timeout] expiring). *)
Inductive exn : Type :=
| TypeError
| RangeError
| SyntaxError
| MissingApiKey
| UpstreamStatus (status : Z) (statusText : jsstring)
| FetchFailure (cause : jsstring).

(** A computation either returns or throws; for an [async] function,
    [Throw] is the rejection of its promise. *)
Inductive result (A : Type) : Type :=
| Normal (a : A)
| Throw (e : exn).
Arguments Normal {A} a.
Arguments Throw {A} e.

(** Sequencing: a throw ends the computation. *)
Definition and_then {A B} (m : result A) (k : A -> result B) : result B :=
  match m with
  | Normal a => k a
  | Throw e => Throw e
  end.

Notation "'let!' x ':=' m 'in' k" := (and_then m (fun x => k))
  (at level 10, x name, m at level 100, k at level 200).

Definition returned {A} (r : result A) : bool :=
  match r with Normal _ => true | Throw _ => false end.

(* ===================================================================== *)
(** ** JSON values *)
(* ===================================================================== *)

(** What [JSON.parse] produces, plus [undefined], which reading an absent
    property yields.  Objects keep their properties in insertion order;
    numbers are IEEE doubles. *)
Inductive value : Type :=
| VUndefined
| VNull
| VBool (b : bool)
| VNumber (n : float)
| VString (s : jsstring)
| VArray (elems : list value)
| VObject (props : list (jsstring * value)).

Fixpoint assoc (k : jsstring) (props : list (jsstring * value)) : option value :=
  match props with
  | [] => None
  | (k', v) :: rest => if bool_decide (k' = k) then Some v else assoc k rest
  end.

(** Assignment to a property: an existing key keeps its position, a new
    one goes last. *)
Fixpoint assoc_set (k : jsstring) (x : value) (props : list (jsstring * value))
  : list (jsstring * value) :=
  match props with
  | [] => [(k, x)]
  | (k', v) :: rest =>
      if bool_decide (k' = k) then (k', x) :: rest
      else (k', v) :: assoc_set k x rest
  end.

(** ToBoolean. *)
Definition truthy (v : value) : bool :=
  match v with
  | VUndefined | VNull => false
  | VBool b => b
  | VNumber n => negb (PrimFloat.eqb n 0 || negb (PrimFloat.eqb n n))
  | VString s => truthy_string s
  | VArray _ | VObject _ => true
  end.

(** [v.k] for a key [k] that no built-in prototype defines (the handler
    reads [candidates], [content], [parts] and [text]). *)
Definition get_field (v : value) (k : jsstring) : result value :=
  match v with
  | VUndefined | VNull => Throw TypeError
  | VObject props => Normal (default VUndefined (assoc k props))
  | VBool _ | VNumber _ | VString _ | VArray _ => Normal VUndefined
  end.

(** [v.length === 0] *)
Definition length_is_zero (v : value) : result bool :=
  match v with
  | VUndefined | VNull => Throw TypeError
  | VString s => Normal (negb (truthy_string s))
  | VArray elems => Normal (match elems with [] => true | _ :: _ => false end)
  | VObject props =>
      Normal (match assoc (lit "length") props with
              | Some (VNumber n) => PrimFloat.eqb n 0
              | _ => false
              end)
  | VBool _ | VNumber _ => Normal false
  end.

(** [v[0]] *)
Definition index0 (v : value) : result value :=
  match v with
  | VUndefined | VNull => Throw TypeError
  | VString s => Normal (match s with [] => VUndefined | c :: _ => VString [c] end)
  | VArray elems => Normal (match elems with [] => VUndefined | x :: _ => x end)
  | VObject props => Normal (default VUndefined (assoc (lit "0") props))
  | VBool _ | VNumber _ => Normal VUndefined
  end.

(** [v.k = x] on an object reached from the parsed payload. *)
Definition set_field (v : value) (k : jsstring) (x : value) : value :=
  match v with
  | VObject props => VObject (assoc_set k x props)
  | _ => v
  end.

(** The container [v] after [v[0].k = ...] changed its element 0 to [x]. *)
Definition set_index0 (v : value) (x : value) : value :=
  match v with
  | VArray (_ :: rest) => VArray (x :: rest)
  | VObject props => VObject (assoc_set (lit "0") x props)
  | _ => v
  end.

(** [for] each element in order, stopping at the first throw. *)
Fixpoint map_result {A B} (f : A -> result B) (l : list A) : result (list B) :=
  match l with
  | [] => Normal []
  | x :: xs => let! y := f x in let! ys := map_result f xs in Normal (y :: ys)
  end.

(** [v.map(f)]: only an array has a callable [map]. *)
Definition array_map (f : value -> result value) (v : value) : result value :=
  match v with
  | VArray elems => let! elems' := map_result f elems in Normal (VArray elems')
  | _ => Throw TypeError
  end.

(** The platform's [JSON] object: [parse] fails with a [SyntaxError]
    ([None]) on text that is not JSON. *)
Record JSON : Type := {
  parse : jsstring -> option value;
  stringify : value -> jsstring
}.

(* ===================================================================== *)
(** ** Requests and responses (interfaces [GeminiRequest], [GeminiResponse]) *)
(* ===================================================================== *)

(** Fields typed [any] are carried as JSON values.  A field is [None]
    when the property is absent ([undefined]); the functions below test
    for that as the source does. *)
Record Part : Type := {
  text : option jsstring;
  functionCall : option value;
  functionResponse : option value
}.

Record Content : Type := {
  parts : option (list Part);
  role : option jsstring
}.

Record Candidate : Type := {
  content : option Content;
  finishReason : option jsstring;
  safetyRatings : option (list value)
}.

Record GeminiResponse : Type := {
  candidates : option (list Candidate);
  usageMetadata : option value
}.

Record GeminiRequest : Type := {
  contents : list Content;
  tools : option (list value);
  toolConfig : option value;
  generationConfig : option value;
  safetySettings : option (list value);
  systemInstruction : option Content
}.

(** [part.text || ''] *)
Definition text_or_empty (part : Part) : jsstring :=
  match text part with
  | Some s => if truthy_string s then s else []
  | None => []
  end.

(** [if (part.text)] *)
Definition has_text (part : Part) : bool :=
  match text part with
  | Some s => truthy_string s
  | None => false
  end.

(** [r.candidates[0].content.parts.map(part => part.text || '').join('')],
    the expression [createRetryRequest] and [combineResponses] evaluate
    unguarded: reading through an absent value throws a [TypeError]. *)
Definition first_candidate (r : GeminiResponse) : result Candidate :=
  match candidates r with
  | Some (candidate :: _) => Normal candidate
  | Some [] | None => Throw TypeError
  end.

Definition content_parts (candidate : Candidate) : result (list Part) :=
  match content candidate with
  | None => Throw TypeError
  | Some c =>
      match parts c with
      | None => Throw TypeError
      | Some ps => Normal ps
      end
  end.

Definition candidate0_text (r : GeminiResponse) : result jsstring :=
  let! candidate := first_candidate r in
  let! ps := content_parts candidate in
  Normal (join (map text_or_empty ps)).

(* --------------------------------------------------------------------- *)
(** *** Completion detector *)

Definition isResponseComplete (response : GeminiResponse) : bool :=
  match candidates response with
  | None | Some [] => false
  | Some (candidate :: _) =>
      match content candidate with
      | None => false
      | Some c =>
          match parts c with
          | None => false
          | Some ps => includes (join (map text_or_empty ps)) FINISHED_TOKEN
          end
      end
  end.

(* --------------------------------------------------------------------- *)
(** *** Continuation builder *)

Definition createRetryRequest (incompleteResponse : GeminiResponse)
    (originalRequest : GeminiRequest) : result GeminiRequest :=
  let! incompleteText := candidate0_text incompleteResponse in
  let retryContent :=
    {| parts := Some [ {| text := Some (incompleteText ++ newline ++ newline ++ RETRY_PROMPT);
                          functionCall := None; functionResponse := None |} ];
       role := Some (lit "user") |} in
  Normal {| contents := contents originalRequest ++ [retryContent];
            tools := tools originalRequest;
            toolConfig := toolConfig originalRequest;
            generationConfig := generationConfig originalRequest;
            safetySettings := safetySettings originalRequest;
            systemInstruction := systemInstruction originalRequest |}.

(* --------------------------------------------------------------------- *)
(** *** Response combiner *)

Definition combineResponses (incomplete complete : GeminiResponse)
  : result GeminiResponse :=
  let! incompleteText := candidate0_text incomplete in
  let! completeText := candidate0_text complete in
  let finalText := trim (replace completeText incompleteText []) in
  let! candidate := first_candidate complete in
  let! c := match content candidate with Some c => Normal c | None => Throw TypeError end in
  Normal {| candidates := Some [ {|
              content := Some {| parts := Some [ {| text := Some finalText;
                                                    functionCall := None;
                                                    functionResponse := None |} ];
                                 role := role c |};
              finishReason := finishReason candidate;
              safetyRatings := safetyRatings candidate |} ];
            usageMetadata := usageMetadata complete |}.

(* --------------------------------------------------------------------- *)
(** *** Cleanup of a complete response *)

Definition strip_tokens (s : jsstring) : jsstring :=
  replace (replace (replace s FINISHED_TOKEN []) INCOMPLETE_TOKEN []) REMINDER_PROMPT [].

Definition clean_part (part : Part) : Part :=
  if has_text part then
    {| text := Some (trim (strip_tokens (default [] (text part))));
       functionCall := functionCall part;
       functionResponse := functionResponse part |}
  else part.

(** The source updates [candidate.content.parts] in place and returns the
    response it was given; the response is the one the handler has just
    parsed, so the updated value is all that is observed. *)
Definition cleanResponse (response : GeminiResponse) : GeminiResponse :=
  match candidates response with
  | None | Some [] => response
  | Some (candidate :: others) =>
      match content candidate with
      | None => response
      | Some c =>
          match parts c with
          | None => response
          | Some ps =>
              {| candidates := Some (
                   {| content := Some {| parts := Some (map clean_part ps);
                                         role := role c |};
                      finishReason := finishReason candidate;
                      safetyRatings := safetyRatings candidate |} :: others);
                 usageMetadata := usageMetadata response |}
          end
      end
  end.

(* ===================================================================== *)
(** ** The request as the augmenter sees it: objects on a heap *)
(* ===================================================================== *)

(** [addAntiTruncationPrompt] copies the request object with a spread and
    then assigns through the copy, so which objects the copy shares with
    the caller's request decides what the caller observes.  The request,
    its system instruction, the [parts] array and each part are therefore
    objects in a store, referred to by location.  The system instruction
    is typed [any] in the source and used as a content object
    ([.parts[0].text]); it is modelled as one. *)
Module Heap.

Definition loc : Type := positive.

Record PartObj : Type := {
  text : option jsstring;
  functionCall : option value;
  functionResponse : option value
}.

Record ContentObj : Type := {
  parts : option loc;          (* the array of parts *)
  role : option jsstring
}.

Record RequestObj : Type := {
  contents : loc;              (* the array of turns *)
  tools : option (list value);
  toolConfig : option value;
  generationConfig : option value;
  safetySettings : option (list value);
  systemInstruction : option loc
}.

Inductive object : Type :=
| OPart (p : PartObj)
| OArray (elems : list loc)
| OContent (c : ContentObj)
| ORequest (r : RequestObj).

Abbreviation heap := (gmap loc object).

(** A new object lives at a location the heap does not use yet. *)
Definition alloc (o : object) (h : heap) : loc * heap :=
  let l := fresh (dom h) in (l, <[l := o]> h).

Definition get_request (h : heap) (l : loc) : option RequestObj :=
  match h !! l with Some (ORequest r) => Some r | _ => None end.
Definition get_content (h : heap) (l : loc) : option ContentObj :=
  match h !! l with Some (OContent c) => Some c | _ => None end.
Definition get_array (h : heap) (l : loc) : option (list loc) :=
  match h !! l with Some (OArray elems) => Some elems | _ => None end.
Definition get_part (h : heap) (l : loc) : option PartObj :=
  match h !! l with Some (OPart p) => Some p | _ => None end.

Definition set_systemInstruction (r : RequestObj) (si : option loc) : RequestObj :=
  {| contents := contents r; tools := tools r; toolConfig := toolConfig r;
     generationConfig := generationConfig r; safetySettings := safetySettings r;
     systemInstruction := si |}.

Definition set_text (p : PartObj) (t : jsstring) : PartObj :=
  {| text := Some t; functionCall := functionCall p;
     functionResponse := functionResponse p |}.

(** [existing || ''] on an optional string. *)
Definition or_empty (t : option jsstring) : jsstring :=
  match t with
  | Some s => if truthy_string s then s else []
  | None => []
  end.

(** The augmenter.  [None] only when the heap is not the heap of a
    request ([request] or an object it refers to is not there, or is an
    object of another kind); otherwise the completion of the call and
    the heap it leaves. *)
Definition addAntiTruncationPrompt (h : heap) (request : loc)
  : option (result loc * heap) :=
  r ← get_request h request;
  (* const modifiedRequest = { ...request } *)
  let '(modifiedRequest, h1) := alloc (ORequest r) h in
  match systemInstruction r with
  | None =>
      (* modifiedRequest.systemInstruction = { parts: [{ text }], role } *)
      let '(part, h2) :=
        alloc (OPart {| text := Some FINISH_TOKEN_PROMPT;
                        functionCall := None; functionResponse := None |}) h1 in
      let '(arr, h3) := alloc (OArray [part]) h2 in
      let '(si, h4) :=
        alloc (OContent {| parts := Some arr; role := Some (lit "user") |}) h3 in
      Some (Normal modifiedRequest,
            <[modifiedRequest := ORequest (set_systemInstruction r (Some si))]> h4)
  | Some si =>
      c ← get_content h1 si;
      match parts c with
      | None => Some (Throw TypeError, h1)        (* undefined[0] *)
      | Some arr =>
          elems ← get_array h1 arr;
          match elems with
          | [] => Some (Throw TypeError, h1)      (* undefined.text = ... *)
          | part0 :: _ =>
              p ← get_part h1 part0;
              let existingText := or_empty (text p) in
              let newText := existingText ++ newline ++ newline ++ FINISH_TOKEN_PROMPT in
              Some (Normal modifiedRequest,
                    <[part0 := OPart (set_text p newText)]> h1)
          end
      end
  end.

(** The text of the first part of the system instruction of the request
    at [request], as a reader of the heap finds it. *)
Definition system_text (h : heap) (request : loc) : option jsstring :=
  r ← get_request h request;
  si ← systemInstruction r;
  c ← get_content h si;
  arr ← parts c;
  elems ← get_array h arr;
  part0 ← head elems;
  p ← get_part h part0;
  text p.

End Heap.

(** The request at [request] as [JSON.stringify] reads it off the heap
    (and as the continuation builder, which only reads it, sees it). *)
Definition reify_part (p : Heap.PartObj) : Part :=
  {| text := Heap.text p; functionCall := Heap.functionCall p;
     functionResponse := Heap.functionResponse p |}.

Definition reify_parts (h : Heap.heap) (arr : Heap.loc) : option (list Part) :=
  elems ← Heap.get_array h arr;
  mapM (fun l => reify_part <$> Heap.get_part h l) elems.

Definition reify_content (h : Heap.heap) (l : Heap.loc) : option Content :=
  c ← Heap.get_content h l;
  match Heap.parts c with
  | None => Some {| parts := None; role := Heap.role c |}
  | Some arr =>
      ps ← reify_parts h arr;
      Some {| parts := Some ps; role := Heap.role c |}
  end.

Definition reify (h : Heap.heap) (request : Heap.loc) : option GeminiRequest :=
  r ← Heap.get_request h request;
  turns ← Heap.get_array h (Heap.contents r);
  cs ← mapM (reify_content h) turns;
  si ← match Heap.systemInstruction r with
       | None => Some None
       | Some l => Some <$> reify_content h l
       end;
  Some {| contents := cs; tools := Heap.tools r; toolConfig := Heap.toolConfig r;
          generationConfig := Heap.generationConfig r;
          safetySettings := Heap.safetySettings r; systemInstruction := si |}.

(* ===================================================================== *)
(** ** The resilient upstream client *)
(* ===================================================================== *)

(** What [fetch] resolves to.  [json_body] is what [response.json()]
    gives: [None] when the body is not JSON (the call rejects with a
    [SyntaxError]). *)
Record UpstreamResponse : Type := {
  status : Z;
  statusText : jsstring;
  json_body : option GeminiResponse
}.

Inductive fetch_outcome : Type :=
| Rejected (e : exn)
| Resolved (response : UpstreamResponse).

(** The surroundings of one request: the environment variable and the
    upstream, which answers the [n]-th [fetch] of the request (counted
    from 0) with [upstream n]. *)
Record World : Type := {
  GEMINI_API_KEY : option jsstring;
  upstream : nat -> fetch_outcome
}.

(** What the client does to the outside, in order. *)
Inductive event : Type :=
| Fetch (url : jsstring) (body : GeminiRequest)
| Sleep (ms : Z).

Record state : Type := {
  fetches : nat;          (* fetch calls made so far *)
  trace : list event      (* oldest event first *)
}.

Definition initial : state := {| fetches := 0; trace := [] |}.

(** [await fetch(url, { method: 'POST', ..., body: JSON.stringify(request) })] *)
Definition fetch (w : World) (url : jsstring) (request : GeminiRequest) (st : state)
  : fetch_outcome * state :=
  (upstream w (fetches st),
   {| fetches := S (fetches st); trace := trace st ++ [Fetch url request] |}).

(** [await new Promise(resolve => setTimeout(resolve, ms))] *)
Definition sleep (ms : Z) (st : state) : state :=
  {| fetches := fetches st; trace := trace st ++ [Sleep ms] |}.

(** [response.ok] *)
Definition ok (response : UpstreamResponse) : bool :=
  ((200 <=? status response) && (status response <=? 299))%Z.

(** [RETRYABLE_STATUS_CODES.includes(status)] *)
Definition retryable (s : Z) : bool :=
  existsb (Z.eqb s) RETRYABLE_STATUS_CODES.

(** [Math.min(1000 * Math.pow(2, retryCount), 30000)] *)
Definition backoffDelay (retryCount : nat) : Z :=
  Z.min (1000 * 2 ^ Z.of_nat retryCount) 30000.

Definition endpoint (isStreaming : bool) : jsstring :=
  if isStreaming then lit "streamGenerateContent" else lit "generateContent".

Definition request_url (model searchParams : jsstring) (isStreaming : bool) : jsstring :=
  let baseUrl := lit "https://generativelanguage.googleapis.com/v1beta/models/"
                 ++ model ++ lit ":" ++ endpoint isStreaming in
  if truthy_string searchParams then baseUrl ++ searchParams else baseUrl.

(** [makeGeminiRequestWithRetry].  The two recursive calls of the source
    are [return makeGeminiRequestWithRetry(...)] without [await]: the
    promise of the inner call becomes the result of the outer one, and a
    rejection of it does not pass through the outer [catch].  [retry]
    below is that tail call, after the backoff sleep; [catch] is the
    [catch] block, which sees a rejection of [fetch] and the [Error]
    thrown for a bad status.  The logger calls are left out. *)
Equations? makeGeminiRequestWithRetry (w : World) (request : GeminiRequest)
    (model searchParams : jsstring) (isStreaming : bool)
    (retryCount : nat) (st : state) : result UpstreamResponse * state
  by wf (MAX_FETCH_RETRIES - retryCount) lt :=
  makeGeminiRequestWithRetry w request model searchParams isStreaming retryCount st :=
    match GEMINI_API_KEY w with
    | None => (Throw MissingApiKey, st)
    | Some apiKey =>
      if negb (truthy_string apiKey) then (Throw MissingApiKey, st)
      else
        let url := request_url model searchParams isStreaming in
        let retry := fun (_ : retryCount < MAX_FETCH_RETRIES) (s : state) =>
          makeGeminiRequestWithRetry w request model searchParams isStreaming
            (S retryCount) (sleep (backoffDelay retryCount) s) in
        let catch := fun (error : exn) (s : state) =>
          match lt_dec retryCount MAX_FETCH_RETRIES with
          | left H => retry H s
          | right _ => (Throw error, s)
          end in
        let '(outcome, st1) := fetch w url request st in
        match outcome with
        | Rejected error => catch error st1
        | Resolved response =>
            if negb (ok response) then
              if retryable (status response) then
                match lt_dec retryCount MAX_FETCH_RETRIES with
                | left H => retry H st1
                | right _ =>
                    catch (UpstreamStatus (status response) (statusText response)) st1
                end
              else catch (UpstreamStatus (status response) (statusText response)) st1
            else (Normal response, st1)
        end
    end.
Proof.
  unfold MAX_FETCH_RETRIES in *.
  destruct retryCount as [|[|[|?]]]; lia.
Qed.

(** An attempt fails when [fetch] rejects or the status is not a
    success; [failure_of] is the exception the [try] block then ends
    with, unless it retries. *)
Definition attempt_fails (o : fetch_outcome) : Prop :=
  match o with
  | Rejected _ => True
  | Resolved response => ok response = false
  end.

Definition failure_of (o : fetch_outcome) : exn :=
  match o with
  | Rejected e => e
  | Resolved response => UpstreamStatus (status response) (statusText response)
  end.

Definition api_key_set (w : World) : Prop :=
  exists apiKey, GEMINI_API_KEY w = Some apiKey /\ truthy_string apiKey = true.

(** The events of a call that makes four attempts. *)
Definition four_attempts (url : jsstring) (request : GeminiRequest) : list event :=
  [Fetch url request; Sleep 1000; Fetch url request; Sleep 2000;
   Fetch url request; Sleep 4000; Fetch url request].

(** [await response.json()] *)
Definition json (response : UpstreamResponse) : result GeminiResponse :=
  match json_body response with
  | Some r => Normal r
  | None => Throw SyntaxError
  end.

(* ===================================================================== *)
(** ** The non-streaming orchestrator *)
(* ===================================================================== *)

(** What a handler answers with: a JSON body, or the error payload that
    [createErrorResponse(message, status, details)] builds ([details] is
    the message of the exception and the elapsed time). *)
Inductive body : Type :=
| JsonBody (r : GeminiResponse)
| ErrorBody (message : jsstring) (cause : exn).

Record Reply : Type := {
  reply_status : Z;
  reply_body : body
}.

Definition null_body_status (s : Z) : bool :=
  existsb (Z.eqb s) [101; 103; 204; 205; 304]%Z.

(** [new Response(JSON.stringify(b), { status: s, headers })].  The
    constructor throws a [RangeError] for a status outside 200..599 and
    a [TypeError] for a body given with a null body status. *)
Definition new_Response (b : GeminiResponse) (s : Z) : result Reply :=
  if ((s <? 200) || (599 <? s))%Z then Throw RangeError
  else if null_body_status s then Throw TypeError
  else Normal {| reply_status := s; reply_body := JsonBody b |}.

Definition createErrorResponse (message : jsstring) (s : Z) (cause : exn) : Reply :=
  {| reply_status := s; reply_body := ErrorBody message cause |}.

(** [handleIncompleteResponse].  [createRetryRequest] is called before
    the [try] block; the upstream call, [response.json()],
    [combineResponses] and the construction of the reply are inside it.
    The [catch] block answers with the incomplete response and status
    200. *)
Definition handleIncompleteResponse (w : World)
    (incompleteResponse : GeminiResponse) (originalRequest : GeminiRequest)
    (model searchParams : jsstring) (st : state) : result Reply * state :=
  match createRetryRequest incompleteResponse originalRequest with
  | Throw e => (Throw e, st)
  | Normal retryRequest =>
      let fallback :=
        {| reply_status := 200; reply_body := JsonBody incompleteResponse |} in
      let '(sent, st1) :=
        makeGeminiRequestWithRetry w retryRequest model searchParams false 0 st in
      match (let! response := sent in
             let! geminiResponse := json response in
             let! combinedResponse :=
               combineResponses incompleteResponse geminiResponse in
             new_Response combinedResponse (status response)) with
      | Throw _ => (Normal fallback, st1)
      | Normal reply => (Normal reply, st1)
      end
  end.

(** [handleNonStreamingRequest].  The request is the object at [request]
    of the heap [h]; the augmented request is read off the heap when it
    is sent.  Everything up to the completion check is inside the [try]
    block, whose [catch] answers with status 500.  The incomplete branch
    is [return handleIncompleteResponse(...)], not awaited: what that
    call ends with, a rejection included, is what this handler ends
    with.  [None] only when the heap is not the heap of a request. *)
Definition handleNonStreamingRequest (w : World) (h : Heap.heap) (request : Heap.loc)
    (model searchParams : jsstring) (st : state)
  : option (result Reply * state) :=
  let failed := fun (e : exn) (s : state) =>
    Some (Normal (createErrorResponse (lit "Gemini request failed") 500 e), s) in
  '(augmented, h1) ← Heap.addAntiTruncationPrompt h request;
  match augmented with
  | Throw e => failed e st
  | Normal modifiedRequest =>
      sentRequest ← reify h1 modifiedRequest;
      let '(sent, st1) :=
        makeGeminiRequestWithRetry w sentRequest model searchParams false 0 st in
      match (let! response := sent in
             let! geminiResponse := json response in
             Normal (response, geminiResponse)) with
      | Throw e => failed e st1
      | Normal (response, geminiResponse) =>
          if negb (isResponseComplete geminiResponse) then
            Some (handleIncompleteResponse w geminiResponse sentRequest
                    model searchParams st1)
          else
            match new_Response (cleanResponse geminiResponse) (status response) with
            | Throw e => failed e st1
            | Normal reply => Some (Normal reply, st1)
            end
      end
  end.

(* ===================================================================== *)
(** ** The stream chunk transformer *)
(* ===================================================================== *)

(** The callback of [processStreamChunk]: a part with a truthy [text] is
    replaced by a copy whose [text] went through the three [replace]
    calls (a [text] that is not a string has no [replace] to call). *)
Definition clean_stream_part (part : value) : result value :=
  let! t := get_field part (lit "text") in
  if truthy t then
    match t with
    | VString s => Normal (set_field part (lit "text") (VString (strip_tokens s)))
    | _ => Throw TypeError
    end
  else Normal part.

(** [processStreamChunk(chunk: any)], on whatever [JSON.parse] returned.
    The assignment [candidate.content.parts = ...] changes an object that
    [chunk] reaches through [candidates[0].content]; the returned value
    is [chunk] with that change. *)
Definition processStreamChunk (chunk : value) : result value :=
  let! cands := get_field chunk (lit "candidates") in
  if negb (truthy cands) then Normal chunk else
  let! noCandidate := length_is_zero cands in
  if noCandidate then Normal chunk else
  let! candidate := index0 cands in
  let! c := get_field candidate (lit "content") in
  if negb (truthy c) then Normal chunk else
  let! ps := get_field c (lit "parts") in
  if negb (truthy ps) then Normal chunk else
  let! ps' := array_map clean_stream_part ps in
  let c' := set_field c (lit "parts") ps' in
  let candidate' := set_field candidate (lit "content") c' in
  let cands' := set_index0 cands candidate' in
  Normal (set_field chunk (lit "candidates") cands').

Definition data_prefix : jsstring := lit "data: ".

(** The body of the [for] loop of [transform]: what one line enqueues.
    Whatever the [try] block throws ([JSON.parse], [processStreamChunk])
    is caught and the line is enqueued as it came. *)
Definition transform_line (J : JSON) (line : jsstring) : list jsstring :=
  if startsWith line data_prefix then
    let jsonData := slice 6 line in
    if negb (truthy_string jsonData) || negb (truthy_string (trim jsonData))
    then [line ++ newline]
    else
      match parse J jsonData with
      | None => [line ++ newline]
      | Some data =>
          match processStreamChunk data with
          | Throw _ => [line ++ newline]
          | Normal processed =>
              if truthy processed
              then [data_prefix ++ stringify J processed ++ newline ++ newline]
              else []
          end
      end
  else [line ++ newline].

(** [text.split('\n').filter(line => line.trim())] *)
Definition chunk_lines (chunkText : jsstring) : list jsstring :=
  List.filter (fun line => truthy_string (trim line)) (split_lines chunkText).

(** [transform(chunk, controller)] on the decoded text of the chunk: the
    strings handed to [controller.enqueue], in order. *)
Definition transform (J : JSON) (chunkText : jsstring) : list jsstring :=
  flat_map (transform_line J) (chunk_lines chunkText).

(** [lines.join('\n')], the inverse of [split_lines]. *)
Fixpoint unlines (ls : list jsstring) : jsstring :=
  match ls with
  | [] => []
  | l :: rest =>
      match rest with
      | [] => l
      | _ :: _ => l ++ newline ++ unlines rest
      end
  end.

(** A line the [filter] of [transform] keeps. *)
Definition nonblank (line : jsstring) : bool := truthy_string (trim line).

(* --------------------------------------------------------------------- *)
(** *** Reading a cleaned payload *)

(** A text with none of the three protocol tokens in it. *)
Definition token_free (s : jsstring) : Prop :=
  includes s FINISHED_TOKEN = false /\
  includes s INCOMPLETE_TOKEN = false /\
  includes s REMINDER_PROMPT = false.

(** The parts of candidate 0 of a payload, the other candidates, and the
    text of a part, as a reader of the emitted JSON finds them. *)
Definition candidate0_parts (v : value) : option (list value) :=
  match get_field v (lit "candidates") with
  | Normal (VArray (candidate :: _)) =>
      match get_field candidate (lit "content") with
      | Normal c =>
          match get_field c (lit "parts") with
          | Normal (VArray ps) => Some ps
          | _ => None
          end
      | Throw _ => None
      end
  | _ => None
  end.

Definition other_candidates (v : value) : list value :=
  match get_field v (lit "candidates") with
  | Normal (VArray (_ :: others)) => others
  | _ => []
  end.

Definition text_of (part : value) : option jsstring :=
  match get_field part (lit "text") with
  | Normal (VString s) => Some s
  | _ => None
  end.

(** [t] is [s], or [s] with [token] set in at one place. *)
Definition inserted (token s t : jsstring) : Prop :=
  t = s \/ exists a b, s = a ++ b /\ t = a ++ token ++ b.

(** [t] is [body] with each of the three tokens set in at most once, at
    any place of [body] and in any order; a token may even sit inside
    another, as long as the one the cleanup removes first is the inner
    one. *)
Definition marked (body t : jsstring) : Prop :=
  exists t3 t2,
    inserted REMINDER_PROMPT body t3 /\
    inserted INCOMPLETE_TOKEN t3 t2 /\
    inserted FINISHED_TOKEN t2 t.

(** What the cleanup makes of a text that is a token-free [body] with
    tokens set in: the [body] again ([trimmed] on the non-streaming
    path), with no token in it. *)
Definition cleaned (trimmed : bool) (before after : option jsstring) : Prop :=
  forall body t, token_free body -> marked body t ->
    before = Some t ->
    exists t', after = Some t' /\ token_free t' /\
               t' = if trimmed then trim body else body.
(* ===================================================================== *)
(** ** Sample inputs *)
(* ===================================================================== *)

Module Samples.

Definition plain_request : GeminiRequest :=
  {| contents := [ {| parts := Some [ {| text := Some (lit "Say hello");
                                         functionCall := None;
                                         functionResponse := None |} ];
                      role := Some (lit "user") |} ];
     tools := None; toolConfig := None; generationConfig := None;
     safetySettings := None; systemInstruction := None |}.

Definition text_response (t : jsstring) : GeminiResponse :=
  {| candidates := Some [ {| content := Some {| parts := Some [ {| text := Some t;
                                                                  functionCall := None;
                                                                  functionResponse := None |} ];
                                               role := Some (lit "model") |};
                             finishReason := Some (lit "STOP");
                             safetyRatings := None |} ];
     usageMetadata := None |}.

Definition http (s : Z) (reason : jsstring) (body : option GeminiResponse)
  : UpstreamResponse :=
  {| status := s; statusText := reason; json_body := body |}.

(** An upstream that answers every attempt with the same response. *)
Definition always (response : UpstreamResponse) : World :=
  {| GEMINI_API_KEY := Some (lit "key"); upstream := fun _ => Resolved response |}.

(** An upstream that answers the attempts with the given responses, in
    order, and rejects once they are used up. *)
Definition scripted (responses : list UpstreamResponse) : World :=
  {| GEMINI_API_KEY := Some (lit "key");
     upstream := fun n => match responses !! n with
                          | Some response => Resolved response
                          | None => Rejected (FetchFailure (lit "connection reset"))
                          end |}.

Definition unavailable : UpstreamResponse := http 503 (lit "Service Unavailable") None.
Definition server_error : UpstreamResponse := http 500 (lit "Internal Server Error") None.

Definition model : jsstring := lit "gemini-2.5-pro".

(** The first answer was cut off after "Hello wor"; the continuation
    answers "ld!" and the finished marker. *)
Definition cut_off : GeminiResponse := text_response (lit "Hello wor").
Definition continuation : GeminiResponse :=
  text_response (lit "ld!" ++ FINISHED_TOKEN).

(** A first answer without candidates, as the upstream sends for a
    blocked prompt. *)
Definition no_candidates : GeminiResponse :=
  {| candidates := Some []; usageMetadata := None |}.

(** A continuation whose only candidate has no content, as the upstream
    sends when it stops before any text. *)
Definition no_content : GeminiResponse :=
  {| candidates := Some [ {| content := None;
                             finishReason := Some (lit "SAFETY");
                             safetyRatings := None |} ];
     usageMetadata := None |}.

(** A chunk of two event lines with the blank separator line between
    them. *)
Definition blank_separated : jsstring :=
  lit "event: ping" ++ newline ++ newline ++ lit "event: pong" ++ newline.

(** A platform [JSON] that finds every payload malformed. *)
Definition rejecting : JSON := {| parse := fun _ => None; stringify := fun _ => [] |}.

Definition text_part (t : jsstring) : value := VObject [(lit "text", VString t)].

Definition candidate_of (t : jsstring) : value :=
  VObject [(lit "content", VObject [(lit "parts", VArray [text_part t])])].

(** A payload with two candidates, each ending with the finished marker. *)
Definition two_candidates : value :=
  VObject [(lit "candidates",
            VArray [candidate_of (lit "Hi" ++ FINISHED_TOKEN);
                    candidate_of (lit "Yo" ++ FINISHED_TOKEN)])].

(** A payload whose only text part has one finished marker, set inside
    the pieces of another. *)
Definition nested_marker : value :=
  VObject [(lit "candidates",
            VArray [candidate_of (lit "[RESPONSE_" ++ FINISHED_TOKEN ++ lit "FINISHED]")])].

(** The text "Hello!" with the reminder, the incomplete marker and the
    finished marker set in, and a payload whose only text part it is. *)
Definition marked_text : jsstring :=
  lit "Hel" ++ REMINDER_PROMPT ++ lit "lo" ++ INCOMPLETE_TOKEN ++ lit "!" ++ FINISHED_TOKEN.

Definition all_markers : value :=
  VObject [(lit "candidates", VArray [candidate_of marked_text])].

(** A payload whose only text part is the finished marker given twice. *)
Definition repeated_marker : value :=
  VObject [(lit "candidates",
            VArray [candidate_of (FINISHED_TOKEN ++ FINISHED_TOKEN)])].

(** The payload of two candidates as a complete non-streaming response. *)
Definition two_candidate_response : GeminiResponse :=
  {| candidates := Some (default [] (candidates (text_response (lit "Hi" ++ FINISHED_TOKEN)))
                         ++ default [] (candidates (text_response (lit "Yo" ++ FINISHED_TOKEN))));
     usageMetadata := None |}.

(** A request with the system instruction "Be brief.", as objects: the
    request at 1, its instruction at 2, the [parts] array at 3, the
    part at 4 and the (empty) [contents] array at 5. *)
Definition request_object : Heap.object :=
  Heap.ORequest {| Heap.contents := 5%positive; Heap.tools := None;
                   Heap.toolConfig := None; Heap.generationConfig := None;
                   Heap.safetySettings := None;
                   Heap.systemInstruction := Some 2%positive |}.

Definition instructed : Heap.heap :=
  <[1%positive := request_object]>
  (<[2%positive := Heap.OContent {| Heap.parts := Some 3%positive; Heap.role := None |}]>
  (<[3%positive := Heap.OArray [4%positive]]>
  (<[4%positive := Heap.OPart {| Heap.text := Some (lit "Be brief.");
                                 Heap.functionCall := None;
                                 Heap.functionResponse := None |}]>
  (<[5%positive := Heap.OArray []]> ∅)))).

(** A request without a system instruction: the request at 1 and its
    (empty) [contents] array at 5. *)
Definition uninstructed : Heap.heap :=
  <[1%positive := Heap.ORequest {| Heap.contents := 5%positive; Heap.tools := None;
                                   Heap.toolConfig := None;
                                   Heap.generationConfig := None;
                                   Heap.safetySettings := None;
                                   Heap.systemInstruction := None |}]>
  (<[5%positive := Heap.OArray []]> ∅).

(** The same request with a system instruction whose [parts] is []. *)
Definition instructed_without_parts : Heap.heap :=
  <[1%positive := request_object]>
  (<[2%positive := Heap.OContent {| Heap.parts := Some 3%positive; Heap.role := None |}]>
  (<[3%positive := Heap.OArray []]>
  (<[5%positive := Heap.OArray []]> ∅))).

End Samples.

(* ===================================================================== *)
(** ** Further definitions: the handlers around the core *)
(* ===================================================================== *)

(** The events of [k] failed attempts in a row, the first of them made at
    [retryCount]: each is a [fetch] followed by the backoff sleep. *)
Fixpoint retry_events (url : jsstring) (request : GeminiRequest)
    (retryCount k : nat) : list event :=
  match k with
  | 0 => []
  | S k' =>
      Fetch url request :: Sleep (backoffDelay retryCount)
      :: retry_events url request (S retryCount) k'
  end.

(** The state a call leaves that was started in [st] and ended at its
    [k]-th retry. *)
Definition after_attempts (url : jsstring) (request : GeminiRequest)
    (retryCount k : nat) (st : state) : state :=
  {| fetches := fetches st + k + 1;
     trace := trace st ++ retry_events url request retryCount k ++ [Fetch url request] |}.

(** The turn the continuation builder adds for the incomplete text [t]. *)
Definition continuation_turn (t : jsstring) : Content :=
  {| parts := Some [ {| text := Some (t ++ newline ++ newline ++ RETRY_PROMPT);
                        functionCall := None; functionResponse := None |} ];
     role := Some (lit "user") |}.

(** A request that carries the completion mandate: it has a system
    instruction whose first part is a text that ends with
    [FINISH_TOKEN_PROMPT]. *)
Definition mandated (request : GeminiRequest) : Prop :=
  exists c p ps t,
    systemInstruction request = Some c /\
    parts c = Some (p :: ps) /\
    text p = Some (t ++ FINISH_TOKEN_PROMPT).

(** The events a handler added to the trace. *)
Definition events_since (st st' : state) (evs : list event) : Prop :=
  trace st' = trace st ++ evs.

(* --------------------------------------------------------------------- *)
(** *** The streaming handler and the entry point *)

(** The longest run of code units other than the colon at the start of
    [s], and what follows it. *)
Fixpoint span_no_colon (s : jsstring) : jsstring * jsstring :=
  match s with
  | [] => ([], [])
  | c :: s' =>
      if (c =? 58)%N then ([], s)
      else let '(run, rest) := span_no_colon s' in (c :: run, rest)
  end.

(** A match of [/\/models\/([^:]+):/] that starts at the start of [s]:
    the literal [/models/], one code unit or more other than the colon,
    and a colon.  The class excludes the colon, so a match takes the
    whole run up to the first colon. *)
Definition model_at (s : jsstring) : option jsstring :=
  if startsWith s (lit "/models/") then
    match span_no_colon (drop 8 s) with
    | ((_ :: _) as run, _ :: _) => Some run
    | _ => None
    end
  else None.

(** [pathname.match(/\/models\/([^:]+):/)]: the capture of the leftmost
    match, [None] when there is none. *)
Fixpoint model_match (pathname : jsstring) : option jsstring :=
  match model_at pathname with
  | Some model => Some model
  | None =>
      match pathname with
      | [] => None
      | _ :: rest => model_match rest
      end
  end.

(** [TARGET_MODELS.includes(model)] *)
Definition supported (model : jsstring) : bool :=
  existsb (fun m => bool_decide (m = model)) TARGET_MODELS.

(** What the entry point answers with: a reply of a handler, the call
    [createErrorResponse(message, 400, details)] by its arguments (the
    status and the message reach the client as they are; the details may
    be rewritten on the way), or an event stream, given by its status
    and the strings enqueued for it ([None] when the upstream response
    had no body to pipe). *)
Inductive answer : Type :=
| Replied (reply : Reply)
| ClientError (message details : jsstring)
| Streamed (s : Z) (enqueued : option (list jsstring)).

(** [response.body?.pipeThrough(transformStream)], chunk by chunk. *)
Definition pipeThrough (J : JSON) (chunks : option (list jsstring))
  : option (list jsstring) :=
  flat_map (transform J) <$> chunks.

(** [new Response(stream, { status, headers })] for the piped stream:
    the checks of the constructor. *)
Definition new_stream_Response (enqueued : option (list jsstring)) (s : Z)
  : result answer :=
  if ((s <? 200) || (599 <? s))%Z then Throw RangeError
  else if null_body_status s && bool_decide (enqueued <> None) then Throw TypeError
  else Normal (Streamed s enqueued).

(** [handleStreamingRequest].  [body_of] gives the decoded chunks of the
    body of an upstream response ([None]: no body).  The whole function
    is inside [try], and the upstream call is awaited: whatever is
    thrown is answered with status 500. *)
Definition handleStreamingRequest (w : World) (J : JSON)
    (body_of : UpstreamResponse -> option (list jsstring))
    (h : Heap.heap) (request : Heap.loc)
    (model searchParams : jsstring) (st : state) : option (answer * state) :=
  let failed := fun (e : exn) (s : state) =>
    Some (Replied (createErrorResponse (lit "Gemini streaming failed") 500 e), s) in
  '(augmented, h1) ← Heap.addAntiTruncationPrompt h request;
  match augmented with
  | Throw e => failed e st
  | Normal modifiedRequest =>
      sentRequest ← reify h1 modifiedRequest;
      let '(sent, st1) :=
        makeGeminiRequestWithRetry w sentRequest model searchParams true 0 st in
      match (let! response := sent in
             new_stream_Response (pipeThrough J (body_of response))
                                 (status response)) with
      | Throw e => failed e st1
      | Normal a => Some (a, st1)
      end
  end.

(** [handleGeminiAntiRequest].  [search] is [url.search]; [body] is what
    [request.json()] gives, the request as objects on a heap, or [None]
    when the body is not JSON.  The two handlers are returned without
    [await]. *)
Definition handleGeminiAntiRequest (w : World) (J : JSON)
    (body_of : UpstreamResponse -> option (list jsstring))
    (pathname search : jsstring) (body : option (Heap.heap * Heap.loc))
    (st : state) : option (result answer * state) :=
  match model_match pathname with
  | None =>
      Some (Normal (ClientError (lit "Invalid model path")
                      (lit "Expected format: /api/gemini-anti/v1/models/{model}:generateContent")),
            st)
  | Some model =>
      if negb (supported model) then
        Some (Normal (ClientError (lit "Model not supported")
                        (lit "Model '" ++ model
                         ++ lit "' is not supported for anti-truncation")),
              st)
      else
        match body with
        | None =>
            Some (Normal (Replied (createErrorResponse (lit "Internal server error")
                                     500 SyntaxError)), st)
        | Some (h, request) =>
            if includes pathname (lit "streamGenerateContent") then
              '(a, st') ← handleStreamingRequest w J body_of h request model search st;
              Some (Normal a, st')
            else
              '(r, st') ← handleNonStreamingRequest w h request model search st;
              Some (match r with
                    | Normal reply => Normal (Replied reply)
                    | Throw e => Throw e
                    end, st')
        end
  end.

(* ===================================================================== *)
(** ** Monitoring ([services/monitoring.ts]) *)
(* ===================================================================== *)

Module Monitoring.

(** [array[i] = x] on an array with holes ([None]): an index past the end
    extends the array. *)
Definition array_set {A} (i : nat) (x : A) (l : list (option A)) : list (option A) :=
  if i <? length l then <[i := Some x]> l
  else l ++ replicate (i - length l) None ++ [Some x].

(** [class CircularBuffer], for a size that is a positive integer (the
    service builds it with 1000). *)
Record CircularBuffer (A : Type) : Type := {
  buffer : list (option A);
  size : nat;
  index : nat;
  count : nat
}.
Arguments buffer {A} _.
Arguments size {A} _.
Arguments index {A} _.
Arguments count {A} _.

(** [new CircularBuffer(size)]: [new Array(size)] is an array of [size]
    holes. *)
Definition new_CircularBuffer {A} (n : nat) : CircularBuffer A :=
  {| buffer := replicate n None; size := n; index := 0; count := 0 |}.

Definition add {A} (value : A) (b : CircularBuffer A) : CircularBuffer A :=
  {| buffer := array_set (index b) value (buffer b);
     size := size b;
     index := (index b + 1) mod size b;
     count := if count b <? size b then S (count b) else count b |}.

(** [getValues()]; a hole reads as [undefined] ([None]). *)
Definition getValues {A} (b : CircularBuffer A) : list (option A) :=
  if count b =? 0 then []
  else if count b <? size b then take (count b) (buffer b)
  else drop (index b) (buffer b) ++ take (index b) (buffer b).

Definition getCount {A} (b : CircularBuffer A) : nat := count b.

Definition clear {A} (b : CircularBuffer A) : CircularBuffer A :=
  {| buffer := buffer b; size := size b; index := 0; count := 0 |}.

(** The buffer after [add] was called with each of [vs], in order. *)
Definition add_all {A} (vs : list A) (b : CircularBuffer A) : CircularBuffer A :=
  fold_left (fun acc v => add v acc) vs b.

(** The last [n] elements of a list. *)
Definition last_n {A} (n : nat) (l : list A) : list A := drop (length l - n) l.

Inductive service_type : Type := generic | special.
Inductive health_status : Type := healthy | degraded | unhealthy.

Record ServiceHealth : Type := {
  name : jsstring;
  type : service_type;
  status : health_status;
  lastCheck : jsstring;
  responseTime : option Z;
  error : option jsstring
}.

(** [requestMetrics.responseTimes]: the ring buffer the constructor
    builds, or the plain array [resetMetrics] puts in its place. *)
Inductive response_times : Type :=
| Ring (b : CircularBuffer Z)
| PlainArray (l : list Z).

(** The fields of [MonitoringService]; [serviceHealth] is the [Map], in
    insertion order.  Counters are JavaScript numbers that only count up
    from 0. *)
Record MonitoringService : Type := {
  startTime : Z;
  serviceHealth : list (jsstring * ServiceHealth);
  total : N;
  successful : N;
  failed : N;
  responseTimes : response_times
}.

(** The aliases of [GENERIC_SERVICES] and of [SPECIAL_SERVICES]
    ([config/services.ts]), in order. *)
Definition GENERIC_SERVICES : list jsstring :=
  map lit ["discord"; "telegram"; "httpbin"; "openai"; "claude"; "gemini";
           "gemininothink"; "meta"; "groq"; "xai"; "cohere"; "huggingface";
           "together"; "novita"; "portkey"; "fireworks"; "targon"; "openrouter";
           "siliconflow"; "modelscope"; "gmi"; "azureinference"; "githubai";
           "dmxcom"; "dmxcn"]%string.

Definition SPECIAL_SERVICES : list jsstring := [lit "gemini-anti"].

Fixpoint map_get (k : jsstring) (m : list (jsstring * ServiceHealth))
  : option ServiceHealth :=
  match m with
  | [] => None
  | (k', v) :: rest => if bool_decide (k' = k) then Some v else map_get k rest
  end.

(** [Map.set]: an existing key keeps its place, a new one goes last. *)
Fixpoint map_set (k : jsstring) (v : ServiceHealth)
    (m : list (jsstring * ServiceHealth)) : list (jsstring * ServiceHealth) :=
  match m with
  | [] => [(k, v)]
  | (k', v') :: rest =>
      if bool_decide (k' = k) then (k', v) :: rest
      else (k', v') :: map_set k v rest
  end.

(** [initializeServiceHealth()], at the instant [now] (as
    [new Date().toISOString()] prints it). *)
Definition initializeServiceHealth (now : jsstring)
    (m : list (jsstring * ServiceHealth)) : list (jsstring * ServiceHealth) :=
  let fresh_entry := fun (t : service_type) (alias : jsstring) =>
    {| name := alias; type := t; status := healthy; lastCheck := now;
       responseTime := None; error := None |} in
  let m1 := fold_left (fun acc alias => map_set alias (fresh_entry generic alias) acc)
                      GENERIC_SERVICES m in
  fold_left (fun acc alias => map_set alias (fresh_entry special alias) acc)
            SPECIAL_SERVICES m1.

(** [new MonitoringService(logger)] at the time [nowMs], printed [now]. *)
Definition new_MonitoringService (nowMs : Z) (now : jsstring) : MonitoringService :=
  {| startTime := nowMs;
     serviceHealth := initializeServiceHealth now [];
     total := 0; successful := 0; failed := 0;
     responseTimes := Ring (new_CircularBuffer 1000) |}.

Definition with_status (st : health_status) (now : jsstring) (h : ServiceHealth)
  : ServiceHealth :=
  {| name := name h; type := type h; status := st; lastCheck := now;
     responseTime := responseTime h; error := error h |}.

(** [recordRequest(success, responseTime, service?)] at the instant
    [now].  The counter [total] is incremented before
    [responseTimes.add] is called; a plain array has no [add], and the
    call throws there. *)
Definition recordRequest (now : jsstring) (success : bool) (duration : Z)
    (service : option jsstring) (s : MonitoringService)
  : result unit * MonitoringService :=
  let total' := (total s + 1)%N in
  match responseTimes s with
  | PlainArray l =>
      (Throw TypeError,
       {| startTime := startTime s; serviceHealth := serviceHealth s;
          total := total'; successful := successful s; failed := failed s;
          responseTimes := PlainArray l |})
  | Ring b =>
      let times := Ring (add duration b) in
      if success then
        (Normal tt,
         {| startTime := startTime s; serviceHealth := serviceHealth s;
            total := total'; successful := (successful s + 1)%N; failed := failed s;
            responseTimes := times |})
      else
        let health :=
          match service with
          | Some alias =>
              if truthy_string alias then
                match map_get alias (serviceHealth s) with
                | Some h => map_set alias (with_status degraded now h) (serviceHealth s)
                | None => serviceHealth s
                end
              else serviceHealth s
          | None => serviceHealth s
          end in
        (Normal tt,
         {| startTime := startTime s; serviceHealth := health;
            total := total'; successful := successful s; failed := (failed s + 1)%N;
            responseTimes := times |})
  end.

(** [updateServiceHealth(service, status, error?)] at the instant [now]. *)
Definition updateServiceHealth (now : jsstring) (service : jsstring)
    (st : health_status) (err : option jsstring) (s : MonitoringService)
  : MonitoringService :=
  match map_get service (serviceHealth s) with
  | None => s
  | Some h =>
      let h1 := with_status st now h in
      let h2 :=
        match err with
        | Some e =>
            if truthy_string e then
              {| name := name h1; type := type h1; status := status h1;
                 lastCheck := lastCheck h1; responseTime := responseTime h1;
                 error := Some e |}
            else h1
        | None => h1
        end in
      {| startTime := startTime s;
         serviceHealth := map_set service h2 (serviceHealth s);
         total := total s; successful := successful s; failed := failed s;
         responseTimes := responseTimes s |}
  end.

(** [resetMetrics()] at the time [nowMs], printed [now]: the new
    [requestMetrics] has the plain array [[]] as [responseTimes]. *)
Definition resetMetrics (nowMs : Z) (now : jsstring) (s : MonitoringService)
  : MonitoringService :=
  {| startTime := nowMs;
     serviceHealth := initializeServiceHealth now (serviceHealth s);
     total := 0; successful := 0; failed := 0;
     responseTimes := PlainArray [] |}.

(** A call of one of the two recording methods, at the instant [at_time]. *)
Inductive call : Type :=
| RecordRequest (at_time : jsstring) (success : bool) (duration : Z)
    (service : option jsstring)
| UpdateServiceHealth (at_time : jsstring) (service : jsstring)
    (st : health_status) (err : option jsstring).

Definition perform (c : call) (s : MonitoringService)
  : result unit * MonitoringService :=
  match c with
  | RecordRequest now success duration service =>
      recordRequest now success duration service s
  | UpdateServiceHealth now service st err =>
      (Normal tt, updateServiceHealth now service st err s)
  end.

(** A sequence of calls on one service object, each made by a caller that
    goes on after an exception: the outcome of every call, and the object
    at the end. *)
Fixpoint perform_all (calls : list call) (s : MonitoringService)
  : list (result unit) * MonitoringService :=
  match calls with
  | [] => ([], s)
  | c :: rest =>
      let '(r, s') := perform c s in
      let '(rs, s'') := perform_all rest s' in
      (r :: rs, s'')
  end.

(** The [(success, responseTime)] arguments of the [recordRequest] calls
    of a sequence. *)
Fixpoint recorded (calls : list call) : list (bool * Z) :=
  match calls with
  | [] => []
  | RecordRequest _ success duration _ :: rest => (success, duration) :: recorded rest
  | UpdateServiceHealth _ _ _ _ :: rest => recorded rest
  end.

(** Whether a call can change the health entry of [alias]. *)
Definition names (alias : jsstring) (c : call) : bool :=
  match c with
  | RecordRequest _ success _ service =>
      negb success && bool_decide (service = Some alias)
  | UpdateServiceHealth _ service _ _ => bool_decide (service = alias)
  end.

(** The calls [main.ts] makes: [recordRequest] with any arguments, and
    [updateServiceHealth] only with the status ['degraded']. *)
Definition made_by_main (c : call) : bool :=
  match c with
  | RecordRequest _ _ _ _ => true
  | UpdateServiceHealth _ _ st _ =>
      match st with degraded => true | _ => false end
  end.

Definition status_of (alias : jsstring) (s : MonitoringService) : option health_status :=
  status <$> map_get alias (serviceHealth s).

End Monitoring.

(* ===================================================================== *)
(** ** The rate limiter ([utils.ts], [class RateLimiter]) *)
(* ===================================================================== *)

From Stdlib Require QArith Qminmax.
From Stdlib Require Import Sorted.

Module RateLimit.

(** Times are [Date.now()] readings (whole milliseconds); [windowMs] and
    [maxRequests] are whole numbers, as [main.ts] passes them.
    [requests] is the [Map], in insertion order. *)
Record RateLimiter : Type := {
  requests : list (jsstring * list Z);
  windowMs : Z;
  maxRequests : Z;
  lastCleanup : Z;
  cleanupInterval : QArith_base.Q
}.

(** [new RateLimiter(windowMs, maxRequests)] at the time [now]; the timer
    that [startPeriodicCleanup] sets up is the [FullCleanup] event below. *)
Definition new_RateLimiter (now windowMs maxRequests : Z) : RateLimiter :=
  {| requests := [];
     windowMs := windowMs;
     maxRequests := maxRequests;
     lastCleanup := now;
     cleanupInterval :=
       Qminmax.Qmax (QArith_base.Qmake windowMs 4) (QArith_base.inject_Z 15000) |}.

Fixpoint map_get (k : jsstring) (m : list (jsstring * list Z)) : option (list Z) :=
  match m with
  | [] => None
  | (k', v) :: rest => if bool_decide (k' = k) then Some v else map_get k rest
  end.

(** [Map.set]: an existing key keeps its place, a new one goes last. *)
Fixpoint map_set (k : jsstring) (v : list Z) (m : list (jsstring * list Z))
  : list (jsstring * list Z) :=
  match m with
  | [] => [(k, v)]
  | (k', v') :: rest =>
      if bool_decide (k' = k) then (k', v) :: rest
      else (k', v') :: map_set k v rest
  end.

(** [time => now - time < this.windowMs] *)
Definition in_window (w now time : Z) : bool := (now - time <? w)%Z.

(** The loop of [incrementalCleanup] over the entries of the map, with
    [cleaned] entries handled so far: an entry with no request left in the
    window is deleted, one that lost some is replaced, and the loop stops
    after 50 of these. *)
Fixpoint cleanup_entries (w now : Z) (entries : list (jsstring * list Z))
    (cleaned : nat) : list (jsstring * list Z) :=
  match entries with
  | [] => []
  | (clientId, times) :: rest =>
      if 50 <=? cleaned then entries
      else
        let validRequests := List.filter (in_window w now) times in
        if length validRequests =? 0 then cleanup_entries w now rest (S cleaned)
        else if negb (length validRequests =? length times)
        then (clientId, validRequests) :: cleanup_entries w now rest (S cleaned)
        else (clientId, times) :: cleanup_entries w now rest cleaned
  end.

Definition incrementalCleanup (now : Z) (rl : RateLimiter) : RateLimiter :=
  if negb (QArith_base.Qle_bool (cleanupInterval rl)
             (QArith_base.inject_Z (now - lastCleanup rl)))
     && (length (requests rl) <=? 1000)
  then rl
  else
    {| requests := cleanup_entries (windowMs rl) now (requests rl) 0;
       windowMs := windowMs rl;
       maxRequests := maxRequests rl;
       lastCleanup := now;
       cleanupInterval := cleanupInterval rl |}.

(** [isAllowed(clientId)] at the time [now]. *)
Definition isAllowed (now : Z) (clientId : jsstring) (rl : RateLimiter)
  : bool * RateLimiter :=
  let rl1 := incrementalCleanup now rl in
  let times := default [] (map_get clientId (requests rl1)) in
  let validRequests := List.filter (in_window (windowMs rl1) now) times in
  if (maxRequests rl1 <=? Z.of_nat (length validRequests))%Z then (false, rl1)
  else
    (true,
     {| requests := map_set clientId (validRequests ++ [now]) (requests rl1);
        windowMs := windowMs rl1;
        maxRequests := maxRequests rl1;
        lastCleanup := lastCleanup rl1;
        cleanupInterval := cleanupInterval rl1 |}).

Fixpoint full_entries (w now : Z) (entries : list (jsstring * list Z))
  : list (jsstring * list Z) :=
  match entries with
  | [] => []
  | (clientId, times) :: rest =>
      let validRequests := List.filter (in_window w now) times in
      if length validRequests =? 0 then full_entries w now rest
      else (clientId, validRequests) :: full_entries w now rest
  end.

(** [fullCleanup()] at the time [now] (its log line is left out). *)
Definition fullCleanup (now : Z) (rl : RateLimiter) : RateLimiter :=
  {| requests := full_entries (windowMs rl) now (requests rl);
     windowMs := windowMs rl;
     maxRequests := maxRequests rl;
     lastCleanup := lastCleanup rl;
     cleanupInterval := cleanupInterval rl |}.

(** What happens to a limiter: a request of a client is checked, or the
    timer runs [fullCleanup]. *)
Inductive op : Type :=
| IsAllowed (now : Z) (clientId : jsstring)
| FullCleanup (now : Z).

Definition time_of (o : op) : Z :=
  match o with IsAllowed now _ => now | FullCleanup now => now end.

(** The answers to the [isAllowed] calls of a sequence, in order, and the
    limiter at the end. *)
Fixpoint run (ops : list op) (rl : RateLimiter) : list bool * RateLimiter :=
  match ops with
  | [] => ([], rl)
  | IsAllowed now clientId :: rest =>
      let '(answer, rl1) := isAllowed now clientId rl in
      let '(answers, rl2) := run rest rl1 in
      (answer :: answers, rl2)
  | FullCleanup now :: rest => run rest (fullCleanup now rl)
  end.

(** A limiter that never cleans up: it keeps the log of every request it
    allowed, and allows a request while fewer than [maxRequests] logged
    requests of the client are younger than [windowMs]. *)
Definition logged_in_window (w now : Z) (clientId : jsstring)
    (log : list (jsstring * Z)) : list (jsstring * Z) :=
  List.filter (fun e => bool_decide (fst e = clientId) && in_window w now (snd e)) log.

Fixpoint log_answers (w maxRequests : Z) (ops : list op) (log : list (jsstring * Z))
  : list bool * list (jsstring * Z) :=
  match ops with
  | [] => ([], log)
  | IsAllowed now clientId :: rest =>
      if (maxRequests <=? Z.of_nat (length (logged_in_window w now clientId log)))%Z
      then let '(answers, log') := log_answers w maxRequests rest log in
           (false :: answers, log')
      else let '(answers, log') :=
             log_answers w maxRequests rest (log ++ [(clientId, now)]) in
           (true :: answers, log')
  | FullCleanup _ :: rest => log_answers w maxRequests rest log
  end.

(** The times of the requests of [clientId] in a log. *)
Definition times_of (clientId : jsstring) (log : list (jsstring * Z)) : list Z :=
  snd <$> List.filter (fun e => bool_decide (fst e = clientId)) log.

(** The request times the limiter holds for a client
    ([this.requests.get(clientId) || []]). *)
Definition stored (clientId : jsstring) (rl : RateLimiter) : list Z :=
  default [] (map_get clientId (requests rl)).

(** The limiter holds, for every client, the same requests within the
    window as the log, at every time from [T] on. *)
Definition agrees (T : Z) (rl : RateLimiter) (log : list (jsstring * Z)) : Prop :=
  NoDup (requests rl).*1 /\
  forall (c : jsstring) (now : Z), (T <= now)%Z ->
    List.filter (in_window (windowMs rl) now) (stored c rl)
    = List.filter (in_window (windowMs rl) now) (times_of c log).

(** The times of the requests of [clientId] that were allowed, given the
    answers to the [isAllowed] calls of a sequence. *)
Fixpoint allowed (clientId : jsstring) (ops : list op) (answers : list bool)
  : list Z :=
  match ops, answers with
  | IsAllowed now k :: rest, answer :: answers' =>
      (if answer && bool_decide (k = clientId) then [now] else [])
        ++ allowed clientId rest answers'
  | FullCleanup _ :: rest, _ => allowed clientId rest answers
  | _, _ => []
  end.

Definition nondecreasing (l : list Z) : Prop :=
  forall (i j : nat) (ti tj : Z),
    i <= j -> l !! i = Some ti -> l !! j = Some tj -> (ti <= tj)%Z.

(** Any two elements [n] places apart are at least [w] apart. *)
Definition spaced (w : Z) (n : nat) (l : list Z) : Prop :=
  forall (i : nat) (t t' : Z),
    l !! i = Some t -> l !! (i + n) = Some t' -> (w <= t' - t)%Z.

End RateLimit.

(* ===================================================================== *)
(** ** Decoding a chunk ([new TextDecoder().decode(chunk)]) *)
(* ===================================================================== *)

Module TextDecoder.

(** The platform's UTF-8 decoder (Encoding Standard), which a
    [TextDecoder] runs in replacement mode.  Between two characters it
    is at [Start]; inside one it holds the code point read so far, the
    number of continuation bytes still to come and the range the next
    byte has to lie in. *)
Inductive utf8_state : Type :=
| Start
| Pending (code_point : N) (remaining : nat) (lower upper : N).

(** U+FFFD, put out for every error. *)
Definition replacement : N := 65533.

(** A byte read at [Start]. *)
Definition lead (byte : N) : list N * utf8_state :=
  if (byte <=? 127)%N then ([byte], Start)
  else if ((194 <=? byte) && (byte <=? 223))%N
  then ([], Pending (N.land byte 31) 1 128 191)
  else if ((224 <=? byte) && (byte <=? 239))%N
  then ([], Pending (N.land byte 15) 2
              (if (byte =? 224)%N then 160 else 128)
              (if (byte =? 237)%N then 159 else 191))
  else if ((240 <=? byte) && (byte <=? 244))%N
  then ([], Pending (N.land byte 7) 3
              (if (byte =? 240)%N then 144 else 128)
              (if (byte =? 244)%N then 143 else 191))
  else ([replacement], Start).

(** One byte: the code points put out and the next state.  A byte out
    of range inside a character is an error, and is then read again as
    the start of the next character. *)
Definition handler (st : utf8_state) (byte : N) : list N * utf8_state :=
  match st with
  | Start => lead byte
  | Pending code_point remaining lower upper =>
      if ((lower <=? byte) && (byte <=? upper))%N then
        let code_point' := N.lor (N.shiftl code_point 6) (N.land byte 63) in
        match remaining with
        | S (S r) => ([], Pending code_point' (S r) 128 191)
        | _ => ([code_point'], Start)
        end
      else let '(out, st') := lead byte in (replacement :: out, st')
  end.

(** The end of the chunk ([decode] is called without [stream]): a
    character left unfinished is an error. *)
Definition end_of_queue (st : utf8_state) : list N :=
  match st with
  | Start => []
  | Pending _ _ _ _ => [replacement]
  end.

Fixpoint code_points (st : utf8_state) (bytes : list N) : list N :=
  match bytes with
  | [] => end_of_queue st
  | byte :: rest =>
      let '(out, st') := handler st byte in out ++ code_points st' rest
  end.

(** A code point as UTF-16 code units. *)
Definition utf16 (cp : N) : jsstring :=
  if (cp <? 65536)%N then [cp]
  else [(55296 + N.shiftr (cp - 65536) 10)%N; (56320 + N.land (cp - 65536) 1023)%N].

(** [ignoreBOM] is false by default: a byte-order mark U+FEFF that comes
    first is left out. *)
Definition drop_BOM (cps : list N) : list N :=
  match cps with
  | cp :: rest => if (cp =? 65279)%N then rest else cps
  | [] => []
  end.

(** [new TextDecoder().decode(chunk)] on the bytes of [chunk]. *)
Definition decode (chunk : list N) : jsstring :=
  flat_map utf16 (drop_BOM (code_points Start chunk)).

(** The chunk starts with the bytes EF BB BF of a byte-order mark. *)
Definition has_BOM (chunk : list N) : bool :=
  match chunk with
  | x :: y :: z :: _ => ((x =? 239) && (y =? 187) && (z =? 191))%N
  | _ => false
  end.

(** A state the decoder can be in: a continuation byte is 128 or more. *)
Definition reachable (st : utf8_state) : Prop :=
  match st with
  | Start => True
  | Pending _ _ lower _ => (128 <= lower)%N
  end.

End TextDecoder.

(** [transform(chunk, controller)] on the bytes of a chunk: the chunk is
    decoded by a decoder of its own. *)
Definition transform_chunk (J : JSON) (chunk : list N) : list jsstring :=
  transform J (TextDecoder.decode chunk).

(* ===================================================================== *)
(** * Properties *)
(* ===================================================================== *)

(** ** Strings *)

Lemma startsWith_app (pat r : jsstring) : startsWith (pat ++ r) pat = true.
Proof.
  induction pat as [|p pat IH]; simpl; [reflexivity|].
  rewrite N.eqb_refl. exact IH.
Qed.

Lemma startsWith_spec (s pat : jsstring) :
  startsWith s pat = true <-> exists r, s = pat ++ r.
Proof.
  split.
  - revert s. induction pat as [|p pat IH]; intros s H.
    + exists s. reflexivity.
    + destruct s as [|c s]; simpl in H; [discriminate|].
      apply andb_true_iff in H as [Hc Hs].
      apply N.eqb_eq in Hc. subst c.
      destruct (IH _ Hs) as [r ->]. exists r. reflexivity.
  - intros [r ->]. apply startsWith_app.
Qed.

Lemma startsWith_includes (s pat : jsstring) :
  startsWith s pat = true -> includes s pat = true.
Proof. intros H. destruct s; simpl; rewrite H; reflexivity. Qed.

Lemma includes_spec (s pat : jsstring) :
  includes s pat = true <-> exists a b, s = a ++ pat ++ b.
Proof.
  split.
  - induction s as [|c s IH]; simpl; intros H.
    + rewrite orb_false_r in H. apply startsWith_spec in H as [r Hr].
      exists [], r. exact Hr.
    + apply orb_true_iff in H as [H|H].
      * apply startsWith_spec in H as [r Hr]. exists [], r. exact Hr.
      * destruct (IH H) as (a & b & ->). exists (c :: a), b. reflexivity.
  - intros (a & b & ->). induction a as [|c a IH].
    + cbn [app]. apply startsWith_includes, startsWith_app.
    + cbn [app includes]. rewrite IH. apply orb_true_r.
Qed.

Lemma includes_false_startsWith (s pat : jsstring) :
  includes s pat = false -> startsWith s pat = false.
Proof.
  destruct s; simpl; intros H; apply orb_false_iff in H as [H _]; exact H.
Qed.

Lemma includes_false_tail (c : code_unit) (s pat : jsstring) :
  includes (c :: s) pat = false -> includes s pat = false.
Proof. simpl. intros H. apply orb_false_iff in H as [_ H]. exact H. Qed.

(** Removing a pattern found at the very start leaves the rest. *)
Lemma replace_prefix (pat x : jsstring) : replace (pat ++ x) pat [] = x.
Proof.
  assert (H : forall s, startsWith s pat = true ->
                      replace s pat [] = drop (length pat) s).
  { intros s Hs. destruct s; cbn [replace]; rewrite Hs; reflexivity. }
  rewrite H by apply startsWith_app.
  apply drop_app_length.
Qed.

(** Without an occurrence, [replace] changes nothing. *)
Lemma replace_absent (s pat repl : jsstring) :
  includes s pat = false -> replace s pat repl = s.
Proof.
  induction s as [|c s IH]; intros H.
  - simpl in *. rewrite orb_false_r in H. rewrite H. reflexivity.
  - pose proof (includes_false_startsWith _ _ H) as Hs.
    cbn [replace]. rewrite Hs. f_equal.
    apply IH. eapply includes_false_tail, H.
Qed.

(** ** The completion detector *)

Lemma FINISHED_TOKEN_nonempty : includes [] FINISHED_TOKEN = false.
Proof. reflexivity. Qed.

(** C6. [isResponseComplete] answers COMPLETE exactly when the response
    has a candidate 0 whose text parts, concatenated in part order,
    contain the finished marker; a response without candidates, without
    content or without parts is INCOMPLETE.  The function is total: it
    never throws. *)
Theorem isResponseComplete_iff (R : GeminiResponse) :
  (isResponseComplete R = true <->
     exists candidate others c ps,
       candidates R = Some (candidate :: others) /\
       content candidate = Some c /\
       parts c = Some ps /\
       exists a b, join (map text_or_empty ps) = a ++ FINISHED_TOKEN ++ b)
  /\ (candidates R = None -> isResponseComplete R = false)
  /\ (candidates R = Some [] -> isResponseComplete R = false)
  /\ (forall candidate others, candidates R = Some (candidate :: others) ->
        content candidate = None -> isResponseComplete R = false)
  /\ (forall candidate others c, candidates R = Some (candidate :: others) ->
        content candidate = Some c -> parts c = None ->
        isResponseComplete R = false).
Proof.
  unfold isResponseComplete.
  repeat split.
  - destruct (candidates R) as [[|candidate others]|]; try discriminate.
    destruct (content candidate) as [c|] eqn:Ec; try discriminate.
    destruct (parts c) as [ps|] eqn:Ep; try discriminate.
    intros H. apply includes_spec in H.
    exists candidate, others, c, ps. auto.
  - intros (candidate & others & c & ps & -> & -> & -> & H).
    apply includes_spec. exact H.
  - intros ->. reflexivity.
  - intros ->. reflexivity.
  - intros candidate others -> ->. reflexivity.
  - intros candidate others c -> -> ->. reflexivity.
Qed.

(** ** The response combiner *)

Lemma text_or_empty_text (s : jsstring) (fc fr : option value) :
  text_or_empty {| text := Some s; functionCall := fc; functionResponse := fr |} = s.
Proof. unfold text_or_empty. simpl. destruct s; reflexivity. Qed.

Lemma candidate0_text_inv (r : GeminiResponse) (t : jsstring) :
  candidate0_text r = Normal t ->
  exists candidate others c ps,
    candidates r = Some (candidate :: others) /\
    content candidate = Some c /\ parts c = Some ps /\
    t = join (map text_or_empty ps).
Proof.
  unfold candidate0_text, first_candidate, content_parts.
  destruct (candidates r) as [[|candidate others]|]; simpl;
    try (intros H; discriminate H).
  destruct (content candidate) as [c|] eqn:Ec; simpl;
    try (intros H; discriminate H).
  destruct (parts c) as [ps|] eqn:Ep; simpl; try (intros H; discriminate H).
  intros [= <-]. exists candidate, others, c, ps. auto.
Qed.

(** What [combineResponses] returns once both texts can be read. *)
Lemma combineResponses_returns (incomplete complete : GeminiResponse)
    (ti tc : jsstring) :
  candidate0_text incomplete = Normal ti ->
  candidate0_text complete = Normal tc ->
  exists combined,
    combineResponses incomplete complete = Normal combined /\
    candidate0_text combined = Normal (trim (replace tc ti [])) /\
    usageMetadata combined = usageMetadata complete.
Proof.
  intros Hi Hc. unfold combineResponses. rewrite Hi, Hc. simpl.
  apply candidate0_text_inv in Hc as (candidate & others & c & ps & E1 & E2 & _).
  unfold first_candidate. rewrite E1. simpl. rewrite E2. simpl.
  eexists. split; [reflexivity|]. split; [|reflexivity].
  unfold candidate0_text, first_candidate, content_parts. simpl.
  rewrite text_or_empty_text. unfold join. simpl. rewrite app_nil_r. reflexivity.
Qed.

Lemma content_parts_cases (candidate : Candidate) :
  (exists ps, content_parts candidate = Normal ps) \/
  content_parts candidate = Throw TypeError.
Proof.
  unfold content_parts. destruct (content candidate) as [c|]; [|right; reflexivity].
  destruct (parts c) as [ps|]; [left; eauto|right; reflexivity].
Qed.

(** C5 (amended). For two responses with at least one candidate each.
    When candidate 0 of both has content with parts: if the
    continuation's text is the incomplete text followed by [X] the
    combined text is [X] trimmed; if the continuation's text does not
    contain the incomplete text it is the continuation's text trimmed;
    the usage metadata is the continuation's.  When candidate 0 of one
    of them has no content, or content without parts, the call throws a
    [TypeError] and combines nothing. *)
Theorem combineResponses_spec (incomplete continuation : GeminiResponse)
    (ci cc : Candidate) (others others' : list Candidate) :
  candidates incomplete = Some (ci :: others) ->
  candidates continuation = Some (cc :: others') ->
  (forall psi psc,
      content_parts ci = Normal psi ->
      content_parts cc = Normal psc ->
      exists combined,
        combineResponses incomplete continuation = Normal combined /\
        (forall X, join (map text_or_empty psc) = join (map text_or_empty psi) ++ X ->
                   candidate0_text combined = Normal (trim X)) /\
        (includes (join (map text_or_empty psc)) (join (map text_or_empty psi)) = false ->
         candidate0_text combined = Normal (trim (join (map text_or_empty psc)))) /\
        usageMetadata combined = usageMetadata continuation) /\
  (content_parts ci = Throw TypeError \/ content_parts cc = Throw TypeError ->
   combineResponses incomplete continuation = Throw TypeError).
Proof.
  intros Hi Hc.
  assert (Ti : candidate0_text incomplete
                = (let! ps := content_parts ci in
                   Normal (join (map text_or_empty ps)))).
  { unfold candidate0_text, first_candidate. rewrite Hi. reflexivity. }
  assert (Tc : candidate0_text continuation
                = (let! ps := content_parts cc in
                   Normal (join (map text_or_empty ps)))).
  { unfold candidate0_text, first_candidate. rewrite Hc. reflexivity. }
  split.
  - intros psi psc Ei Ec. rewrite Ei in Ti. rewrite Ec in Tc. cbn [and_then] in Ti, Tc.
    destruct (combineResponses_returns _ _ _ _ Ti Tc) as (combined & E & Ht & Hu).
    exists combined. repeat split; auto.
    + intros X HX. rewrite Ht, HX, replace_prefix. reflexivity.
    + intros Habs. rewrite Ht, replace_absent by exact Habs. reflexivity.
  - intros H. unfold combineResponses. rewrite Ti, Tc.
    destruct (content_parts_cases ci) as [[psi Ei]|Ei]; rewrite Ei; cbn [and_then];
      [|reflexivity].
    destruct H as [H|H]; [congruence|]. rewrite H. reflexivity.
Qed.

(** C5 as stated fails for a continuation that has a candidate without
    content: both responses have one candidate, and the call throws. *)
Lemma combineResponses_needs_content :
  length (default [] (candidates Samples.cut_off)) = 1 /\
  length (default [] (candidates Samples.no_content)) = 1 /\
  combineResponses Samples.cut_off Samples.no_content = Throw TypeError.
Proof. repeat split. Qed.

(** ** The resilient upstream client *)

Lemma retryable_not_ok (response : UpstreamResponse) :
  retryable (status response) = true -> ok response = false.
Proof.
  unfold retryable, ok, RETRYABLE_STATUS_CODES. simpl. intros H.
  repeat (apply orb_true_iff in H as [H|H]); try discriminate;
    apply Z.eqb_eq in H; rewrite H; reflexivity.
Qed.

Section Client.
Variable w : World.
Variables (request : GeminiRequest) (model searchParams : jsstring).
Variable isStreaming : bool.
Hypothesis key : api_key_set w.

Let url := request_url model searchParams isStreaming.
Let call := makeGeminiRequestWithRetry w request model searchParams isStreaming.

(** A failed attempt below the maximum is followed by the backoff sleep
    and the next attempt, whichever way it failed. *)
Lemma failed_attempt_retries (retryCount : nat) (st : state) :
  attempt_fails (upstream w (fetches st)) ->
  retryCount < MAX_FETCH_RETRIES ->
  call retryCount st =
  call (S retryCount) (sleep (backoffDelay retryCount) (snd (fetch w url request st))).
Proof.
  intros Hfail Hlt. subst call url.
  rewrite makeGeminiRequestWithRetry_equation_1.
  destruct key as (apiKey & -> & ->). cbn [negb].
  cbv zeta. unfold fetch at 1. cbn [snd].
  destruct (upstream w (fetches st)) as [e|response]; simpl in Hfail.
  - destruct (lt_dec retryCount MAX_FETCH_RETRIES); [reflexivity|contradiction].
  - rewrite Hfail. cbn [negb].
    destruct (retryable (status response));
      destruct (lt_dec retryCount MAX_FETCH_RETRIES); try contradiction; reflexivity.
Qed.

(** A failed attempt at the maximum ends the call with its failure. *)
Lemma failed_attempt_fatal (retryCount : nat) (st : state) :
  attempt_fails (upstream w (fetches st)) ->
  MAX_FETCH_RETRIES <= retryCount ->
  call retryCount st =
  (Throw (failure_of (upstream w (fetches st))), snd (fetch w url request st)).
Proof.
  intros Hfail Hge. subst call url.
  rewrite makeGeminiRequestWithRetry_equation_1.
  destruct key as (apiKey & -> & ->). cbn [negb].
  cbv zeta. unfold fetch at 1. cbn [snd].
  destruct (upstream w (fetches st)) as [e|response]; simpl in Hfail.
  - destruct (lt_dec retryCount MAX_FETCH_RETRIES); [lia|reflexivity].
  - rewrite Hfail. cbn [negb].
    destruct (retryable (status response));
      destruct (lt_dec retryCount MAX_FETCH_RETRIES); try lia; reflexivity.
Qed.

(** When every attempt fails, the call makes four of them, sleeping
    1000, 2000 and 4000 ms in between, and ends with the failure of the
    fourth. *)
Lemma all_attempts_fail :
  (forall n, attempt_fails (upstream w n)) ->
  call 0 initial =
  (Throw (failure_of (upstream w 3)),
   {| fetches := 4; trace := four_attempts url request |}).
Proof.
  intros Hall.
  rewrite failed_attempt_retries by (auto; unfold MAX_FETCH_RETRIES; lia).
  rewrite failed_attempt_retries by (auto; unfold MAX_FETCH_RETRIES; lia).
  rewrite failed_attempt_retries by (auto; unfold MAX_FETCH_RETRIES; lia).
  rewrite failed_attempt_fatal by (auto; unfold MAX_FETCH_RETRIES; lia).
  reflexivity.
Qed.

(** An attempt that succeeds ends the call with the response. *)
Lemma successful_attempt (retryCount : nat) (st : state) (response : UpstreamResponse) :
  upstream w (fetches st) = Resolved response ->
  ok response = true ->
  call retryCount st = (Normal response, snd (fetch w url request st)).
Proof.
  intros Hup Hok. subst call url.
  rewrite makeGeminiRequestWithRetry_equation_1.
  destruct key as (apiKey & -> & ->). cbn [negb].
  cbv zeta. unfold fetch at 1. cbn [snd]. rewrite Hup, Hok. reflexivity.
Qed.

End Client.

(** C1. With [MAX_FETCH_RETRIES] = 3 and an API key configured: when
    every upstream attempt answers with a status of the retryable set,
    the client makes exactly four attempts (the first and three retries,
    after sleeping 1000, 2000 and 4000 ms) and then fails with the
    upstream error of the last status. *)
Theorem retry_bound (w : World) (request : GeminiRequest)
    (model searchParams : jsstring) (isStreaming : bool) :
  api_key_set w ->
  (forall n, exists response,
      upstream w n = Resolved response /\ retryable (status response) = true) ->
  exists last,
    upstream w 3 = Resolved last /\
    makeGeminiRequestWithRetry w request model searchParams isStreaming 0 initial =
    (Throw (UpstreamStatus (status last) (statusText last)),
     {| fetches := 4;
        trace := four_attempts (request_url model searchParams isStreaming) request |}).
Proof.
  intros key Hall.
  destruct (Hall 3) as (last & Hlast & _).
  exists last. split; [exact Hlast|].
  rewrite all_attempts_fail; [rewrite Hlast; reflexivity|exact key|].
  intros n. destruct (Hall n) as (response & -> & Hr).
  simpl. apply retryable_not_ok, Hr.
Qed.

Lemma retry_bound_witness :
  exists last,
    upstream (Samples.always Samples.unavailable) 3 = Resolved last /\
    makeGeminiRequestWithRetry (Samples.always Samples.unavailable)
      Samples.plain_request Samples.model [] false 0 initial =
    (Throw (UpstreamStatus (status last) (statusText last)),
     {| fetches := 4;
        trace := four_attempts (request_url Samples.model [] false)
                   Samples.plain_request |}).
Proof.
  apply (retry_bound (Samples.always Samples.unavailable)).
  - exists (lit "key"). split; reflexivity.
  - intros n. exists Samples.unavailable. split; reflexivity.
Defined.

(** C9. A response whose status is neither a success nor in the
    retryable set (500, say) does not end the call: the [Error] thrown
    for it lands in the client's own [catch], which, below the retry
    maximum, sleeps the backoff delay and calls again, and at the maximum
    rethrows it; when every attempt gets such a status the client makes
    all four attempts before it fails. *)
Theorem non_retryable_status_is_retried (w : World) (request : GeminiRequest)
    (model searchParams : jsstring) (isStreaming : bool)
    (retryCount : nat) (st : state) (response : UpstreamResponse) :
  api_key_set w ->
  upstream w (fetches st) = Resolved response ->
  ok response = false ->
  retryable (status response) = false ->
  let url := request_url model searchParams isStreaming in
  let call := makeGeminiRequestWithRetry w request model searchParams isStreaming in
  (retryCount < MAX_FETCH_RETRIES ->
   call retryCount st =
   call (S retryCount) (sleep (backoffDelay retryCount) (snd (fetch w url request st))))
  /\ (MAX_FETCH_RETRIES <= retryCount ->
      call retryCount st =
      (Throw (UpstreamStatus (status response) (statusText response)),
       snd (fetch w url request st)))
  /\ ((forall n, exists r,
         upstream w n = Resolved r /\ ok r = false /\ retryable (status r) = false) ->
      exists last,
        upstream w 3 = Resolved last /\
        call 0 initial =
        (Throw (UpstreamStatus (status last) (statusText last)),
         {| fetches := 4; trace := four_attempts url request |})).
Proof.
  intros key Hup Hok _ url call.
  assert (Hfail : attempt_fails (upstream w (fetches st))).
  { rewrite Hup. exact Hok. }
  split; [|split].
  - intros Hlt. apply failed_attempt_retries; assumption.
  - intros Hge. subst call url.
    rewrite failed_attempt_fatal by assumption. rewrite Hup. reflexivity.
  - intros Hall. destruct (Hall 3) as (last & Hlast & _).
    exists last. split; [exact Hlast|]. subst call url.
    rewrite all_attempts_fail; [rewrite Hlast; reflexivity|exact key|].
    intros n. destruct (Hall n) as (r & -> & Hr & _). exact Hr.
Qed.

Lemma non_retryable_status_is_retried_witness :
  makeGeminiRequestWithRetry (Samples.always Samples.server_error)
    Samples.plain_request Samples.model [] false 0 initial =
  makeGeminiRequestWithRetry (Samples.always Samples.server_error)
    Samples.plain_request Samples.model [] false 1
    (sleep (backoffDelay 0)
       (snd (fetch (Samples.always Samples.server_error)
               (request_url Samples.model [] false) Samples.plain_request initial))).
Proof.
  refine (proj1 (non_retryable_status_is_retried (Samples.always Samples.server_error)
                   Samples.plain_request Samples.model [] false 0 initial
                   Samples.server_error _ eq_refl eq_refl eq_refl) _).
  - exists (lit "key"). split; reflexivity.
  - unfold MAX_FETCH_RETRIES. lia.
Defined.

Lemma combineResponses_spec_witness :
  exists combined,
    combineResponses (Samples.text_response (lit "Hello wor"))
                     (Samples.text_response (lit "Hello world! ")) = Normal combined /\
    (forall X, lit "Hello world! " = lit "Hello wor" ++ X ->
               candidate0_text combined = Normal (trim X)) /\
    (includes (lit "Hello world! ") (lit "Hello wor") = false ->
       candidate0_text combined = Normal (trim (lit "Hello world! "))) /\
    usageMetadata combined = usageMetadata (Samples.text_response (lit "Hello world! ")).
Proof.
  refine (proj1 (combineResponses_spec
                   (Samples.text_response (lit "Hello wor"))
                   (Samples.text_response (lit "Hello world! "))
                   _ _ [] [] eq_refl eq_refl) _ _ eq_refl eq_refl).
Defined.

(** ** The prompt augmenter *)

Section Augmenter.
Import Heap.

Lemma alloc_new (o : object) (h h1 : heap) (m : loc) :
  alloc o h = (m, h1) -> h !! m = None /\ h1 !! m = Some o.
Proof.
  unfold alloc. intros [= <- <-]. split.
  - apply not_elem_of_dom, is_fresh.
  - apply lookup_insert_eq.
Qed.

Lemma alloc_keeps (o o' : object) (h h1 : heap) (m l : loc) :
  alloc o h = (m, h1) -> h !! l = Some o' -> h1 !! l = Some o'.
Proof.
  intros A H. destruct (alloc_new _ _ _ _ A) as [F _].
  unfold alloc in A. injection A as <- <-.
  rewrite lookup_insert_ne; [exact H|]. intros E. rewrite E in F. congruence.
Qed.

Lemma alloc_lookup_inv (o o' : object) (h h1 : heap) (m l : loc) :
  alloc o h = (m, h1) -> h1 !! l = Some o' ->
  (l = m /\ o' = o) \/ (l <> m /\ h !! l = Some o').
Proof.
  unfold alloc. intros [= <- <-] H.
  destruct (decide (fresh (dom h) = l)) as [<-|Hne].
  - rewrite lookup_insert_eq in H. left. split; congruence.
  - rewrite lookup_insert_ne in H by exact Hne. right. split; congruence.
Qed.

Lemma get_request_alloc h h1 m o l r :
  alloc o h = (m, h1) -> get_request h l = Some r -> get_request h1 l = Some r.
Proof.
  intros A. unfold get_request.
  destruct (h !! l) as [[]|] eqn:E; try discriminate.
  intros [= <-]. rewrite (alloc_keeps _ _ _ _ _ _ A E). reflexivity.
Qed.

Lemma get_content_alloc h h1 m o l c :
  alloc o h = (m, h1) -> get_content h l = Some c -> get_content h1 l = Some c.
Proof.
  intros A. unfold get_content.
  destruct (h !! l) as [[]|] eqn:E; try discriminate.
  intros [= <-]. rewrite (alloc_keeps _ _ _ _ _ _ A E). reflexivity.
Qed.

Lemma get_array_alloc h h1 m o l elems :
  alloc o h = (m, h1) -> get_array h l = Some elems -> get_array h1 l = Some elems.
Proof.
  intros A. unfold get_array.
  destruct (h !! l) as [[]|] eqn:E; try discriminate.
  intros [= <-]. rewrite (alloc_keeps _ _ _ _ _ _ A E). reflexivity.
Qed.

Lemma get_part_alloc h h1 m o l p :
  alloc o h = (m, h1) -> get_part h l = Some p -> get_part h1 l = Some p.
Proof.
  intros A. unfold get_part.
  destruct (h !! l) as [[]|] eqn:E; try discriminate.
  intros [= <-]. rewrite (alloc_keeps _ _ _ _ _ _ A E). reflexivity.
Qed.

(** Reading an object other than a request out of the heap after the
    spread copy finds what was there before. *)
Lemma get_content_alloc_request_inv h h1 m r l c :
  alloc (ORequest r) h = (m, h1) ->
  get_content h1 l = Some c -> get_content h l = Some c.
Proof.
  intros A. unfold get_content.
  destruct (h1 !! l) as [o|] eqn:E; [|discriminate].
  destruct (alloc_lookup_inv _ _ _ _ _ _ A E) as [[_ ->]|[_ ->]];
    [discriminate|auto].
Qed.

Lemma get_array_alloc_request_inv h h1 m r l elems :
  alloc (ORequest r) h = (m, h1) ->
  get_array h1 l = Some elems -> get_array h l = Some elems.
Proof.
  intros A. unfold get_array.
  destruct (h1 !! l) as [o|] eqn:E; [|discriminate].
  destruct (alloc_lookup_inv _ _ _ _ _ _ A E) as [[_ ->]|[_ ->]];
    [discriminate|auto].
Qed.

End Augmenter.

(** C10. The augmenter returns only for a request without a system
    instruction or with one that has at least one part: when the system
    instruction is there and its [parts] is absent or empty the call
    throws a [TypeError]; a call that returns had no system instruction
    or found a first part; and without a system instruction the call
    always returns. *)
Theorem augmenter_total_only_when (h : Heap.heap) (request : Heap.loc)
    (r : Heap.RequestObj) :
  Heap.get_request h request = Some r ->
  (forall si c,
      Heap.systemInstruction r = Some si -> Heap.get_content h si = Some c ->
      (Heap.parts c = None \/
       exists arr, Heap.parts c = Some arr /\ Heap.get_array h arr = Some []) ->
      exists h', Heap.addAntiTruncationPrompt h request = Some (Throw TypeError, h'))
  /\ (forall m h',
      Heap.addAntiTruncationPrompt h request = Some (Normal m, h') ->
      Heap.systemInstruction r = None \/
      exists si c arr part0 rest,
        Heap.systemInstruction r = Some si /\ Heap.get_content h si = Some c /\
        Heap.parts c = Some arr /\ Heap.get_array h arr = Some (part0 :: rest))
  /\ (Heap.systemInstruction r = None ->
      exists m h', Heap.addAntiTruncationPrompt h request = Some (Normal m, h')).
Proof.
  intros Hr. unfold Heap.addAntiTruncationPrompt. rewrite Hr.
  cbn [mbind option_bind].
  destruct (Heap.alloc (Heap.ORequest r) h) as [m1 h1] eqn:A.
  repeat split.
  - intros si c Hsi Hc Hparts. rewrite Hsi.
    rewrite (get_content_alloc _ _ _ _ _ _ A Hc). cbn [mbind option_bind].
    destruct Hparts as [->|(arr & -> & Harr)].
    + eexists. reflexivity.
    + rewrite (get_array_alloc _ _ _ _ _ _ A Harr). eexists. reflexivity.
  - intros m h'. destruct (Heap.systemInstruction r) as [si|]; [|auto].
    destruct (Heap.get_content h1 si) as [c|] eqn:Ec; [|discriminate].
    cbn [mbind option_bind].
    destruct (Heap.parts c) as [arr|] eqn:Ep; [|discriminate].
    destruct (Heap.get_array h1 arr) as [[|part0 rest]|] eqn:Ea;
      try discriminate.
    intros _. right. exists si, c, arr, part0, rest.
    apply (get_content_alloc_request_inv _ _ _ _ _ _ A) in Ec.
    apply (get_array_alloc_request_inv _ _ _ _ _ _ A) in Ea. auto.
  - intros ->.
    repeat match goal with
           | |- context [Heap.alloc ?o ?x] => destruct (Heap.alloc o x)
           end.
    eexists _, _. reflexivity.
Qed.

Lemma augmenter_total_only_when_witness :
  exists h',
    Heap.addAntiTruncationPrompt Samples.instructed_without_parts 1%positive
    = Some (Throw TypeError, h').
Proof.
  refine (proj1 (augmenter_total_only_when Samples.instructed_without_parts
                   1%positive _ eq_refl) 2%positive _ eq_refl eq_refl _).
  right. exists 3%positive. split; reflexivity.
Defined.

Section AugmenterInPlace.
Import Heap.

Lemma insert_part_get_request (h : heap) (l l' : loc) (p0 p : PartObj) :
  h !! l = Some (OPart p0) ->
  get_request (<[l := OPart p]> h) l' = get_request h l'.
Proof.
  intros H. unfold get_request.
  destruct (decide (l = l')) as [<-|Hne].
  - rewrite lookup_insert_eq, H. reflexivity.
  - rewrite lookup_insert_ne by exact Hne. reflexivity.
Qed.

Lemma insert_part_get_content (h : heap) (l l' : loc) (p0 p : PartObj) :
  h !! l = Some (OPart p0) ->
  get_content (<[l := OPart p]> h) l' = get_content h l'.
Proof.
  intros H. unfold get_content.
  destruct (decide (l = l')) as [<-|Hne].
  - rewrite lookup_insert_eq, H. reflexivity.
  - rewrite lookup_insert_ne by exact Hne. reflexivity.
Qed.

Lemma insert_part_get_array (h : heap) (l l' : loc) (p0 p : PartObj) :
  h !! l = Some (OPart p0) ->
  get_array (<[l := OPart p]> h) l' = get_array h l'.
Proof.
  intros H. unfold get_array.
  destruct (decide (l = l')) as [<-|Hne].
  - rewrite lookup_insert_eq, H. reflexivity.
  - rewrite lookup_insert_ne by exact Hne. reflexivity.
Qed.

Lemma get_part_lookup (h : heap) (l : loc) (p : PartObj) :
  get_part h l = Some p -> h !! l = Some (OPart p).
Proof.
  unfold get_part. destruct (h !! l) as [[]|]; try discriminate.
  intros [= ->]. reflexivity.
Qed.

(** With a system instruction that has a first part, the call returns a
    new request object that shares the instruction with the caller's
    request; the text is appended in the shared part, so the caller's
    request reads the appended text as well. *)
Lemma augmenter_appends_in_place (h : heap) (request si arr part0 : loc)
    (rest : list loc) (r : RequestObj) (c : ContentObj) (p : PartObj) :
  get_request h request = Some r ->
  systemInstruction r = Some si ->
  get_content h si = Some c ->
  parts c = Some arr ->
  get_array h arr = Some (part0 :: rest) ->
  get_part h part0 = Some p ->
  let appended := or_empty (text p) ++ newline ++ newline ++ FINISH_TOKEN_PROMPT in
  exists m h',
    addAntiTruncationPrompt h request = Some (Normal m, h') /\
    h !! m = None /\
    get_request h' m = Some r /\
    system_text h request = text p /\
    system_text h' m = Some appended /\
    system_text h' request = Some appended.
Proof.
  intros Hr Hsi Hc Hp Ha Hp0 appended.
  unfold addAntiTruncationPrompt. rewrite Hr. cbn [mbind option_bind].
  destruct (alloc (ORequest r) h) as [m h1] eqn:A.
  destruct (alloc_new _ _ _ _ A) as [Hfresh Hm].
  pose proof (get_request_alloc _ _ _ _ _ _ A Hr) as Hr1.
  pose proof (get_content_alloc _ _ _ _ _ _ A Hc) as Hc1.
  pose proof (get_array_alloc _ _ _ _ _ _ A Ha) as Ha1.
  pose proof (get_part_alloc _ _ _ _ _ _ A Hp0) as Hp1.
  pose proof (get_part_lookup _ _ _ Hp1) as Hl1.
  assert (Hm1 : get_request h1 m = Some r).
  { unfold get_request. rewrite Hm. reflexivity. }
  rewrite Hsi, Hc1. cbn [mbind option_bind]. rewrite Hp, Ha1.
  cbn [mbind option_bind]. rewrite Hp1. cbn [mbind option_bind].
  eexists _, _. split; [reflexivity|].
  assert (Hread : forall l, get_request h1 l = Some r ->
            system_text (<[part0 := OPart (set_text p appended)]> h1) l
            = Some appended).
  { intros l Hl. unfold system_text.
    rewrite (insert_part_get_request _ _ _ _ _ Hl1), Hl. cbn [mbind option_bind].
    rewrite Hsi. cbn [mbind option_bind].
    rewrite (insert_part_get_content _ _ _ _ _ Hl1), Hc1. cbn [mbind option_bind].
    rewrite Hp. cbn [mbind option_bind].
    rewrite (insert_part_get_array _ _ _ _ _ Hl1), Ha1. cbn [mbind option_bind head].
    unfold get_part. rewrite lookup_insert_eq. reflexivity. }
  repeat split.
  - exact Hfresh.
  - rewrite (insert_part_get_request _ _ _ _ _ Hl1). exact Hm1.
  - unfold system_text. rewrite Hr. cbn [mbind option_bind].
    rewrite Hsi. cbn [mbind option_bind]. rewrite Hc. cbn [mbind option_bind].
    rewrite Hp. cbn [mbind option_bind]. rewrite Ha. cbn [mbind option_bind head].
    rewrite Hp0. reflexivity.
  - apply Hread, Hm1.
  - apply Hread, Hr1.
Qed.

(** Without a system instruction the call only adds objects: every
    object of the caller's heap is left as it was. *)
Lemma augmenter_fresh_instruction (h : heap) (request : loc) (r : RequestObj) :
  get_request h request = Some r ->
  systemInstruction r = None ->
  exists m h',
    addAntiTruncationPrompt h request = Some (Normal m, h') /\
    h !! m = None /\
    (forall l o, h !! l = Some o -> h' !! l = Some o) /\
    system_text h' m = Some FINISH_TOKEN_PROMPT.
Proof.
  intros Hr Hsi.
  unfold addAntiTruncationPrompt. rewrite Hr. cbn [mbind option_bind].
  destruct (alloc (ORequest r) h) as [m h1] eqn:A1. rewrite Hsi.
  destruct (alloc (OPart _) h1) as [part h2] eqn:A2.
  destruct (alloc (OArray _) h2) as [arr h3] eqn:A3.
  destruct (alloc (OContent _) h3) as [si h4] eqn:A4.
  destruct (alloc_new _ _ _ _ A1) as [F1 N1].
  destruct (alloc_new _ _ _ _ A2) as [F2 N2].
  destruct (alloc_new _ _ _ _ A3) as [F3 N3].
  destruct (alloc_new _ _ _ _ A4) as [F4 N4].
  eexists _, _. split; [reflexivity|]. split; [exact F1|]. split.
  - intros l o Hl.
    rewrite lookup_insert_ne by (intros <-; congruence).
    eapply alloc_keeps; [exact A4|]. eapply alloc_keeps; [exact A3|].
    eapply alloc_keeps; [exact A2|]. eapply alloc_keeps; [exact A1|]. exact Hl.
  - pose proof (alloc_keeps _ _ _ _ _ _ A4 (alloc_keeps _ _ _ _ _ _ A3 N2)) as P4.
    pose proof (alloc_keeps _ _ _ _ _ _ A4 N3) as R4.
    assert (m <> si) by (intros ->;
      pose proof (alloc_keeps _ _ _ _ _ _ A3 (alloc_keeps _ _ _ _ _ _ A2 N1));
      congruence).
    assert (m <> arr) by (intros ->;
      pose proof (alloc_keeps _ _ _ _ _ _ A2 N1); congruence).
    assert (m <> part) by (intros ->; congruence).
    unfold system_text, get_request, get_content, get_array, get_part.
    rewrite lookup_insert_eq. cbn [mbind option_bind systemInstruction set_systemInstruction].
    rewrite lookup_insert_ne, N4 by done. cbn [mbind option_bind parts].
    rewrite lookup_insert_ne, R4 by done. cbn [mbind option_bind head].
    rewrite lookup_insert_ne, P4 by done. reflexivity.
Qed.

End AugmenterInPlace.

(** C2, at the request with the system instruction "Be brief.": the call
    returns a new request object, and the text the returned request reads
    is the caller's text, a blank line and the mandate; but the caller's
    own request, read after the call, shows the appended text too. *)
Theorem augmenter_changes_callers_instruction :
  Heap.system_text Samples.instructed 1%positive = Some (lit "Be brief.") /\
  exists m h',
    Heap.addAntiTruncationPrompt Samples.instructed 1%positive = Some (Normal m, h') /\
    Samples.instructed !! m = None /\
    Heap.system_text h' m =
      Some (lit "Be brief." ++ newline ++ newline ++ FINISH_TOKEN_PROMPT) /\
    Heap.system_text h' 1%positive =
      Some (lit "Be brief." ++ newline ++ newline ++ FINISH_TOKEN_PROMPT).
Proof.
  split; [reflexivity|].
  destruct (augmenter_appends_in_place Samples.instructed
              1%positive 2%positive 3%positive 4%positive [] _ _ _
              eq_refl eq_refl eq_refl eq_refl eq_refl eq_refl)
    as (m & h' & E & F & _ & _ & Hm & Hr).
  exists m, h'. auto.
Qed.

(** ** The non-streaming orchestrator *)

Section Continuation.
Variable w : World.
Variables (incompleteResponse : GeminiResponse) (originalRequest : GeminiRequest).
Variables (model searchParams : jsstring).

Let handle := handleIncompleteResponse w incompleteResponse originalRequest
                model searchParams.

(** A throw of the continuation builder leaves the handler as it is. *)
Lemma continuation_build_failure (e : exn) (st : state) :
  createRetryRequest incompleteResponse originalRequest = Throw e ->
  handle st = (Throw e, st).
Proof. intros H. subst handle. unfold handleIncompleteResponse. rewrite H. reflexivity. Qed.

(** A failure of the upstream call, of [response.json()], of
    [combineResponses] or of the construction of the reply is answered
    with the incomplete response and status 200. *)
Lemma continuation_failure_falls_back (retryRequest : GeminiRequest)
    (sent : result UpstreamResponse) (st st1 : state) :
  createRetryRequest incompleteResponse originalRequest = Normal retryRequest ->
  makeGeminiRequestWithRetry w retryRequest model searchParams false 0 st = (sent, st1) ->
  returned (let! response := sent in
            let! geminiResponse := json response in
            let! combinedResponse :=
              combineResponses incompleteResponse geminiResponse in
            new_Response combinedResponse (status response)) = false ->
  handle st = (Normal {| reply_status := 200;
                         reply_body := JsonBody incompleteResponse |}, st1).
Proof.
  intros Hb Hs Hf. subst handle. unfold handleIncompleteResponse.
  rewrite Hb, Hs.
  destruct (let! response := sent in _); [discriminate|reflexivity].
Qed.

(** When the continuation succeeds, the reply is what [combineResponses]
    returned, with the status of the continuation. *)
Lemma continuation_success (retryRequest : GeminiRequest)
    (response : UpstreamResponse) (geminiResponse combined : GeminiResponse)
    (st st1 : state) :
  createRetryRequest incompleteResponse originalRequest = Normal retryRequest ->
  makeGeminiRequestWithRetry w retryRequest model searchParams false 0 st
    = (Normal response, st1) ->
  json response = Normal geminiResponse ->
  combineResponses incompleteResponse geminiResponse = Normal combined ->
  null_body_status (status response) = false ->
  ok response = true ->
  handle st = (Normal {| reply_status := status response;
                         reply_body := JsonBody combined |}, st1).
Proof.
  intros Hb Hs Hj Hc Hn Hok. subst handle. unfold handleIncompleteResponse.
  rewrite Hb, Hs. cbn [and_then]. rewrite Hj. cbn [and_then]. rewrite Hc.
  cbn [and_then]. unfold new_Response. rewrite Hn.
  unfold ok in Hok. apply andb_true_iff in Hok as [H1 H2].
  apply Z.leb_le in H1, H2.
  replace ((status response <? 200)%Z) with false by (symmetry; apply Z.ltb_ge; lia).
  replace ((599 <? status response)%Z) with false by (symmetry; apply Z.ltb_ge; lia).
  reflexivity.
Qed.

End Continuation.

(** C4, on the answer cut off after "Hello wor" whose continuation is
    "ld!" followed by the finished marker: the detector finds the first
    answer incomplete, and the non-streaming handler replies with status
    200 and the response [combineResponses] returned, whose text still
    ends with the finished marker. *)
Theorem continuation_reply_keeps_marker :
  isResponseComplete Samples.cut_off = false /\
  exists combined st',
    handleNonStreamingRequest
      (Samples.scripted [Samples.http 200 (lit "OK") (Some Samples.cut_off);
                         Samples.http 200 (lit "OK") (Some Samples.continuation)])
      Samples.uninstructed 1%positive Samples.model [] initial
    = Some (Normal {| reply_status := 200; reply_body := JsonBody combined |}, st') /\
    fetches st' = 2 /\
    combineResponses Samples.cut_off Samples.continuation = Normal combined /\
    candidate0_text combined = Normal (lit "ld![RESPONSE_FINISHED]") /\
    includes (lit "ld![RESPONSE_FINISHED]") FINISHED_TOKEN = true.
Proof.
  split; [reflexivity|].
  eexists _, _. split; [vm_compute; reflexivity|].
  repeat split.
Qed.

(** C7, on a first answer without candidates: the detector finds it
    incomplete, the continuation builder throws a [TypeError] on it, and
    [handleIncompleteResponse] ends with that [TypeError] whatever the
    upstream would have answered: no request is sent and no fallback
    reply is made.  The non-streaming handler, which returns that call
    without awaiting it, ends with the [TypeError] as well. *)
Theorem continuation_build_failure_propagates (w : World)
    (originalRequest : GeminiRequest) (model searchParams : jsstring) (st : state) :
  isResponseComplete Samples.no_candidates = false /\
  createRetryRequest Samples.no_candidates originalRequest = Throw TypeError /\
  handleIncompleteResponse w Samples.no_candidates originalRequest
    model searchParams st = (Throw TypeError, st) /\
  exists st',
    handleNonStreamingRequest
      (Samples.always (Samples.http 200 (lit "OK") (Some Samples.no_candidates)))
      Samples.uninstructed 1%positive Samples.model [] initial
    = Some (Throw TypeError, st') /\ fetches st' = 1.
Proof.
  repeat split. eexists. split; [vm_compute; reflexivity|reflexivity].
Qed.

(** ** The stream chunk transformer *)

Lemma split_lines_nonempty (s : jsstring) : split_lines s <> [].
Proof.
  destruct s as [|c s]; simpl; [discriminate|].
  destruct (c =? 10)%N; [discriminate|].
  destruct (split_lines s); discriminate.
Qed.

(** Joining the lines of a text with line feeds gives the text back. *)
Lemma unlines_split_lines (s : jsstring) : unlines (split_lines s) = s.
Proof.
  induction s as [|c s IH]; [reflexivity|].
  cbn [split_lines].
  destruct (c =? 10)%N eqn:E.
  - apply N.eqb_eq in E. subst c.
    pose proof (split_lines_nonempty s) as Hne.
    cbn [unlines]. destruct (split_lines s) as [|l ls] eqn:El; [contradiction|].
    rewrite IH. reflexivity.
  - destruct (split_lines s) as [|l ls] eqn:El.
    + exfalso. eapply split_lines_nonempty, El.
    + cbn [unlines] in *. destruct ls; rewrite <- IH; reflexivity.
Qed.

(** No line of a text has a line feed in it. *)
Lemma split_lines_no_newline (s : jsstring) :
  Forall (fun l => ~ In 10%N l) (split_lines s).
Proof.
  induction s as [|c s IH]; cbn [split_lines].
  - repeat constructor. intros [].
  - destruct (c =? 10)%N eqn:E.
    + constructor; [intros []|exact IH].
    + destruct (split_lines s) as [|l ls].
      * repeat constructor. intros [H|[]]. subst c. discriminate.
      * inversion IH as [|? ? Hl Hls]; subst. constructor; [|exact Hls].
        intros [H|H]; [subst c; discriminate|auto].
Qed.

Lemma transform_line_other (J : JSON) (line : jsstring) :
  startsWith line data_prefix = false -> transform_line J line = [line ++ newline].
Proof. intros H. unfold transform_line. rewrite H. reflexivity. Qed.

Lemma transform_line_malformed (J : JSON) (line : jsstring) :
  startsWith line data_prefix = true ->
  parse J (slice 6 line) = None ->
  transform_line J line = [line ++ newline].
Proof.
  intros H1 H2. unfold transform_line. rewrite H1, H2.
  destruct (_ || _); reflexivity.
Qed.

Lemma transform_line_at_most_one (J : JSON) (line : jsstring) :
  length (transform_line J line) <= 1.
Proof.
  unfold transform_line.
  repeat match goal with
         | |- context [if ?b then _ else _] => destruct b
         | |- context [match ?x with _ => _ end] => destruct x
         end; simpl; lia.
Qed.

(** C3 (amended). The lines of a chunk are the pieces between its line
    feeds.  The transformer drops the lines that are empty or white space
    only and handles the others in input order, each enqueuing at most
    one string: a line that does not start with [data: ] is enqueued
    unchanged (followed by a line feed), and so is a [data: ] line whose
    payload does not parse; nothing is thrown. *)
Theorem transform_keeps_order (J : JSON) (chunkText : jsstring) :
  unlines (split_lines chunkText) = chunkText /\
  Forall (fun l => ~ In 10%N l) (split_lines chunkText) /\
  transform J chunkText =
    flat_map (transform_line J) (List.filter nonblank (split_lines chunkText)) /\
  (forall line, startsWith line data_prefix = false ->
                transform_line J line = [line ++ newline]) /\
  (forall line, startsWith line data_prefix = true ->
                parse J (slice 6 line) = None ->
                transform_line J line = [line ++ newline]) /\
  (forall line, length (transform_line J line) <= 1).
Proof.
  split; [apply unlines_split_lines|].
  split; [apply split_lines_no_newline|].
  split; [reflexivity|].
  split; [apply transform_line_other|].
  split; [apply transform_line_malformed|apply transform_line_at_most_one].
Qed.

(** C3 as stated fails on a blank separator line: the chunk
    [event: ping], blank line, [event: pong] comes out as the two event
    lines with no blank line between them, whatever the JSON parser. *)
Lemma blank_line_is_dropped :
  split_lines Samples.blank_separated = [lit "event: ping"; []; lit "event: pong"; []] /\
  startsWith [] data_prefix = false /\
  (forall J, transform J Samples.blank_separated
             = [lit "event: ping" ++ newline; lit "event: pong" ++ newline]) /\
  (forall J, join (transform J Samples.blank_separated) <> Samples.blank_separated).
Proof.
  split; [reflexivity|]. split; [reflexivity|].
  split; intros J; [reflexivity|]. vm_compute. discriminate.
Qed.

(** ** Cleanup of the protocol tokens *)

(** A pattern whose first code unit does not come back in it cannot
    overlap itself: if [b] followed by the pattern starts with the rest
    of the pattern, the rest was in [b] already. *)
Lemma prefix_before_fresh_head (c : code_unit) (p b s r : jsstring) :
  ~ In c p -> b ++ c :: s = p ++ r -> exists r', b = p ++ r'.
Proof.
  revert b. induction p as [|q p IH]; intros b Hc E.
  - exists b. reflexivity.
  - destruct b as [|y b]; simpl in E.
    + injection E as -> _. exfalso. apply Hc. left. reflexivity.
    + injection E as -> E.
      destruct (IH b) as [r' ->]; [|exact E|exists r'; reflexivity].
      intros H. apply Hc. right. exact H.
Qed.

(** Such a pattern, found at the end of a text that does not contain it,
    is the first occurrence, and [replace] removes it. *)
Lemma replace_final_token (c : code_unit) (pat body : jsstring) :
  ~ In c pat ->
  includes body (c :: pat) = false ->
  replace (body ++ c :: pat) (c :: pat) [] = body.
Proof.
  intros Hc. induction body as [|x body IH]; intros Hinc.
  - cbn [app]. rewrite <- (app_nil_r (c :: pat)) at 1. apply replace_prefix.
  - cbn [app replace].
    destruct (startsWith (x :: body ++ c :: pat) (c :: pat)) eqn:Es.
    + exfalso. apply startsWith_spec in Es as [r Er].
      simpl in Er. injection Er as -> Er.
      destruct (prefix_before_fresh_head _ _ _ _ _ Hc Er) as [r' ->].
      apply includes_false_startsWith in Hinc.
      change (c :: pat ++ r') with ((c :: pat) ++ r') in Hinc.
      rewrite startsWith_app in Hinc. discriminate.
    + f_equal. apply IH. eapply includes_false_tail, Hinc.
Qed.

(** Such a pattern, set into a text at a place before which it does not
    occur, is the first occurrence, and [replace] removes it. *)
Lemma replace_inserted_token (c : N) (pat a b : jsstring) :
  ~ In c pat ->
  includes a (c :: pat) = false ->
  replace (a ++ (c :: pat) ++ b) (c :: pat) [] = a ++ b.
Proof.
  intros Hc. induction a as [|x a IH]; intros Hinc.
  - cbn [app]. apply (replace_prefix (c :: pat)).
  - cbn [app replace].
    match goal with
    | |- context [startsWith ?s ?p] => destruct (startsWith s p) eqn:Es
    end.
    + exfalso. apply startsWith_spec in Es as [r Er].
      simpl in Er. injection Er as -> Er.
      destruct (prefix_before_fresh_head _ _ _ _ _ Hc Er) as [r' ->].
      apply includes_false_startsWith in Hinc.
      change (c :: pat ++ r') with ((c :: pat) ++ r') in Hinc.
      rewrite startsWith_app in Hinc. discriminate.
    + f_equal. apply IH. eapply includes_false_tail, Hinc.
Qed.

Lemma includes_false_prefix (a b pat : jsstring) :
  includes (a ++ b) pat = false -> includes a pat = false.
Proof.
  intros H. destruct (includes a pat) eqn:E; [|reflexivity].
  apply includes_spec in E as (u & v & ->).
  assert (includes ((u ++ pat ++ v) ++ b) pat = true); [|congruence].
  apply includes_spec. exists u, (v ++ b). rewrite <- !app_assoc. reflexivity.
Qed.

(** A run of code units other than the first of the pattern holds no
    start of an occurrence. *)
Lemma includes_skip (c : N) (pat w s : jsstring) :
  ~ In c w -> includes (w ++ s) (c :: pat) = includes s (c :: pat).
Proof.
  induction w as [|x w IH]; intros Hc; [reflexivity|].
  cbn [app includes startsWith].
  destruct (N.eqb_spec c x) as [->|_]; [exfalso; apply Hc; left; reflexivity|].
  cbn [andb orb]. apply IH. intros H. apply Hc. right. exact H.
Qed.

(** Setting another token into a text makes no occurrence of the
    pattern: both start with a code unit that neither has anywhere
    else, and neither starts the other. *)
Lemma includes_inserted (c : N) (pat u s t : jsstring) :
  ~ In c pat -> ~ In c u ->
  (forall r, startsWith (c :: u ++ r) (c :: pat) = false) ->
  includes s (c :: pat) = false ->
  inserted (c :: u) s t ->
  includes t (c :: pat) = false.
Proof.
  intros Hp Hu Hdiv Hs [->|(a & b & -> & ->)]; [exact Hs|].
  induction a as [|x a IH].
  - cbn [app]. cbn [includes]. rewrite Hdiv. cbn [orb].
    rewrite includes_skip by exact Hu. exact Hs.
  - cbn [app] in *. cbn [includes].
    rewrite (IH (includes_false_tail _ _ _ Hs)), orb_false_r.
    match goal with
    | |- context [startsWith ?s ?p] => destruct (startsWith s p) eqn:Es
    end; [|reflexivity].
    exfalso. apply startsWith_spec in Es as [r Er].
    simpl in Er. injection Er as -> Er.
    destruct (prefix_before_fresh_head _ _ _ _ _ Hp Er) as [r' ->].
    apply includes_false_startsWith in Hs.
    rewrite <- app_assoc in Hs.
    change (c :: pat ++ r' ++ b) with ((c :: pat) ++ r' ++ b) in Hs.
    rewrite startsWith_app in Hs. discriminate.
Qed.

(** A token set into a text that does not contain it is taken out again. *)
Lemma replace_inserted (c : N) (pat s t : jsstring) :
  ~ In c pat ->
  includes s (c :: pat) = false ->
  inserted (c :: pat) s t ->
  replace t (c :: pat) [] = s.
Proof.
  intros Hc Hs [->|(a & b & -> & ->)]; [apply replace_absent, Hs|].
  apply replace_inserted_token; [exact Hc|].
  eapply includes_false_prefix, Hs.
Qed.

Lemma strip_tokens_token_free (t : jsstring) :
  token_free t -> strip_tokens t = t.
Proof.
  intros (H1 & H2 & H3). unfold strip_tokens.
  rewrite (replace_absent t) by exact H1.
  rewrite (replace_absent t) by exact H2.
  apply replace_absent, H3.
Qed.

Lemma FINISHED_TOKEN_head :
  FINISHED_TOKEN = 91%N :: lit "RESPONSE_FINISHED]" /\
  ~ In 91%N (lit "RESPONSE_FINISHED]").
Proof.
  split; [reflexivity|].
  intros H. vm_compute in H.
  repeat (destruct H as [H|H]; [discriminate H|]). exact H.
Qed.

Lemma INCOMPLETE_TOKEN_head :
  INCOMPLETE_TOKEN = 91%N :: lit "RESPONSE_NOT_FINISHED]" /\
  ~ In 91%N (lit "RESPONSE_NOT_FINISHED]").
Proof.
  split; [reflexivity|].
  intros H. vm_compute in H.
  repeat (destruct H as [H|H]; [discriminate H|]). exact H.
Qed.

Lemma REMINDER_PROMPT_head :
  REMINDER_PROMPT
  = 91%N :: lit "REMINDER] Strictly adhere to the Final Output Protocol upon completion." /\
  ~ In 91%N (lit "REMINDER] Strictly adhere to the Final Output Protocol upon completion.").
Proof.
  split; [reflexivity|].
  intros H. vm_compute in H.
  repeat (destruct H as [H|H]; [discriminate H|]). exact H.
Qed.

(** The finished marker that ends an otherwise token-free text is
    stripped, and nothing else is. *)
Lemma strip_tokens_final_marker (body : jsstring) :
  token_free body -> strip_tokens (body ++ FINISHED_TOKEN) = body.
Proof.
  intros Hfree. pose proof Hfree as (H1 & H2 & H3).
  destruct FINISHED_TOKEN_head as [E Hc].
  unfold strip_tokens.
  replace (replace (body ++ FINISHED_TOKEN) FINISHED_TOKEN []) with body.
  - rewrite (replace_absent body) by exact H2. apply replace_absent, H3.
  - symmetry. rewrite E in *. apply replace_final_token; assumption.
Qed.

(** The three [replace] calls undo what [marked] set in: each finds the
    one occurrence of its token and takes it out. *)
Lemma strip_tokens_marked (body t : jsstring) :
  token_free body -> marked body t -> strip_tokens t = body.
Proof.
  intros (F1 & F2 & F3) (t3 & t2 & I3 & I2 & I1).
  destruct FINISHED_TOKEN_head as [EF HF].
  destruct INCOMPLETE_TOKEN_head as [EI HI].
  destruct REMINDER_PROMPT_head as [ER HR].
  rewrite EF in F1, I1. rewrite EI in F2, I2. rewrite ER in F3, I3.
  unfold strip_tokens. rewrite EF, EI, ER.
  assert (F1' : includes t3 (91%N :: lit "RESPONSE_FINISHED]") = false).
  { eapply includes_inserted; [exact HF|exact HR| |exact F1|exact I3].
    intros r. reflexivity. }
  assert (F1'' : includes t2 (91%N :: lit "RESPONSE_FINISHED]") = false).
  { eapply includes_inserted; [exact HF|exact HI| |exact F1'|exact I2].
    intros r. reflexivity. }
  assert (F2' : includes t3 (91%N :: lit "RESPONSE_NOT_FINISHED]") = false).
  { eapply includes_inserted; [exact HI|exact HR| |exact F2|exact I3].
    intros r. reflexivity. }
  rewrite (replace_inserted _ _ _ _ HF F1'' I1).
  rewrite (replace_inserted _ _ _ _ HI F2' I2).
  apply (replace_inserted _ _ _ _ HR F3 I3).
Qed.

(** [trim] cuts a text at both ends and nowhere else. *)
Lemma trimStart_suffix (s : jsstring) : exists a, s = a ++ trimStart s.
Proof.
  induction s as [|c s [a IH]]; [exists []; reflexivity|].
  cbn [trimStart]. destruct (isWhiteSpace c).
  - exists (c :: a). simpl. f_equal. exact IH.
  - exists []. reflexivity.
Qed.

Lemma trimEnd_prefix (s : jsstring) : exists b, s = trimEnd s ++ b.
Proof.
  unfold trimEnd. destruct (trimStart_suffix (rev s)) as [a E].
  exists (rev a). rewrite <- rev_app_distr, <- E, rev_involutive. reflexivity.
Qed.

Lemma trim_infix (s : jsstring) : exists a b, s = a ++ trim s ++ b.
Proof.
  unfold trim. destruct (trimStart_suffix s) as [a Ea].
  destruct (trimEnd_prefix (trimStart s)) as [b Eb].
  exists a, b. rewrite <- Eb. exact Ea.
Qed.

Lemma includes_trim (s pat : jsstring) :
  includes s pat = false -> includes (trim s) pat = false.
Proof.
  intros H. destruct (includes (trim s) pat) eqn:E; [|reflexivity].
  apply includes_spec in E as (u & v & E).
  destruct (trim_infix s) as (a & b & Es).
  assert (includes s pat = true); [|congruence].
  apply includes_spec. exists (a ++ u), (v ++ b).
  rewrite Es, E. rewrite <- !app_assoc. reflexivity.
Qed.

Lemma token_free_trim (s : jsstring) : token_free s -> token_free (trim s).
Proof. intros (H1 & H2 & H3). repeat split; apply includes_trim; assumption. Qed.

(** *** Streaming cleanup *)

Lemma assoc_set_same (k : jsstring) (x : value) (props : list (jsstring * value)) :
  assoc k (assoc_set k x props) = Some x.
Proof.
  induction props as [|[k' v] props IH]; simpl.
  - rewrite bool_decide_eq_true_2 by reflexivity. reflexivity.
  - destruct (bool_decide (k' = k)) eqn:E; simpl; rewrite E; [reflexivity|exact IH].
Qed.

Lemma get_field_defined (v x : value) (k : jsstring) :
  get_field v k = Normal x -> x <> VUndefined ->
  exists props, v = VObject props /\ assoc k props = Some x.
Proof.
  destruct v; simpl; intros [= <-] Hx; try contradiction.
  exists props. split; [reflexivity|].
  destruct (assoc k props); [reflexivity|contradiction].
Qed.

Lemma get_set_field (props : list (jsstring * value)) (k : jsstring) (x : value) :
  get_field (set_field (VObject props) k x) k = Normal x.
Proof. simpl. rewrite assoc_set_same. reflexivity. Qed.

(** The callback on one part. *)
Lemma clean_stream_part_text (p p' : value) (t : jsstring) :
  clean_stream_part p = Normal p' ->
  text_of p = Some t ->
  text_of p' = Some (strip_tokens t).
Proof.
  unfold clean_stream_part, text_of.
  destruct (get_field p (lit "text")) as [x|] eqn:E; [|discriminate].
  destruct x; try discriminate. simpl. intros H [= ->].
  destruct t as [|c t]; simpl in H.
  - injection H as <-. rewrite E. reflexivity.
  - injection H as <-.
    apply get_field_defined in E as (props & -> & _); [|discriminate].
    rewrite get_set_field. reflexivity.
Qed.

Lemma map_result_Forall2 {A B} (f : A -> result B) (l : list A) (l' : list B) :
  map_result f l = Normal l' -> Forall2 (fun a b => f a = Normal b) l l'.
Proof.
  revert l'. induction l as [|a l IH]; simpl; intros l' H.
  - injection H as <-. constructor.
  - destruct (f a) as [b|] eqn:Ea; [|discriminate]. simpl in H.
    destruct (map_result f l) as [bs|]; [|discriminate]. simpl in H.
    injection H as <-. constructor; [exact Ea|apply IH; reflexivity].
Qed.

(** What [processStreamChunk] returns for a payload whose candidate 0
    has parts: the payload with those parts mapped through the callback,
    the other candidates as they were. *)
Lemma processStreamChunk_parts (chunk out : value) (ps : list value) :
  processStreamChunk chunk = Normal out ->
  candidate0_parts chunk = Some ps ->
  exists ps',
    map_result clean_stream_part ps = Normal ps' /\
    candidate0_parts out = Some ps' /\
    other_candidates out = other_candidates chunk.
Proof.
  unfold candidate0_parts, other_candidates, processStreamChunk.
  destruct (get_field chunk (lit "candidates")) as [cands|] eqn:E1; [|discriminate].
  destruct cands as [| | | | |[|candidate others]|]; try discriminate.
  apply get_field_defined in E1 as (props & -> & E1); [|discriminate].
  destruct (get_field candidate (lit "content")) as [c|] eqn:E2; [|discriminate].
  destruct (get_field c (lit "parts")) as [psv|] eqn:E3; [|discriminate].
  destruct psv; try discriminate.
  apply get_field_defined in E3 as (cprops & -> & E3); [|discriminate].
  apply get_field_defined in E2 as (candprops & -> & E2); [|discriminate].
  intros H [= ->].
  cbn [default from_option id and_then truthy negb length_is_zero index0 get_field] in H.
  rewrite E2 in H.
  cbn [default from_option id and_then truthy negb get_field] in H.
  rewrite E3 in H.
  cbn [default from_option id and_then truthy negb array_map] in H.
  destruct (map_result clean_stream_part ps) as [ps'|]; [|discriminate].
  cbn [and_then] in H. injection H as <-.
  exists ps'. split; [reflexivity|].
  cbn [set_index0 set_field get_field]. rewrite !assoc_set_same.
  cbn [default from_option id get_field]. rewrite !assoc_set_same.
  cbn [default from_option id get_field]. rewrite !assoc_set_same.
  split; reflexivity.
Qed.

(** *** Non-streaming cleanup *)

Lemma clean_part_text (p : Part) (t : jsstring) :
  text p = Some t -> text (clean_part p) = Some (trim (strip_tokens t)).
Proof.
  intros H. unfold clean_part, has_text. rewrite H.
  destruct t as [|c t]; simpl; [exact H|reflexivity].
Qed.

Lemma cleaned_strip (trimmed : bool) (before after : option jsstring) :
  (forall t, before = Some t ->
             after = Some (if trimmed then trim (strip_tokens t) else strip_tokens t)) ->
  cleaned trimmed before after.
Proof.
  intros H body t Hfree Hmarked E. specialize (H _ E).
  rewrite (strip_tokens_marked _ _ Hfree Hmarked) in H.
  eexists. split; [exact H|]. split; [|reflexivity].
  destruct trimmed; [apply token_free_trim|]; exact Hfree.
Qed.

(** A part without a text goes through the streaming callback as it is. *)
Lemma clean_stream_part_no_text (p p' : value) :
  clean_stream_part p = Normal p' -> text_of p = None -> p' = p.
Proof.
  unfold clean_stream_part, text_of.
  destruct (get_field p (lit "text")) as [x|]; [|discriminate].
  cbn [and_then]. destruct (truthy x) eqn:Et.
  - destruct x; try discriminate.
  - intros [= <-] _. reflexivity.
Qed.

Lemma clean_part_no_text (p : Part) : text p = None -> clean_part p = p.
Proof. intros H. unfold clean_part, has_text. rewrite H. reflexivity. Qed.

(** C8 (amended). The cleanup goes through the parts of candidate 0 and
    leaves the other candidates as they came.  For a payload that
    [processStreamChunk] accepts, a part of candidate 0 whose text is a
    token-free text with each of the three tokens set in at most once is
    emitted with that token-free text, so with no token in it, and a
    part without a text is emitted as it came; [cleanResponse] does the
    same for a complete response and trims the text. *)
Theorem cleanup_of_candidate0 :
  (forall chunk out ps,
      processStreamChunk chunk = Normal out ->
      candidate0_parts chunk = Some ps ->
      exists ps',
        candidate0_parts out = Some ps' /\
        other_candidates out = other_candidates chunk /\
        Forall2 (fun p p' => cleaned false (text_of p) (text_of p') /\
                             (text_of p = None -> p' = p)) ps ps')
  /\
  (forall response candidate others c ps,
      candidates response = Some (candidate :: others) ->
      content candidate = Some c ->
      parts c = Some ps ->
      exists candidate' c' ps',
        candidates (cleanResponse response) = Some (candidate' :: others) /\
        content candidate' = Some c' /\
        parts c' = Some ps' /\
        Forall2 (fun p p' => cleaned true (text p) (text p') /\
                             (text p = None -> p' = p)) ps ps').
Proof.
  split.
  - intros chunk out ps Hout Hps.
    destruct (processStreamChunk_parts _ _ _ Hout Hps) as (ps' & Hmap & Hps' & Hoth).
    exists ps'. split; [exact Hps'|]. split; [exact Hoth|].
    apply map_result_Forall2 in Hmap.
    eapply Forall2_impl; [exact Hmap|].
    intros p p' Hp. split.
    + apply cleaned_strip. intros t Ht.
      eapply clean_stream_part_text; [exact Hp|exact Ht].
    + apply clean_stream_part_no_text, Hp.
  - intros response candidate others c ps Hc Hct Hp.
    unfold cleanResponse. rewrite Hc, Hct, Hp.
    eexists _, _, _. repeat split. clear Hp.
    induction ps as [|p ps IH]; simpl; constructor; [|exact IH].
    split.
    + apply cleaned_strip. intros t Ht. apply clean_part_text, Ht.
    + apply clean_part_no_text.
Qed.

(** C8 as stated fails on a second candidate, whose text part is
    emitted with the finished marker in it on the streaming path and on
    the non-streaming path; on a marker set inside the pieces of
    another, where the one removal leaves a marker behind; and on a
    marker given twice, of which one is left. *)
Lemma second_candidate_keeps_marker :
  processStreamChunk Samples.two_candidates =
    Normal (VObject [(lit "candidates",
                      VArray [Samples.candidate_of (lit "Hi");
                              Samples.candidate_of (lit "Yo[RESPONSE_FINISHED]")])]) /\
  candidates (cleanResponse Samples.two_candidate_response) =
    Some (default [] (candidates (Samples.text_response (lit "Hi")))
          ++ default [] (candidates (Samples.text_response (lit "Yo[RESPONSE_FINISHED]")))) /\
  includes (lit "Yo[RESPONSE_FINISHED]") FINISHED_TOKEN = true /\
  processStreamChunk Samples.nested_marker =
    Normal (VObject [(lit "candidates",
                      VArray [Samples.candidate_of FINISHED_TOKEN])]) /\
  processStreamChunk Samples.repeated_marker =
    Normal (VObject [(lit "candidates",
                      VArray [Samples.candidate_of FINISHED_TOKEN])]) /\
  includes FINISHED_TOKEN FINISHED_TOKEN = true.
Proof. repeat split. Qed.

(** Only the first occurrence of a token is replaced: of a marker given
    twice, one is left. *)
Remark repeated_marker_is_left :
  strip_tokens (FINISHED_TOKEN ++ FINISHED_TOKEN) = FINISHED_TOKEN.
Proof. reflexivity. Qed.

(** ** The properties at sample inputs *)

Lemma isResponseComplete_iff_witness :
  isResponseComplete Samples.continuation = true.
Proof.
  apply (proj2 (proj1 (isResponseComplete_iff Samples.continuation))).
  eexists _, _, _, _. repeat split; try reflexivity.
  exists (lit "ld!"), []. reflexivity.
Defined.

Lemma transform_keeps_order_witness :
  transform_line Samples.rejecting (lit "data: {malformed")
  = [lit "data: {malformed" ++ newline].
Proof.
  destruct (transform_keeps_order Samples.rejecting []) as (_ & _ & _ & _ & H & _).
  apply H; reflexivity.
Defined.

Lemma cleanup_of_candidate0_witness :
  token_free (lit "Hello!") /\
  marked (lit "Hello!") Samples.marked_text /\
  exists ps',
    candidate0_parts
      (VObject [(lit "candidates", VArray [Samples.candidate_of (lit "Hello!")])])
    = Some ps' /\
    other_candidates
      (VObject [(lit "candidates", VArray [Samples.candidate_of (lit "Hello!")])])
    = other_candidates Samples.all_markers /\
    Forall2 (fun p p' => cleaned false (text_of p) (text_of p') /\
                         (text_of p = None -> p' = p))
            [Samples.text_part Samples.marked_text] ps'.
Proof.
  split; [repeat split|]. split.
  - exists (lit "Hel" ++ REMINDER_PROMPT ++ lit "lo!"),
           (lit "Hel" ++ REMINDER_PROMPT ++ lit "lo" ++ INCOMPLETE_TOKEN ++ lit "!").
    split; [right; exists (lit "Hel"), (lit "lo!"); split; reflexivity|].
    split; right.
    + exists (lit "Hel" ++ REMINDER_PROMPT ++ lit "lo"), (lit "!").
      split; [reflexivity|]. rewrite <- !app_assoc. reflexivity.
    + exists (lit "Hel" ++ REMINDER_PROMPT ++ lit "lo" ++ INCOMPLETE_TOKEN ++ lit "!"), [].
      split; [rewrite app_nil_r; reflexivity|].
      unfold Samples.marked_text. rewrite <- !app_assoc, app_nil_r. reflexivity.
  - apply (proj1 cleanup_of_candidate0 Samples.all_markers); reflexivity.
Defined.
(* ===================================================================== *)
(** * Further properties *)
(* ===================================================================== *)

(** ** The upstream client, whatever the upstream does *)

Section ClientOutcome.
Variable w : World.
Variables (request : GeminiRequest) (model searchParams : jsstring).
Variable isStreaming : bool.
Hypothesis key : api_key_set w.

Let url := request_url model searchParams isStreaming.
Let call := makeGeminiRequestWithRetry w request model searchParams isStreaming.

Lemma sleep_fetch_state (retryCount k : nat) (st : state) :
  after_attempts url request (S retryCount) k
    (sleep (backoffDelay retryCount) (snd (fetch w url request st)))
  = after_attempts url request retryCount (S k) st.
Proof.
  unfold after_attempts, sleep, fetch. cbn [snd fetches trace retry_events].
  f_equal; [lia|]. rewrite <- !app_assoc. reflexivity.
Qed.

(** [k] failed attempts followed by a successful one. *)
Lemma first_success (k retryCount : nat) (st : state) (response : UpstreamResponse) :
  retryCount + k <= MAX_FETCH_RETRIES ->
  (forall j, j < k -> attempt_fails (upstream w (fetches st + j))) ->
  upstream w (fetches st + k) = Resolved response ->
  ok response = true ->
  call retryCount st = (Normal response, after_attempts url request retryCount k st).
Proof.
  revert retryCount st. induction k as [|k IH]; intros retryCount st Hk Hfail Hup Hok.
  - rewrite Nat.add_0_r in Hup. unfold call.
    rewrite (successful_attempt w request model searchParams isStreaming key
               retryCount st response Hup Hok).
    f_equal. unfold after_attempts, fetch. cbn [snd retry_events app].
    f_equal. lia.
  - unfold call.
    rewrite failed_attempt_retries;
      [|exact key|rewrite <- (Nat.add_0_r (fetches st)); apply Hfail; lia|lia].
    fold url. fold call. rewrite IH.
    + rewrite sleep_fetch_state. reflexivity.
    + lia.
    + intros j Hj. cbn [sleep fetch snd fetches].
      replace (S (fetches st) + j) with (fetches st + S j) by lia. apply Hfail. lia.
    + cbn [sleep fetch snd fetches].
      replace (S (fetches st) + k) with (fetches st + S k) by lia. exact Hup.
    + exact Hok.
Qed.

(** Failed attempts up to the retry maximum. *)
Lemma exhausted (k retryCount : nat) (st : state) :
  retryCount + k = MAX_FETCH_RETRIES ->
  (forall j, j <= k -> attempt_fails (upstream w (fetches st + j))) ->
  call retryCount st =
  (Throw (failure_of (upstream w (fetches st + k))),
   after_attempts url request retryCount k st).
Proof.
  revert retryCount st. induction k as [|k IH]; intros retryCount st Hk Hfail.
  - unfold call.
    rewrite failed_attempt_fatal;
      [|exact key|rewrite <- (Nat.add_0_r (fetches st)); apply Hfail; lia|lia].
    fold url. rewrite Nat.add_0_r. f_equal.
    unfold after_attempts, fetch. cbn [snd retry_events app]. f_equal. lia.
  - unfold call.
    rewrite failed_attempt_retries;
      [|exact key|rewrite <- (Nat.add_0_r (fetches st)); apply Hfail; lia|lia].
    fold url. fold call. rewrite IH.
    + rewrite sleep_fetch_state. cbn [sleep fetch snd fetches].
      replace (S (fetches st) + k) with (fetches st + S k) by lia. reflexivity.
    + lia.
    + intros j Hj. cbn [sleep fetch snd fetches].
      replace (S (fetches st) + j) with (fetches st + S j) by lia. apply Hfail. lia.
Qed.

Lemma attempt_fails_dec (o : fetch_outcome) :
  {attempt_fails o} + {exists response, o = Resolved response /\ ok response = true}.
Proof.
  destruct o as [e|response]; simpl; [left; exact I|].
  destruct (ok response) eqn:E; [right; eauto|left; reflexivity].
Qed.

(** Every call ends after some [k] retries, with [k] at most what is left
    of the retry maximum: either with the successful answer to its last
    attempt, or, all retries used, with the failure of the last. *)
Lemma client_outcome (retryCount : nat) (st : state) :
  retryCount <= MAX_FETCH_RETRIES ->
  exists k,
    retryCount + k <= MAX_FETCH_RETRIES /\
    snd (call retryCount st) = after_attempts url request retryCount k st /\
    (forall j, j < k -> attempt_fails (upstream w (fetches st + j))) /\
    ((exists response,
        fst (call retryCount st) = Normal response /\
        upstream w (fetches st + k) = Resolved response /\ ok response = true)
     \/ (retryCount + k = MAX_FETCH_RETRIES /\
         attempt_fails (upstream w (fetches st + k)) /\
         fst (call retryCount st) = Throw (failure_of (upstream w (fetches st + k))))).
Proof.
  intros Hle.
  assert (G : forall n retryCount0 st0, retryCount0 + n = MAX_FETCH_RETRIES ->
    (exists k response, k <= n /\
        (forall j, j < k -> attempt_fails (upstream w (fetches st0 + j))) /\
        upstream w (fetches st0 + k) = Resolved response /\ ok response = true)
    \/ (forall j, j <= n -> attempt_fails (upstream w (fetches st0 + j)))).
  { clear. intros n retryCount0 st0 _. induction n as [|n IH].
    - destruct (attempt_fails_dec (upstream w (fetches st0 + 0))) as [F|(r & E & Hok)].
      + right. intros j Hj. replace j with 0 by lia. exact F.
      + left. exists 0, r. repeat split; auto. intros j Hj. lia.
    - destruct IH as [(k & r & Hk & F & E & Hok)|F].
      + left. exists k, r. repeat split; auto.
      + destruct (attempt_fails_dec (upstream w (fetches st0 + S n)))
          as [F'|(r & E & Hok)].
        * right. intros j Hj. destruct (Nat.eq_dec j (S n)) as [->|]; [exact F'|].
          apply F. lia.
        * left. exists (S n), r. repeat split; auto. intros j Hj. apply F. lia. }
  destruct (G (MAX_FETCH_RETRIES - retryCount) retryCount st ltac:(lia))
    as [(k & r & Hk & F & E & Hok)|F].
  - exists k. split; [lia|].
    rewrite (first_success k retryCount st r) by (auto; lia).
    split; [reflexivity|]. split; [exact F|]. left. exists r. auto.
  - exists (MAX_FETCH_RETRIES - retryCount). split; [lia|].
    rewrite (exhausted (MAX_FETCH_RETRIES - retryCount) retryCount st) by (auto; lia).
    split; [reflexivity|]. split; [intros j Hj; apply F; lia|].
    right. repeat split; auto; try lia.
Qed.

End ClientOutcome.

Lemma returned_call_has_key (w : World) (request : GeminiRequest)
    (model searchParams : jsstring) (isStreaming : bool) (retryCount : nat)
    (st : state) (response : UpstreamResponse) :
  fst (makeGeminiRequestWithRetry w request model searchParams isStreaming retryCount st)
    = Normal response ->
  api_key_set w.
Proof.
  rewrite makeGeminiRequestWithRetry_equation_1.
  destruct (GEMINI_API_KEY w) as [apiKey|] eqn:E; [|discriminate].
  destruct (truthy_string apiKey) eqn:T; [|discriminate].
  intros _. exists apiKey. auto.
Qed.

(** X1. Whatever the upstream answers, a call of the client (API key
    set) ends after at most [MAX_FETCH_RETRIES] retries: it makes [k + 1]
    fetches for some [k <= 3], all to the same URL with the same body,
    and between two of them it sleeps the backoff delay of the attempt
    that failed; nothing else is done to the outside. *)
Theorem client_attempt_bound (w : World) (request : GeminiRequest)
    (model searchParams : jsstring) (isStreaming : bool) (st : state) :
  api_key_set w ->
  exists k,
    k <= 3 /\
    snd (makeGeminiRequestWithRetry w request model searchParams isStreaming 0 st)
    = {| fetches := fetches st + k + 1;
         trace := trace st
                  ++ retry_events (request_url model searchParams isStreaming) request 0 k
                  ++ [Fetch (request_url model searchParams isStreaming) request] |}.
Proof.
  intros key.
  destruct (client_outcome w request model searchParams isStreaming key 0 st)
    as (k & Hk & Hst & _); [unfold MAX_FETCH_RETRIES; lia|].
  exists k. split; [exact Hk|exact Hst].
Qed.

Lemma client_attempt_bound_witness :
  exists k,
    k <= 3 /\
    snd (makeGeminiRequestWithRetry (Samples.always Samples.server_error)
           Samples.plain_request Samples.model [] true 0 initial)
    = {| fetches := fetches initial + k + 1;
         trace := trace initial
                  ++ retry_events (request_url Samples.model [] true)
                       Samples.plain_request 0 k
                  ++ [Fetch (request_url Samples.model [] true) Samples.plain_request] |}.
Proof.
  apply (client_attempt_bound (Samples.always Samples.server_error)).
  exists (lit "key"). split; reflexivity.
Defined.

(** X2. A response the client returns is a successful one
    ([response.ok]): it is the upstream's answer to the last fetch of the
    call, and every earlier attempt of the call had failed. *)
Theorem client_returns_first_success (w : World) (request : GeminiRequest)
    (model searchParams : jsstring) (isStreaming : bool) (st st' : state)
    (response : UpstreamResponse) :
  makeGeminiRequestWithRetry w request model searchParams isStreaming 0 st
    = (Normal response, st') ->
  ok response = true /\
  fetches st < fetches st' <= fetches st + 4 /\
  upstream w (fetches st' - 1) = Resolved response /\
  (forall n, fetches st <= n < fetches st' - 1 -> attempt_fails (upstream w n)).
Proof.
  intros H.
  assert (key : api_key_set w).
  { eapply returned_call_has_key. rewrite H. reflexivity. }
  destruct (client_outcome w request model searchParams isStreaming key 0 st)
    as (k & Hk & Hst & Hfail & Hres); [unfold MAX_FETCH_RETRIES; lia|].
  rewrite H in Hst, Hres. cbn [fst snd] in Hst, Hres. subst st'.
  unfold MAX_FETCH_RETRIES in Hk. cbn [after_attempts fetches].
  replace (fetches st + k + 1 - 1) with (fetches st + k) by lia.
  destruct Hres as [(r & [= <-] & Hup & Hok)|(_ & _ & ?)]; [|discriminate].
  repeat split; auto; try lia.
  intros n Hn. replace n with (fetches st + (n - fetches st)) by lia.
  apply Hfail. lia.
Qed.

Lemma client_returns_first_success_witness :
  ok (Samples.http 200 (lit "OK") (Some Samples.continuation)) = true /\
  fetches initial < 3 <= fetches initial + 4 /\
  upstream (Samples.scripted [Samples.unavailable; Samples.server_error;
                              Samples.http 200 (lit "OK") (Some Samples.continuation)])
           (3 - 1)
  = Resolved (Samples.http 200 (lit "OK") (Some Samples.continuation)) /\
  (forall n, fetches initial <= n < 3 - 1 ->
     attempt_fails
       (upstream (Samples.scripted [Samples.unavailable; Samples.server_error;
                                    Samples.http 200 (lit "OK") (Some Samples.continuation)])
                 n)).
Proof.
  refine (client_returns_first_success
            (Samples.scripted [Samples.unavailable; Samples.server_error;
                               Samples.http 200 (lit "OK") (Some Samples.continuation)])
            Samples.plain_request Samples.model [] false initial
            {| fetches := 3; trace := _ |} _ _).
  vm_compute. reflexivity.
Defined.

(** X3. The client gives up only when the retries are used up: when a
    call (API key set) throws, it has made exactly four fetches, every
    one of them failed (rejected by the network or answered with a status
    that is not a success), and what it throws is the failure of the
    fourth, the rejection itself or the [Error] built for the status. *)
Theorem client_throws_last_failure (w : World) (request : GeminiRequest)
    (model searchParams : jsstring) (isStreaming : bool) (st st' : state)
    (e : exn) :
  api_key_set w ->
  makeGeminiRequestWithRetry w request model searchParams isStreaming 0 st
    = (Throw e, st') ->
  fetches st' = fetches st + 4 /\
  (forall n, fetches st <= n < fetches st + 4 -> attempt_fails (upstream w n)) /\
  e = failure_of (upstream w (fetches st + 3)).
Proof.
  intros key H.
  destruct (client_outcome w request model searchParams isStreaming key 0 st)
    as (k & Hk & Hst & Hfail & Hres); [unfold MAX_FETCH_RETRIES; lia|].
  rewrite H in Hst, Hres. cbn [fst snd] in Hst, Hres. subst st'.
  destruct Hres as [(r & ? & _)|(Hmax & Hlast & [= ->])]; [discriminate|].
  unfold MAX_FETCH_RETRIES in Hmax. simpl in Hmax. subst k.
  cbn [after_attempts fetches]. repeat split; try lia.
  intros n Hn. replace n with (fetches st + (n - fetches st)) by lia.
  destruct (Nat.eq_dec (n - fetches st) 3) as [->|]; [exact Hlast|].
  apply Hfail. lia.
Qed.

Lemma client_throws_last_failure_witness :
  fetches {| fetches := 4; trace := [] |} = fetches initial + 4 /\
  (forall n, fetches initial <= n < fetches initial + 4 ->
     attempt_fails (upstream (Samples.scripted []) n)) /\
  FetchFailure (lit "connection reset")
  = failure_of (upstream (Samples.scripted []) (fetches initial + 3)).
Proof.
  assert (key : api_key_set (Samples.scripted [])).
  { exists (lit "key"). split; reflexivity. }
  destruct (client_throws_last_failure (Samples.scripted []) Samples.plain_request
              Samples.model [] false initial
              (snd (makeGeminiRequestWithRetry (Samples.scripted [])
                      Samples.plain_request Samples.model [] false 0 initial))
              (FetchFailure (lit "connection reset")) key)
    as (H1 & H2 & H3); [vm_compute; reflexivity|].
  split; [reflexivity|]. split; [exact H2|exact H3].
Defined.

(** X4. The backoff delay [min(1000 * 2^retryCount, 30000)] lies between
    1000 and 30000 ms, never decreases with the retry count, doubles up
    to the fifth attempt and stays at the cap from then on. *)
Theorem backoffDelay_shape (n m : nat) :
  (1000 <= backoffDelay n <= 30000)%Z /\
  (n <= m -> (backoffDelay n <= backoffDelay m)%Z) /\
  (n <= 4 -> backoffDelay n = (1000 * 2 ^ Z.of_nat n)%Z) /\
  (5 <= n -> backoffDelay n = 30000%Z).
Proof.
  unfold backoffDelay.
  assert (P : forall a : nat, (1 <= 2 ^ Z.of_nat a)%Z).
  { intros a. apply (Z.pow_le_mono_r 2 0); lia. }
  assert (M : forall a b : nat, a <= b -> (2 ^ Z.of_nat a <= 2 ^ Z.of_nat b)%Z).
  { intros a b Hab. apply Z.pow_le_mono_r; lia. }
  repeat split.
  - pose proof (P n). lia.
  - lia.
  - intros Hnm. pose proof (M n m Hnm). lia.
  - intros Hn. pose proof (M n 4 Hn). change (2 ^ Z.of_nat 4)%Z with 16%Z in *. lia.
  - intros Hn. pose proof (M 5 n Hn). change (2 ^ Z.of_nat 5)%Z with 32%Z in *. lia.
Qed.


(** ** The non-streaming orchestrator, whatever the upstream does *)

Lemma client_without_key (w : World) (request : GeminiRequest)
    (model searchParams : jsstring) (isStreaming : bool) (retryCount : nat)
    (st : state) :
  ~ api_key_set w ->
  makeGeminiRequestWithRetry w request model searchParams isStreaming retryCount st
  = (Throw MissingApiKey, st).
Proof.
  intros Hno. rewrite makeGeminiRequestWithRetry_equation_1.
  destruct (GEMINI_API_KEY w) as [apiKey|] eqn:E; [|reflexivity].
  destruct (truthy_string apiKey) eqn:T; [|reflexivity].
  exfalso. apply Hno. exists apiKey. auto.
Qed.

Lemma api_key_set_dec (w : World) : {api_key_set w} + {~ api_key_set w}.
Proof.
  unfold api_key_set.
  destruct (GEMINI_API_KEY w) as [apiKey|]; [|right; intros (? & ? & _); discriminate].
  destruct (truthy_string apiKey) eqn:T; [left; eauto|].
  right. intros (k & [= <-] & H). congruence.
Qed.

(** With or without a key, a call makes at most four fetches, and when it
    returns, it returns a successful answer of the upstream. *)
Lemma client_summary (w : World) (request : GeminiRequest)
    (model searchParams : jsstring) (isStreaming : bool) (st : state) :
  let r := makeGeminiRequestWithRetry w request model searchParams isStreaming 0 st in
  fetches st <= fetches (snd r) <= fetches st + 4 /\
  (forall response, fst r = Normal response ->
     ok response = true /\ upstream w (fetches (snd r) - 1) = Resolved response).
Proof.
  intros r. subst r.
  destruct (api_key_set_dec w) as [key|Hno].
  - destruct (client_outcome w request model searchParams isStreaming key 0 st)
      as (k & Hk & Hst & _ & Hres); [unfold MAX_FETCH_RETRIES; lia|].
    unfold MAX_FETCH_RETRIES in Hk. rewrite Hst. cbn [after_attempts fetches].
    split; [lia|]. intros response E. rewrite E in Hres.
    destruct Hres as [(r & [= <-] & Hup & Hok)|(_ & _ & ?)]; [|discriminate].
    split; [exact Hok|].
    replace (fetches st + k + 1 - 1) with (fetches st + k) by lia. exact Hup.
  - rewrite client_without_key by exact Hno. cbn [fst snd].
    split; [lia|]. intros response ?. discriminate.
Qed.

Lemma ok_status (response : UpstreamResponse) :
  ok response = true -> (200 <= status response <= 299)%Z.
Proof.
  unfold ok. intros H. apply andb_true_iff in H as [H1 H2].
  apply Z.leb_le in H1, H2. lia.
Qed.

Lemma new_Response_inv (b : GeminiResponse) (s : Z) (reply : Reply) :
  new_Response b s = Normal reply ->
  reply = {| reply_status := s; reply_body := JsonBody b |}.
Proof.
  unfold new_Response.
  destruct (_ || _)%Z; [discriminate|].
  destruct (null_body_status s); [discriminate|]. intros [= <-]. reflexivity.
Qed.

Lemma createRetryRequest_text (incomplete : GeminiResponse) (orig : GeminiRequest)
    (t : jsstring) :
  candidate0_text incomplete = Normal t ->
  createRetryRequest incomplete orig =
  Normal {| contents := contents orig ++ [continuation_turn t];
            tools := tools orig; toolConfig := toolConfig orig;
            generationConfig := generationConfig orig;
            safetySettings := safetySettings orig;
            systemInstruction := systemInstruction orig |}.
Proof. intros H. unfold createRetryRequest. rewrite H. reflexivity. Qed.

Lemma candidate0_text_throws (r : GeminiResponse) (e : exn) :
  candidate0_text r = Throw e -> e = TypeError.
Proof.
  unfold candidate0_text, first_candidate, content_parts.
  destruct (candidates r) as [[|candidate others]|]; simpl; try congruence.
  destruct (content candidate) as [c|]; simpl; try congruence.
  destruct (parts c); simpl; congruence.
Qed.

Lemma createRetryRequest_throws (incomplete : GeminiResponse) (orig : GeminiRequest)
    (e : exn) :
  createRetryRequest incomplete orig = Throw e -> e = TypeError.
Proof.
  unfold createRetryRequest.
  destruct (candidate0_text incomplete) eqn:E; simpl; [discriminate|].
  intros [= <-]. eapply candidate0_text_throws, E.
Qed.

(** What [handleIncompleteResponse] can end with. *)
Lemma incomplete_branch_outcome (w : World) (incomplete : GeminiResponse)
    (orig : GeminiRequest) (model searchParams : jsstring) (st : state) :
  let r := handleIncompleteResponse w incomplete orig model searchParams st in
  fetches st <= fetches (snd r) <= fetches st + 4 /\
  match fst r with
  | Throw e => e = TypeError /\ snd r = st /\ returned (candidate0_text incomplete) = false
  | Normal reply =>
      returned (candidate0_text incomplete) = true /\
      (reply = {| reply_status := 200; reply_body := JsonBody incomplete |} \/
       exists response continuation combined,
         upstream w (fetches (snd r) - 1) = Resolved response /\
         ok response = true /\
         json_body response = Some continuation /\
         combineResponses incomplete continuation = Normal combined /\
         reply = {| reply_status := status response; reply_body := JsonBody combined |})
  end.
Proof.
  intros r. subst r. unfold handleIncompleteResponse.
  destruct (createRetryRequest incomplete orig) as [retryRequest|e] eqn:Eb.
  - assert (Ht : returned (candidate0_text incomplete) = true).
    { unfold createRetryRequest in Eb.
      destruct (candidate0_text incomplete); [reflexivity|discriminate]. }
    pose proof (client_summary w retryRequest model searchParams false st) as [Hb Hr].
    cbv zeta in Hb, Hr.
    destruct (makeGeminiRequestWithRetry w retryRequest model searchParams false 0 st)
      as [sent st1]. cbn [fst snd] in *.
    destruct sent as [response|e]; cbn [and_then];
      [|cbn [fst snd]; split; [exact Hb|split; [exact Ht|left; reflexivity]]].
    destruct (Hr response eq_refl) as [Hok Hup].
    unfold json. destruct (json_body response) as [continuation|] eqn:Ej; cbn [and_then];
      [|cbn [fst snd]; split; [exact Hb|split; [exact Ht|left; reflexivity]]].
    destruct (combineResponses incomplete continuation) as [combined|] eqn:Ec;
      cbn [and_then];
      [|cbn [fst snd]; split; [exact Hb|split; [exact Ht|left; reflexivity]]].
    destruct (new_Response combined (status response)) as [reply|] eqn:En;
      cbn [fst snd]; (split; [exact Hb|split; [exact Ht|]]); [|left; reflexivity].
    right. exists response, continuation, combined.
    apply new_Response_inv in En. auto.
  - cbn [fst snd]. split; [lia|]. split; [eapply createRetryRequest_throws, Eb|].
    split; [reflexivity|].
    unfold createRetryRequest in Eb.
    destruct (candidate0_text incomplete); [discriminate|reflexivity].
Qed.

(** X5. When the incomplete response has text parts to continue from,
    [handleIncompleteResponse] never rejects: after at most four fetches
    it replies either with the incomplete response and status 200, or
    with a successful continuation's status and the result of
    [combineResponses] on it. *)
Theorem incomplete_branch_always_replies (w : World) (incomplete : GeminiResponse)
    (orig : GeminiRequest) (model searchParams : jsstring) (st : state)
    (t : jsstring) :
  candidate0_text incomplete = Normal t ->
  exists reply st',
    handleIncompleteResponse w incomplete orig model searchParams st
      = (Normal reply, st') /\
    fetches st <= fetches st' <= fetches st + 4 /\
    (reply = {| reply_status := 200; reply_body := JsonBody incomplete |} \/
     exists response continuation combined,
       upstream w (fetches st' - 1) = Resolved response /\
       ok response = true /\
       json_body response = Some continuation /\
       combineResponses incomplete continuation = Normal combined /\
       reply = {| reply_status := status response; reply_body := JsonBody combined |}).
Proof.
  intros Ht.
  pose proof (incomplete_branch_outcome w incomplete orig model searchParams st)
    as [Hb Hres]. cbv zeta in Hb, Hres.
  destruct (handleIncompleteResponse w incomplete orig model searchParams st)
    as [[reply|e] st'] eqn:E; cbn [fst snd] in *.
  - exists reply, st'. destruct Hres as [_ Hres]. auto.
  - destruct Hres as (_ & _ & Hno). rewrite Ht in Hno. discriminate.
Qed.

Lemma incomplete_branch_always_replies_witness :
  exists reply st',
    handleIncompleteResponse (Samples.always Samples.server_error) Samples.cut_off
      Samples.plain_request Samples.model [] initial = (Normal reply, st') /\
    fetches initial <= fetches st' <= fetches initial + 4 /\
    (reply = {| reply_status := 200; reply_body := JsonBody Samples.cut_off |} \/
     exists response continuation combined,
       upstream (Samples.always Samples.server_error) (fetches st' - 1)
         = Resolved response /\
       ok response = true /\
       json_body response = Some continuation /\
       combineResponses Samples.cut_off continuation = Normal combined /\
       reply = {| reply_status := status response; reply_body := JsonBody combined |}).
Proof.
  apply (incomplete_branch_always_replies _ _ _ _ _ _ (lit "Hello wor")).
  reflexivity.
Defined.

(** X6. The continuation request: with the API key set and an incomplete
    response whose text is [t], every fetch of
    [handleIncompleteResponse] goes to the [generateContent] endpoint of
    the model and carries the original request with one turn added at
    the end, a user turn whose only part is [t], a blank line and
    [RETRY_PROMPT]; the turns before it, the system instruction and the
    other settings are the original ones. *)
Theorem continuation_request_sent (w : World) (incomplete : GeminiResponse)
    (orig : GeminiRequest) (model searchParams : jsstring) (st : state)
    (t : jsstring) :
  api_key_set w ->
  candidate0_text incomplete = Normal t ->
  exists k,
    k <= 3 /\
    snd (handleIncompleteResponse w incomplete orig model searchParams st)
    = after_attempts (request_url model searchParams false)
        {| contents := contents orig ++ [continuation_turn t];
           tools := tools orig; toolConfig := toolConfig orig;
           generationConfig := generationConfig orig;
           safetySettings := safetySettings orig;
           systemInstruction := systemInstruction orig |}
        0 k st.
Proof.
  intros key Ht. unfold handleIncompleteResponse.
  rewrite (createRetryRequest_text _ orig _ Ht).
  match goal with
  | |- context [makeGeminiRequestWithRetry w ?rr _ _ _ _ _] => set (retryRequest := rr)
  end.
  destruct (client_outcome w retryRequest model searchParams false key 0 st)
    as (k & Hk & Hst & _); [unfold MAX_FETCH_RETRIES; lia|].
  exists k. split; [exact Hk|].
  destruct (makeGeminiRequestWithRetry w retryRequest model searchParams false 0 st)
    as [sent st1]. cbn [snd] in Hst. subst st1.
  destruct (let! response := sent in _); reflexivity.
Qed.

Lemma continuation_request_sent_witness :
  exists k,
    k <= 3 /\
    snd (handleIncompleteResponse
           (Samples.always (Samples.http 200 (lit "OK") (Some Samples.continuation)))
           Samples.cut_off Samples.plain_request Samples.model [] initial)
    = after_attempts (request_url Samples.model [] false)
        {| contents := contents Samples.plain_request
                       ++ [continuation_turn (lit "Hello wor")];
           tools := tools Samples.plain_request;
           toolConfig := toolConfig Samples.plain_request;
           generationConfig := generationConfig Samples.plain_request;
           safetySettings := safetySettings Samples.plain_request;
           systemInstruction := systemInstruction Samples.plain_request |}
        0 k initial.
Proof.
  apply (continuation_request_sent
           (Samples.always (Samples.http 200 (lit "OK") (Some Samples.continuation)))).
  - exists (lit "key"). split; reflexivity.
  - reflexivity.
Defined.

Lemma nonstreaming_unfold (w : World) (h : Heap.heap) (request : Heap.loc)
    (model searchParams : jsstring) (st : state) :
  handleNonStreamingRequest w h request model searchParams st =
  match Heap.addAntiTruncationPrompt h request with
  | None => None
  | Some (Throw e, _) =>
      Some (Normal (createErrorResponse (lit "Gemini request failed") 500 e), st)
  | Some (Normal modifiedRequest, h1) =>
      match reify h1 modifiedRequest with
      | None => None
      | Some sentRequest =>
          let r := makeGeminiRequestWithRetry w sentRequest model searchParams false 0 st in
          match (let! response := fst r in
                 let! geminiResponse := json response in
                 Normal (response, geminiResponse)) with
          | Throw e =>
              Some (Normal (createErrorResponse (lit "Gemini request failed") 500 e),
                    snd r)
          | Normal (response, geminiResponse) =>
              if negb (isResponseComplete geminiResponse) then
                Some (handleIncompleteResponse w geminiResponse sentRequest
                        model searchParams (snd r))
              else
                match new_Response (cleanResponse geminiResponse) (status response) with
                | Throw e =>
                    Some (Normal (createErrorResponse (lit "Gemini request failed") 500 e),
                          snd r)
                | Normal reply => Some (Normal reply, snd r)
                end
          end
      end
  end.
Proof.
  unfold handleNonStreamingRequest.
  destruct (Heap.addAntiTruncationPrompt h request) as [[[m|e] h1]|];
    cbn [mbind option_bind]; try reflexivity.
  destruct (reify h1 m) as [sentRequest|]; cbn [mbind option_bind]; [|reflexivity].
  cbv zeta.
  destruct (makeGeminiRequestWithRetry w sentRequest model searchParams false 0 st)
    as [sent st1].
  reflexivity.
Qed.

(** X7. What the non-streaming handler can end with, whatever the
    upstream answers: it makes at most eight fetches (four for the
    request, four for the continuation); it rejects only with a
    [TypeError]; and a reply it gives has either status 500 with the
    error payload "Gemini request failed", or a success status (200 to
    299) with a response body: an upstream error status is never passed
    on to the caller. *)
Theorem nonstreaming_outcome (w : World) (h : Heap.heap) (request : Heap.loc)
    (model searchParams : jsstring) (st st' : state) (res : result Reply) :
  handleNonStreamingRequest w h request model searchParams st = Some (res, st') ->
  fetches st <= fetches st' <= fetches st + 8 /\
  match res with
  | Throw e => e = TypeError
  | Normal reply =>
      (reply_status reply = 500%Z /\
       exists e, reply_body reply = ErrorBody (lit "Gemini request failed") e)
      \/ ((200 <= reply_status reply <= 299)%Z /\
          exists r, reply_body reply = JsonBody r)
  end.
Proof.
  rewrite nonstreaming_unfold.
  destruct (Heap.addAntiTruncationPrompt h request) as [[[m|e] h1]|]; [| |discriminate].
  2:{ intros [= <- <-]. split; [lia|]. left. split; [reflexivity|eauto]. }
  destruct (reify h1 m) as [sentRequest|]; [|discriminate].
  cbv zeta.
  pose proof (client_summary w sentRequest model searchParams false st) as [Hb Hr].
  cbv zeta in Hb, Hr.
  destruct (makeGeminiRequestWithRetry w sentRequest model searchParams false 0 st)
    as [sent st1]. cbn [fst snd] in *.
  destruct sent as [response|e]; cbn [and_then].
  2:{ intros [= <- <-]. split; [lia|]. left. split; [reflexivity|eauto]. }
  destruct (Hr response eq_refl) as [Hok _]. apply ok_status in Hok.
  unfold json. destruct (json_body response) as [geminiResponse|]; cbn [and_then].
  2:{ intros [= <- <-]. split; [lia|]. left. split; [reflexivity|eauto]. }
  destruct (isResponseComplete geminiResponse); cbn [negb].
  - destruct (new_Response _ _) as [reply|e] eqn:En; intros [= <- <-];
      (split; [lia|]).
    + apply new_Response_inv in En. subst reply. right. split; [exact Hok|eauto].
    + left. split; [reflexivity|eauto].
  - pose proof (incomplete_branch_outcome w geminiResponse sentRequest model
                  searchParams st1) as [Hb2 Hres]. cbv zeta in Hb2, Hres.
    destruct (handleIncompleteResponse w geminiResponse sentRequest model
                searchParams st1) as [res2 st2]. cbn [fst snd] in *.
    intros [= <- <-]. split; [lia|].
    destruct res2 as [reply|e]; [|apply Hres].
    destruct Hres as [_ [->|(r2 & continuation & combined & _ & Hok2 & _ & _ & ->)]].
    + right. cbn. split; [lia|eauto].
    + right. cbn. split; [apply ok_status, Hok2|eauto].
Qed.

Lemma nonstreaming_outcome_witness :
  fetches initial <= 1 <= fetches initial + 8 /\ TypeError = TypeError.
Proof.
  refine (nonstreaming_outcome
            (Samples.always (Samples.http 200 (lit "OK") (Some Samples.no_candidates)))
            Samples.uninstructed 1%positive Samples.model [] initial
            {| fetches := 1; trace := _ |} (Throw TypeError) _).
  vm_compute. reflexivity.
Defined.

(** X8. Without [GEMINI_API_KEY] the non-streaming handler makes no
    upstream call at all: it replies with status 500 and the error payload
    "Gemini request failed", caused by the missing key (or by the
    [TypeError] of the augmenter, which runs first). *)
Theorem nonstreaming_without_key (w : World) (h : Heap.heap) (request : Heap.loc)
    (model searchParams : jsstring) (st st' : state) (res : result Reply) :
  ~ api_key_set w ->
  handleNonStreamingRequest w h request model searchParams st = Some (res, st') ->
  st' = st /\
  exists e,
    res = Normal (createErrorResponse (lit "Gemini request failed") 500 e) /\
    (e = MissingApiKey \/ e = TypeError).
Proof.
  intros Hno. rewrite nonstreaming_unfold.
  destruct (Heap.addAntiTruncationPrompt h request) as [[[m|e] h1]|] eqn:Ea;
    [| |discriminate].
  - destruct (reify h1 m) as [sentRequest|]; [|discriminate].
    cbv zeta. rewrite client_without_key by exact Hno. cbn [fst snd and_then].
    intros [= <- <-]. split; [reflexivity|]. exists MissingApiKey. auto.
  - intros [= <- <-]. split; [reflexivity|]. exists e. split; [reflexivity|].
    right. unfold Heap.addAntiTruncationPrompt in Ea.
    destruct (Heap.get_request h request) as [r|]; [|discriminate].
    cbn [mbind option_bind] in Ea.
    destruct (Heap.alloc (Heap.ORequest r) h) as [m0 h0].
    destruct (Heap.systemInstruction r) as [si|].
    + destruct (Heap.get_content h0 si) as [c|]; [|discriminate].
      cbn [mbind option_bind] in Ea.
      destruct (Heap.parts c) as [arr|]; [|congruence].
      destruct (Heap.get_array h0 arr) as [[|part0 rest]|]; cbn [mbind option_bind] in Ea;
        try congruence.
      destruct (Heap.get_part h0 part0); cbn [mbind option_bind] in Ea; congruence.
    + repeat match type of Ea with
             | context [Heap.alloc ?o ?x] => destruct (Heap.alloc o x)
             end. congruence.
Qed.

Lemma nonstreaming_without_key_witness :
  initial = initial /\
  exists e,
    Normal (createErrorResponse (lit "Gemini request failed") 500 MissingApiKey)
    = Normal (createErrorResponse (lit "Gemini request failed") 500 e) /\
    (e = MissingApiKey \/ e = TypeError).
Proof.
  refine (nonstreaming_without_key
            {| GEMINI_API_KEY := None; upstream := fun _ => Resolved Samples.unavailable |}
            Samples.uninstructed 1%positive Samples.model [] initial initial _ _ _).
  - intros (k & E & _). discriminate E.
  - vm_compute. reflexivity.
Defined.

(** X9. A complete first answer is cleaned and returned at once: when the
    augmented request is sent and the first fetch is answered with a
    success status other than 204 and 205 and a response the detector
    finds complete, the handler makes that one fetch, sends no
    continuation, and replies with the upstream status and
    [cleanResponse] of the response. *)
Theorem complete_answer_is_cleaned (w : World) (h h1 : Heap.heap)
    (request modifiedRequest : Heap.loc) (sentRequest : GeminiRequest)
    (model searchParams : jsstring) (st : state)
    (response : UpstreamResponse) (geminiResponse : GeminiResponse) :
  api_key_set w ->
  Heap.addAntiTruncationPrompt h request = Some (Normal modifiedRequest, h1) ->
  reify h1 modifiedRequest = Some sentRequest ->
  upstream w (fetches st) = Resolved response ->
  ok response = true ->
  null_body_status (status response) = false ->
  json_body response = Some geminiResponse ->
  isResponseComplete geminiResponse = true ->
  handleNonStreamingRequest w h request model searchParams st =
  Some (Normal {| reply_status := status response;
                  reply_body := JsonBody (cleanResponse geminiResponse) |},
        {| fetches := fetches st + 1;
           trace := trace st ++ [Fetch (request_url model searchParams false)
                                       sentRequest] |}).
Proof.
  intros key Ha Hr Hup Hok Hn Hj Hc. rewrite nonstreaming_unfold, Ha, Hr. cbv zeta.
  rewrite (successful_attempt w sentRequest model searchParams false key 0 st
             response Hup Hok).
  cbn [fst snd and_then]. unfold json. rewrite Hj. cbn [and_then]. rewrite Hc.
  cbn [negb]. unfold new_Response. rewrite Hn.
  pose proof (ok_status _ Hok) as Hs.
  replace ((status response <? 200)%Z) with false by (symmetry; apply Z.ltb_ge; lia).
  replace ((599 <? status response)%Z) with false by (symmetry; apply Z.ltb_ge; lia).
  cbn [orb]. unfold fetch. cbn [snd]. repeat f_equal. lia.
Qed.

Lemma complete_answer_is_cleaned_witness :
  exists sentRequest,
    handleNonStreamingRequest
      (Samples.always (Samples.http 200 (lit "OK") (Some Samples.continuation)))
      Samples.uninstructed 1%positive Samples.model [] initial =
    Some (Normal {| reply_status := 200;
                    reply_body := JsonBody (cleanResponse Samples.continuation) |},
          {| fetches := fetches initial + 1;
             trace := trace initial ++ [Fetch (request_url Samples.model [] false)
                                              sentRequest] |}).
Proof.
  eexists.
  eapply (complete_answer_is_cleaned
            (Samples.always (Samples.http 200 (lit "OK") (Some Samples.continuation)))
            Samples.uninstructed _ 1%positive _ _ Samples.model [] initial
            (Samples.http 200 (lit "OK") (Some Samples.continuation))
            Samples.continuation).
  - exists (lit "key"). split; reflexivity.
  - vm_compute. reflexivity.
  - vm_compute. reflexivity.
  - reflexivity.
  - reflexivity.
  - reflexivity.
  - reflexivity.
  - reflexivity.
Defined.

(** ** The prompt augmenter: what a returning call has done *)

Section AugmenterContract.
Import Heap.

Lemma get_part_alloc_request_inv h h1 m r l p :
  alloc (ORequest r) h = (m, h1) ->
  get_part h1 l = Some p -> get_part h l = Some p.
Proof.
  intros A. unfold get_part.
  destruct (h1 !! l) as [o|] eqn:E; [|discriminate].
  destruct (alloc_lookup_inv _ _ _ _ _ _ A E) as [[_ ->]|[_ ->]];
    [discriminate|auto].
Qed.

Lemma system_text_inv (h : heap) (l : loc) (t : jsstring) :
  system_text h l = Some t ->
  exists r si c arr part0 rest p,
    get_request h l = Some r /\ systemInstruction r = Some si /\
    get_content h si = Some c /\ parts c = Some arr /\
    get_array h arr = Some (part0 :: rest) /\ get_part h part0 = Some p /\
    text p = Some t.
Proof.
  unfold system_text.
  destruct (get_request h l) as [r|] eqn:E1; [|discriminate]. cbn [mbind option_bind].
  destruct (systemInstruction r) as [si|] eqn:E2; [|discriminate]. cbn [mbind option_bind].
  destruct (get_content h si) as [c|] eqn:E3; [|discriminate]. cbn [mbind option_bind].
  destruct (parts c) as [arr|] eqn:E4; [|discriminate]. cbn [mbind option_bind].
  destruct (get_array h arr) as [[|part0 rest]|] eqn:E5; try discriminate.
  cbn [mbind option_bind head].
  destruct (get_part h part0) as [p|] eqn:E6; [|discriminate]. cbn [mbind option_bind].
  intros Ht. exists r, si, c, arr, part0, rest, p. auto 10.
Qed.

(** Every call that returns has either built a fresh instruction with
    the mandate as its text, or appended a blank line and the mandate to
    the text of the first part of the instruction that was there. *)
Lemma augmenter_result (h h' : heap) (request m : loc) :
  addAntiTruncationPrompt h request = Some (Normal m, h') ->
  h !! m = None /\
  exists r,
    get_request h request = Some r /\
    system_text h' m =
    Some (match systemInstruction r with
          | None => FINISH_TOKEN_PROMPT
          | Some _ => or_empty (system_text h request)
                      ++ newline ++ newline ++ FINISH_TOKEN_PROMPT
          end).
Proof.
  intros H.
  destruct (get_request h request) as [r|] eqn:Hr;
    [|unfold addAntiTruncationPrompt in H; rewrite Hr in H; discriminate].
  destruct (systemInstruction r) as [si|] eqn:Hsi.
  - assert (W : exists c arr part0 rest p,
               get_content h si = Some c /\ parts c = Some arr /\
               get_array h arr = Some (part0 :: rest) /\ get_part h part0 = Some p).
    { unfold addAntiTruncationPrompt in H. rewrite Hr in H. cbn [mbind option_bind] in H.
      destruct (alloc (ORequest r) h) as [m1 h1] eqn:A. rewrite Hsi in H.
      destruct (get_content h1 si) as [c|] eqn:Ec; [|discriminate].
      cbn [mbind option_bind] in H.
      destruct (parts c) as [arr|] eqn:Ep; [|discriminate].
      destruct (get_array h1 arr) as [[|part0 rest]|] eqn:Ea; try discriminate.
      cbn [mbind option_bind] in H.
      destruct (get_part h1 part0) as [p|] eqn:Eq; [|discriminate].
      exists c, arr, part0, rest, p.
      apply (get_content_alloc_request_inv _ _ _ _ _ _ A) in Ec.
      apply (get_array_alloc_request_inv _ _ _ _ _ _ A) in Ea.
      apply (get_part_alloc_request_inv _ _ _ _ _ _ A) in Eq. auto. }
    destruct W as (c & arr & part0 & rest & p & Hc & Hp & Ha & Hq).
    destruct (augmenter_appends_in_place h request si arr part0 rest r c p
                Hr Hsi Hc Hp Ha Hq) as (m' & h'' & E & F & _ & Hold & Hnew & _).
    rewrite H in E. injection E as <- <-.
    split; [exact F|]. exists r. split; [reflexivity|].
    rewrite Hsi, Hold. exact Hnew.
  - destruct (augmenter_fresh_instruction h request r Hr Hsi)
      as (m' & h'' & E & F & _ & Hnew).
    rewrite H in E. injection E as <- <-.
    split; [exact F|]. exists r. split; [reflexivity|]. rewrite Hsi. exact Hnew.
Qed.

Lemma FINISH_TOKEN_PROMPT_nonempty (t : jsstring) :
  truthy_string (t ++ FINISH_TOKEN_PROMPT) = true.
Proof. destruct t; reflexivity. Qed.

End AugmenterContract.

(** X10. The contract of the augmenter: a call that returns gives a
    request object that did not exist before, whose system instruction
    text is the mandate when the caller's request had no system
    instruction, and otherwise the caller's text (the empty string when
    the first part has none), a blank line and the mandate. *)
Theorem augmenter_contract (h h' : Heap.heap) (request m : Heap.loc) :
  Heap.addAntiTruncationPrompt h request = Some (Normal m, h') ->
  h !! m = None /\
  exists r,
    Heap.get_request h request = Some r /\
    Heap.system_text h' m =
    Some (match Heap.systemInstruction r with
          | None => FINISH_TOKEN_PROMPT
          | Some _ => Heap.or_empty (Heap.system_text h request)
                      ++ newline ++ newline ++ FINISH_TOKEN_PROMPT
          end).
Proof. apply augmenter_result. Qed.

Lemma augmenter_contract_witness :
  Samples.uninstructed !! 6%positive = None /\
  exists r,
    Heap.get_request Samples.uninstructed 1%positive = Some r /\
    Heap.system_text
      (snd (default (Throw TypeError, ∅)
              (Heap.addAntiTruncationPrompt Samples.uninstructed 1%positive)))
      6%positive =
    Some (match Heap.systemInstruction r with
          | None => FINISH_TOKEN_PROMPT
          | Some _ => Heap.or_empty (Heap.system_text Samples.uninstructed 1%positive)
                      ++ newline ++ newline ++ FINISH_TOKEN_PROMPT
          end).
Proof.
  apply (augmenter_contract Samples.uninstructed _ 1%positive 6%positive).
  vm_compute. reflexivity.
Defined.

(** X11. Augmenting twice: on the request a first call returned, a second
    call always returns, and the text it leaves is the text of the first
    call followed by a blank line and the mandate again; the request the
    first call returned reads that text as well. *)
Theorem augmenter_twice (h h1 : Heap.heap) (request m : Heap.loc) :
  Heap.addAntiTruncationPrompt h request = Some (Normal m, h1) ->
  exists t m2 h2,
    Heap.system_text h1 m = Some (t ++ FINISH_TOKEN_PROMPT) /\
    Heap.addAntiTruncationPrompt h1 m = Some (Normal m2, h2) /\
    Heap.system_text h2 m2 =
      Some (t ++ FINISH_TOKEN_PROMPT ++ newline ++ newline ++ FINISH_TOKEN_PROMPT) /\
    Heap.system_text h2 m =
      Some (t ++ FINISH_TOKEN_PROMPT ++ newline ++ newline ++ FINISH_TOKEN_PROMPT).
Proof.
  intros H. destruct (augmenter_result _ _ _ _ H) as (_ & r & _ & Ht).
  set (t := match Heap.systemInstruction r with
            | None => []
            | Some _ => Heap.or_empty (Heap.system_text h request) ++ newline ++ newline
            end).
  assert (Ht' : Heap.system_text h1 m = Some (t ++ FINISH_TOKEN_PROMPT)).
  { rewrite Ht. subst t. destruct (Heap.systemInstruction r); [|reflexivity].
    rewrite <- !app_assoc. reflexivity. }
  destruct (system_text_inv _ _ _ Ht')
    as (r1 & si & c & arr & part0 & rest & p & Hr & Hsi & Hc & Hp & Ha & Hq & Htext).
  destruct (augmenter_appends_in_place h1 m si arr part0 rest r1 c p
              Hr Hsi Hc Hp Ha Hq) as (m2 & h2 & E & _ & _ & _ & Hnew & Hold).
  exists t, m2, h2. split; [exact Ht'|]. split; [exact E|].
  rewrite Htext in Hnew, Hold. unfold Heap.or_empty in Hnew, Hold.
  rewrite FINISH_TOKEN_PROMPT_nonempty in Hnew, Hold.
  rewrite <- !app_assoc in Hnew, Hold. auto.
Qed.

Lemma augmenter_twice_witness :
  exists t m2 h2,
    Heap.system_text
      (snd (default (Throw TypeError, ∅)
              (Heap.addAntiTruncationPrompt Samples.instructed 1%positive)))
      6%positive = Some (t ++ FINISH_TOKEN_PROMPT) /\
    Heap.addAntiTruncationPrompt
      (snd (default (Throw TypeError, ∅)
              (Heap.addAntiTruncationPrompt Samples.instructed 1%positive)))
      6%positive = Some (Normal m2, h2) /\
    Heap.system_text h2 m2 =
      Some (t ++ FINISH_TOKEN_PROMPT ++ newline ++ newline ++ FINISH_TOKEN_PROMPT) /\
    Heap.system_text h2 6%positive =
      Some (t ++ FINISH_TOKEN_PROMPT ++ newline ++ newline ++ FINISH_TOKEN_PROMPT).
Proof.
  apply (augmenter_twice Samples.instructed _ 1%positive 6%positive).
  vm_compute. reflexivity.
Defined.

(** ** The mandate on the wire *)

Lemma reify_mandated (h h1 : Heap.heap) (request m : Heap.loc) (sent : GeminiRequest) :
  Heap.addAntiTruncationPrompt h request = Some (Normal m, h1) ->
  reify h1 m = Some sent ->
  mandated sent.
Proof.
  intros H Hre. destruct (augmenter_twice _ _ _ _ H) as (t & _ & _ & Ht & _).
  destruct (system_text_inv _ _ _ Ht)
    as (r1 & si & c & arr & part0 & rest & p & Hr & Hsi & Hc & Hp & Ha & Hq & Htext).
  unfold reify in Hre. rewrite Hr in Hre. cbn [mbind option_bind] in Hre.
  destruct (Heap.get_array h1 (Heap.contents r1)) as [turns|]; [|discriminate].
  cbn [mbind option_bind] in Hre.
  destruct (mapM (reify_content h1) turns) as [cs|]; [|discriminate].
  cbn [mbind option_bind] in Hre. rewrite Hsi in Hre.
  unfold reify_content at 1 in Hre. rewrite Hc in Hre. cbn [mbind option_bind] in Hre.
  rewrite Hp in Hre. unfold reify_parts in Hre. rewrite Ha in Hre.
  cbn [mbind option_bind mapM] in Hre. rewrite Hq in Hre.
  cbn [fmap option_fmap option_map mbind option_bind mret option_ret] in Hre.
  destruct (mapM _ rest) as [ps|]; [|discriminate].
  cbn [fmap option_fmap option_map mbind option_bind mret option_ret] in Hre.
  injection Hre as <-.
  eexists _, (reify_part p), ps, t. repeat split. exact Htext.
Qed.

Lemma retry_events_shape (url : jsstring) (request : GeminiRequest) (k retryCount : nat) :
  Forall (fun ev => ev = Fetch url request \/ exists ms, ev = Sleep ms)
         (retry_events url request retryCount k ++ [Fetch url request]).
Proof.
  revert retryCount. induction k as [|k IH]; intros retryCount; cbn [retry_events app].
  - repeat constructor.
  - constructor; [left; reflexivity|]. constructor; [right; eauto|]. apply IH.
Qed.

Lemma client_events (w : World) (request : GeminiRequest)
    (model searchParams : jsstring) (isStreaming : bool) (st : state) :
  exists evs,
    events_since st
      (snd (makeGeminiRequestWithRetry w request model searchParams isStreaming 0 st))
      evs /\
    Forall (fun ev => ev = Fetch (request_url model searchParams isStreaming) request
                      \/ exists ms, ev = Sleep ms) evs.
Proof.
  destruct (api_key_set_dec w) as [key|Hno].
  - destruct (client_outcome w request model searchParams isStreaming key 0 st)
      as (k & _ & Hst & _); [unfold MAX_FETCH_RETRIES; lia|].
    eexists. split; [rewrite Hst; reflexivity|apply retry_events_shape].
  - rewrite client_without_key by exact Hno. exists [].
    split; [unfold events_since; cbn; rewrite app_nil_r; reflexivity|constructor].
Qed.

Lemma incomplete_branch_events (w : World) (incomplete : GeminiResponse)
    (orig : GeminiRequest) (model searchParams : jsstring) (st : state) :
  exists evs,
    events_since st
      (snd (handleIncompleteResponse w incomplete orig model searchParams st)) evs /\
    Forall (fun ev => (exists url rr, ev = Fetch url rr /\
                         systemInstruction rr = systemInstruction orig)
                      \/ exists ms, ev = Sleep ms) evs.
Proof.
  unfold handleIncompleteResponse.
  destruct (createRetryRequest incomplete orig) as [retryRequest|e] eqn:Eb.
  - assert (Hsi : systemInstruction retryRequest = systemInstruction orig).
    { unfold createRetryRequest in Eb.
      destruct (candidate0_text incomplete); [|discriminate].
      cbn [and_then] in Eb. injection Eb as <-. reflexivity. }
    destruct (client_events w retryRequest model searchParams false st)
      as (evs & Hev & Hall).
    destruct (makeGeminiRequestWithRetry w retryRequest model searchParams false 0 st)
      as [sent st1]. cbn [snd] in Hev.
    exists evs. split.
    + destruct (let! response := sent in _); exact Hev.
    + eapply Forall_impl; [exact Hall|]. intros ev [->|Hs]; [left|right; exact Hs].
      eauto.
  - exists []. split; [unfold events_since; cbn; rewrite app_nil_r; reflexivity|constructor].
Qed.

(** X12. The mandate reaches the upstream: every fetch the non-streaming
    handler makes, for the first request and for the continuation,
    carries a request whose system instruction starts with a text part
    ending with [FINISH_TOKEN_PROMPT]; besides fetches the handler only
    sleeps. *)
Theorem nonstreaming_requests_are_mandated (w : World) (h : Heap.heap)
    (request : Heap.loc) (model searchParams : jsstring) (st st' : state)
    (res : result Reply) :
  handleNonStreamingRequest w h request model searchParams st = Some (res, st') ->
  exists evs,
    trace st' = trace st ++ evs /\
    Forall (fun ev => (exists url sent, ev = Fetch url sent /\ mandated sent)
                      \/ exists ms, ev = Sleep ms) evs.
Proof.
  rewrite nonstreaming_unfold.
  destruct (Heap.addAntiTruncationPrompt h request) as [[[m|e] h1]|] eqn:Ea;
    [| |discriminate].
  2:{ intros [= <- <-]. exists []. rewrite app_nil_r. split; [reflexivity|constructor]. }
  destruct (reify h1 m) as [sentRequest|] eqn:Er; [|discriminate].
  pose proof (reify_mandated _ _ _ _ _ Ea Er) as Hm.
  cbv zeta.
  destruct (client_events w sentRequest model searchParams false st)
    as (evs & Hev & Hall). unfold events_since in Hev.
  assert (Hall' : Forall (fun ev => (exists url sent, ev = Fetch url sent /\ mandated sent)
                                    \/ exists ms, ev = Sleep ms) evs).
  { eapply Forall_impl; [exact Hall|]. intros ev [->|Hs]; [left; eauto|right; exact Hs]. }
  destruct (makeGeminiRequestWithRetry w sentRequest model searchParams false 0 st)
    as [sent st1]. cbn [fst snd] in *.
  destruct (let! response := sent in _) as [[response geminiResponse]|e];
    [|intros [= <- <-]; eauto].
  destruct (negb (isResponseComplete geminiResponse)).
  - destruct (incomplete_branch_events w geminiResponse sentRequest model
                searchParams st1) as (evs2 & Hev2 & Hall2).
    unfold events_since in Hev2.
    destruct (handleIncompleteResponse w geminiResponse sentRequest model
                searchParams st1) as [res2 st2]. cbn [snd] in Hev2.
    intros [= <- <-]. exists (evs ++ evs2).
    split; [rewrite Hev2, Hev, app_assoc; reflexivity|].
    apply Forall_app. split; [exact Hall'|].
    eapply Forall_impl; [exact Hall2|].
    intros ev [(url & rr & -> & Hsi)|Hs]; [left|right; exact Hs].
    exists url, rr. split; [reflexivity|].
    destruct Hm as (c & p & ps & t & E1 & E2 & E3).
    exists c, p, ps, t. rewrite Hsi. auto.
  - destruct (new_Response _ _); intros [= <- <-]; eauto.
Qed.

Lemma nonstreaming_requests_are_mandated_witness :
  exists evs,
    trace (snd (default (Throw TypeError, initial)
                  (handleNonStreamingRequest
                     (Samples.scripted
                        [Samples.http 200 (lit "OK") (Some Samples.cut_off);
                         Samples.http 200 (lit "OK") (Some Samples.continuation)])
                     Samples.instructed 1%positive Samples.model [] initial)))
    = trace initial ++ evs /\
    Forall (fun ev => (exists url sent, ev = Fetch url sent /\ mandated sent)
                      \/ exists ms, ev = Sleep ms) evs.
Proof.
  eapply (nonstreaming_requests_are_mandated
            (Samples.scripted [Samples.http 200 (lit "OK") (Some Samples.cut_off);
                               Samples.http 200 (lit "OK") (Some Samples.continuation)])
            Samples.instructed 1%positive Samples.model [] initial).
  vm_compute. reflexivity.
Defined.

(** ** The stream chunk transformer: framing *)

Lemma split_lines_app (a b : jsstring) :
  split_lines (a ++ newline ++ b) = split_lines a ++ split_lines b.
Proof.
  induction a as [|c a IH]; [reflexivity|].
  cbn [app split_lines]. destruct (c =? 10)%N.
  - cbn [app] in IH. rewrite IH. reflexivity.
  - cbn [app] in IH. rewrite IH.
    pose proof (split_lines_nonempty a) as Hne.
    destruct (split_lines a); [contradiction|reflexivity].
Qed.

Lemma transform_app (J : JSON) (a b : jsstring) :
  transform J (a ++ newline ++ b) = transform J a ++ transform J b.
Proof.
  unfold transform, chunk_lines.
  rewrite split_lines_app, List.filter_app, flat_map_app. reflexivity.
Qed.

Section Decoder.
Import TextDecoder.

Lemma lead_reachable (byte : N) : reachable (snd (lead byte)).
Proof.
  unfold lead.
  destruct (byte <=? 127)%N; [exact I|].
  destruct ((194 <=? byte) && (byte <=? 223))%N; [cbn; lia|].
  destruct ((224 <=? byte) && (byte <=? 239))%N;
    [cbn; destruct (byte =? 224)%N; lia|].
  destruct ((240 <=? byte) && (byte <=? 244))%N;
    [cbn; destruct (byte =? 240)%N; lia|].
  exact I.
Qed.

Lemma handler_reachable (st : utf8_state) (byte : N) :
  reachable (snd (handler st byte)).
Proof.
  destruct st as [|cp remaining lower upper]; cbn [handler];
    [apply lead_reachable|].
  destruct ((lower <=? byte) && (byte <=? upper))%N.
  - destruct remaining as [|[|r]]; cbn; try exact I. lia.
  - pose proof (lead_reachable byte) as H.
    destruct (lead byte) as [out st']. exact H.
Qed.

(** A line feed ends whatever character was being read. *)
Lemma handler_line_feed (st : utf8_state) :
  reachable st -> handler st 10 = (end_of_queue st ++ [10%N], Start).
Proof.
  destruct st as [|cp remaining lower upper]; cbn [handler reachable];
    [reflexivity|].
  intros Hl. destruct (N.leb_spec lower 10) as [H|_]; [lia|]. reflexivity.
Qed.

Lemma code_points_line_feed (a b : list N) :
  forall st, reachable st ->
  code_points st (a ++ 10%N :: b)
  = code_points st a ++ 10%N :: code_points Start b.
Proof.
  induction a as [|x a IH]; intros st Hst.
  - cbn [app code_points]. rewrite handler_line_feed by exact Hst.
    rewrite <- app_assoc. reflexivity.
  - cbn [app code_points].
    pose proof (handler_reachable st x) as Hx.
    destruct (handler st x) as [out st']. cbn [snd] in Hx.
    rewrite (IH st' Hx), app_assoc. reflexivity.
Qed.

(** Six more bits put under a code point: the bits above are the code
    point, the six below those of the byte. *)
Lemma continuation_bits (c byte : N) :
  N.shiftr (N.lor (N.shiftl c 6) (N.land byte 63)) 6 = c /\
  N.land (N.lor (N.shiftl c 6) (N.land byte 63)) 63 = (byte mod 64)%N.
Proof.
  change 63%N with (N.ones 6). rewrite !N.land_ones. change (2 ^ 6)%N with 64%N.
  assert (Hlt : (byte mod 64 < 64)%N) by (apply N.mod_lt; discriminate).
  split.
  - rewrite N.shiftr_lor, N.shiftr_shiftl_l by reflexivity.
    rewrite N.sub_diag, N.shiftl_0_r, N.shiftr_div_pow2.
    change (2 ^ 6)%N with 64%N. rewrite N.div_small by exact Hlt.
    apply N.lor_0_r.
  - rewrite <- (N.land_ones _ 6), N.land_lor_distr_l, !N.land_ones.
    change (2 ^ 6)%N with 64%N.
    rewrite N.shiftl_mul_pow2. change (2 ^ 6)%N with 64%N.
    rewrite N.Div0.mod_mul, N.Div0.mod_mod. reflexivity.
Qed.

Lemma continuation_is (c byte v : N) :
  N.lor (N.shiftl c 6) (N.land byte 63) = v ->
  c = N.shiftr v 6 /\ (byte mod 64)%N = N.land v 63.
Proof.
  intros <-. destruct (continuation_bits c byte) as [-> ->]. split; reflexivity.
Qed.

Lemma low_bits (x : N) (n : N) : N.land x (N.ones n) = (x mod 2 ^ n)%N.
Proof. apply N.land_ones. Qed.

(** Only the bytes EF BB BF decode to a byte-order mark that comes
    first. *)
Lemma first_code_point (bytes : list N) (cp : N) (rest : list N) :
  code_points Start bytes = cp :: rest ->
  cp = 65279%N -> has_BOM bytes = true.
Proof.
  destruct bytes as [|x bytes]; [discriminate|].
  cbn [code_points handler]. unfold lead.
  destruct (N.leb_spec x 127).
  { cbn [app]. intros [= <- _] ->. lia. }
  destruct (N.leb_spec 194 x); destruct (N.leb_spec x 223); cbn [andb].
  { (* two bytes *)
    cbn [app]. destruct bytes as [|y bytes]; cbn [code_points end_of_queue handler].
    - intros [= <- _]. discriminate.
    - destruct ((128 <=? y) && (y <=? 191))%N.
      + cbn [app]. intros [= <- _] E.
        apply continuation_is in E as [E _].
        change 31%N with (N.ones 5) in E. rewrite low_bits in E.
        change (N.shiftr 65279 6) with 1019%N in E.
        pose proof (N.mod_lt x (2 ^ 5) ltac:(discriminate)) as Hlt.
        change (2 ^ 5)%N with 32%N in *. lia.
      + destruct (lead y). cbn [app]. intros [= <- _]. discriminate. }
  all: try (destruct (N.leb_spec 224 x); destruct (N.leb_spec x 239); cbn [andb]).
  all: try (destruct (N.leb_spec 240 x); destruct (N.leb_spec x 244); cbn [andb]).
  all: try (cbn [app]; intros [= <- _]; discriminate).
  all: try lia.
  - (* three bytes *)
    cbn [app]. destruct bytes as [|y bytes]; cbn [code_points end_of_queue handler];
      [intros [= <- _]; discriminate|].
    match goal with
    | |- context [((?lo <=? y) && (y <=? ?hi))%N] =>
        destruct (N.leb_spec lo y) as [Hlo|]; destruct (N.leb_spec y hi) as [Hhi|];
        cbn [andb]
    end.
    2,3,4: destruct (lead y); cbn [app]; intros [= <- _]; discriminate.
    cbn [app]. destruct bytes as [|z bytes]; cbn [code_points end_of_queue handler];
      [intros [= <- _]; discriminate|].
    destruct (N.leb_spec 128 z); destruct (N.leb_spec z 191); cbn [andb].
    2,3,4: destruct (lead z); cbn [app]; intros [= <- _]; discriminate.
    cbn [app]. intros [= <- _] E.
    apply continuation_is in E as [E Ez].
    change (N.shiftr 65279 6) with 1019%N in E.
    change (N.land 65279 63) with 63%N in Ez.
    apply continuation_is in E as [E Ey].
    change (N.shiftr 1019 6) with 15%N in E.
    change (N.land 1019 63) with 59%N in Ey.
    change 15%N with (N.ones 4) in E at 1. rewrite low_bits in E.
    change (2 ^ 4)%N with 16%N in E.
    pose proof (N.div_mod x 16 ltac:(discriminate)) as Dx.
    pose proof (N.div_mod y 64 ltac:(discriminate)) as Dy.
    pose proof (N.div_mod z 64 ltac:(discriminate)) as Dz.
    assert (Hy : (128 <= y <= 191)%N).
    { destruct (x =? 224)%N; destruct (x =? 237)%N; lia. }
    assert (x = 239 /\ y = 187 /\ z = 191)%N as (-> & -> & ->) by lia.
    reflexivity.
  - (* four bytes *)
    cbn [app]. destruct bytes as [|y bytes]; cbn [code_points end_of_queue handler];
      [intros [= <- _]; discriminate|].
    match goal with
    | |- context [((?lo <=? y) && (y <=? ?hi))%N] =>
        destruct (N.leb_spec lo y) as [Hlo|]; destruct (N.leb_spec y hi) as [Hhi|];
        cbn [andb]
    end.
    2,3,4: destruct (lead y); cbn [app]; intros [= <- _]; discriminate.
    cbn [app]. destruct bytes as [|z bytes]; cbn [code_points end_of_queue handler];
      [intros [= <- _]; discriminate|].
    destruct (N.leb_spec 128 z); destruct (N.leb_spec z 191); cbn [andb].
    2,3,4: destruct (lead z); cbn [app]; intros [= <- _]; discriminate.
    cbn [app]. destruct bytes as [|t bytes]; cbn [code_points end_of_queue handler];
      [intros [= <- _]; discriminate|].
    destruct (N.leb_spec 128 t); destruct (N.leb_spec t 191); cbn [andb].
    2,3,4: destruct (lead t); cbn [app]; intros [= <- _]; discriminate.
    cbn [app]. intros [= <- _] E. exfalso.
    apply continuation_is in E as [E _].
    change (N.shiftr 65279 6) with 1019%N in E.
    apply continuation_is in E as [E _].
    change (N.shiftr 1019 6) with 15%N in E.
    apply continuation_is in E as [E Ey].
    change (N.shiftr 15 6) with 0%N in E.
    change (N.land 15 63) with 15%N in Ey.
    change 7%N with (N.ones 3) in E. rewrite low_bits in E.
    change (2 ^ 3)%N with 8%N in E.
    pose proof (N.div_mod x 8 ltac:(discriminate)) as Dx.
    pose proof (N.div_mod y 64 ltac:(discriminate)) as Dy.
    destruct (N.eqb_spec x 240); destruct (N.eqb_spec x 244); lia.
Qed.

Lemma drop_BOM_none (bytes : list N) :
  has_BOM bytes = false ->
  drop_BOM (code_points Start bytes) = code_points Start bytes.
Proof.
  intros H. unfold drop_BOM.
  destruct (code_points Start bytes) as [|cp rest] eqn:E; [reflexivity|].
  destruct (N.eqb_spec cp 65279) as [Hcp|_]; [|reflexivity].
  rewrite (first_code_point _ _ _ E Hcp) in H. discriminate.
Qed.

Lemma drop_BOM_line_feed (x y : list N) :
  drop_BOM (x ++ 10%N :: y) = drop_BOM x ++ 10%N :: y.
Proof.
  destruct x as [|cp x]; [reflexivity|].
  cbn [app drop_BOM]. destruct (cp =? 65279)%N; reflexivity.
Qed.

Lemma decode_line_feed (a b : list N) :
  has_BOM b = false ->
  decode (a ++ [10%N] ++ b) = decode a ++ newline ++ decode b.
Proof.
  intros Hb. unfold decode. cbn [app].
  rewrite code_points_line_feed by exact I.
  rewrite drop_BOM_line_feed, flat_map_app. cbn [flat_map].
  rewrite (drop_BOM_none b Hb). reflexivity.
Qed.

End Decoder.

(** X13. Cutting a chunk after a line feed does not change what comes
    out, unless the second piece starts with a byte-order mark (each
    chunk has a decoder of its own, which leaves out a mark that comes
    first): for bytes [a], a line feed and bytes [b] that do not start
    with EF BB BF, the output for the one chunk is the output for [a]
    followed by the output for [b], even when [a] ends inside a
    character. *)
Theorem transform_chunk_split (J : JSON) (a b : list N) :
  TextDecoder.has_BOM b = false ->
  transform_chunk J (a ++ [10%N] ++ b) = transform_chunk J a ++ transform_chunk J b.
Proof.
  intros Hb. unfold transform_chunk.
  rewrite decode_line_feed by exact Hb. apply transform_app.
Qed.

Lemma transform_chunk_split_witness :
  transform_chunk Samples.rejecting
    (lit "event: ping" ++ [10%N] ++ [226%N; 130%N; 172%N] ++ lit " data")
  = [lit "event: ping" ++ newline; [8364%N] ++ lit " data" ++ newline].
Proof.
  rewrite (transform_chunk_split Samples.rejecting (lit "event: ping")
             ([226%N; 130%N; 172%N] ++ lit " data") eq_refl).
  vm_compute. reflexivity.
Defined.

(** X14. A payload that is not an object: [processStreamChunk] returns
    it as it is, so a [data: ] line whose payload parses to [false], to
    0 or to the empty string enqueues nothing, one that parses to
    another boolean, number, string or to an array is enqueued
    re-serialized, and one that parses to [null] is enqueued as it came
    (the [TypeError] is caught). *)
Theorem transform_line_plain_payload (J : JSON) (line : jsstring) (v : value) :
  startsWith line data_prefix = true ->
  nonblank (slice 6 line) = true ->
  parse J (slice 6 line) = Some v ->
  match v with
  | VBool _ | VNumber _ | VString _ | VArray _ =>
      transform_line J line =
      if truthy v then [data_prefix ++ stringify J v ++ newline ++ newline] else []
  | VNull | VUndefined => transform_line J line = [line ++ newline]
  | VObject _ => True
  end.
Proof.
  intros Hs Hb Hp. unfold transform_line. rewrite Hs, Hp.
  unfold nonblank in Hb.
  assert (Ht : truthy_string (slice 6 line) = true).
  { destruct (slice 6 line); [discriminate Hb|reflexivity]. }
  rewrite Ht, Hb. cbn [negb orb].
  destruct v; try exact I; reflexivity.
Qed.

Lemma transform_line_plain_payload_witness :
  transform_line {| parse := fun _ => Some (VBool false); stringify := fun _ => [] |}
    (lit "data: false")
  = if truthy (VBool false)
    then [data_prefix ++ [] ++ newline ++ newline] else [].
Proof.
  apply (transform_line_plain_payload
           {| parse := fun _ => Some (VBool false); stringify := fun _ => [] |}
           (lit "data: false") (VBool false)); reflexivity.
Defined.

(** X15. Nothing is made up: every string the transformer enqueues
    comes from a line of the chunk that is not blank, and is either that
    line as it came, followed by a line feed, or, for a [data: ] line
    whose payload parsed and was processed, the prefix [data: ], the
    re-serialized processed payload and a blank line. *)
Theorem transform_output_provenance (J : JSON) (chunkText out : jsstring) :
  In out (transform J chunkText) ->
  exists line,
    In line (split_lines chunkText) /\ nonblank line = true /\
    (out = line ++ newline \/
     exists data processed,
       startsWith line data_prefix = true /\
       parse J (slice 6 line) = Some data /\
       processStreamChunk data = Normal processed /\
       out = data_prefix ++ stringify J processed ++ newline ++ newline).
Proof.
  unfold transform, chunk_lines. intros H.
  apply in_flat_map in H as (line & Hl & Ho).
  apply filter_In in Hl as [Hl Hb].
  exists line. split; [exact Hl|]. split; [exact Hb|].
  unfold transform_line in Ho.
  destruct (startsWith line data_prefix) eqn:Es;
    [|destruct Ho as [<-|[]]; left; reflexivity].
  destruct (_ || _); [destruct Ho as [<-|[]]; left; reflexivity|].
  destruct (parse J (slice 6 line)) as [data|] eqn:Ep;
    [|destruct Ho as [<-|[]]; left; reflexivity].
  destruct (processStreamChunk data) as [processed|] eqn:Ec;
    [|destruct Ho as [<-|[]]; left; reflexivity].
  destruct (truthy processed); [|destruct Ho].
  destruct Ho as [<-|[]]. right. exists data, processed. auto.
Qed.

Lemma transform_output_provenance_witness :
  exists line,
    In line (split_lines Samples.blank_separated) /\ nonblank line = true /\
    (lit "event: pong" ++ newline = line ++ newline \/
     exists data processed,
       startsWith line data_prefix = true /\
       parse Samples.rejecting (slice 6 line) = Some data /\
       processStreamChunk data = Normal processed /\
       lit "event: pong" ++ newline
       = data_prefix ++ stringify Samples.rejecting processed ++ newline ++ newline).
Proof.
  apply (transform_output_provenance Samples.rejecting Samples.blank_separated).
  right. left. reflexivity.
Defined.

(** ** Cleanup is the identity away from the tokens *)

Lemma assoc_set_id (k : jsstring) (x : value) (props : list (jsstring * value)) :
  assoc k props = Some x -> assoc_set k x props = props.
Proof.
  induction props as [|[k' v] props IH]; simpl; [discriminate|].
  destruct (bool_decide (k' = k)) eqn:E.
  - intros [= ->]. reflexivity.
  - intros H. rewrite IH by exact H. reflexivity.
Qed.

Lemma clean_stream_part_token_free (p p' : value) :
  clean_stream_part p = Normal p' ->
  (forall t, text_of p = Some t -> token_free t) ->
  p' = p.
Proof.
  unfold clean_stream_part, text_of.
  destruct (get_field p (lit "text")) as [x|] eqn:E; [|discriminate].
  cbn [and_then]. destruct (truthy x) eqn:T; [|intros [= <-]; reflexivity].
  destruct x; try discriminate. intros [= <-] Hfree.
  rewrite strip_tokens_token_free by (apply Hfree; reflexivity).
  apply get_field_defined in E as (props & -> & E); [|discriminate].
  cbn [set_field]. rewrite assoc_set_id by exact E. reflexivity.
Qed.

Lemma map_result_id {A} (f : A -> result A) (l l' : list A) :
  map_result f l = Normal l' ->
  Forall (fun a => forall b, f a = Normal b -> b = a) l ->
  l' = l.
Proof.
  revert l'. induction l as [|a l IH]; simpl; intros l' H Hall.
  - injection H as <-. reflexivity.
  - inversion Hall as [|? ? Ha Hl]; subst.
    destruct (f a) as [b|] eqn:Ea; [|discriminate]. simpl in H.
    destruct (map_result f l) as [bs|]; [|discriminate]. simpl in H.
    injection H as <-. rewrite (Ha b eq_refl), (IH bs eq_refl Hl). reflexivity.
Qed.

(** X16. The streaming cleanup changes nothing but tokens: a payload that
    [processStreamChunk] accepts and whose candidate 0 has only text
    parts free of the three tokens comes back as it was, property for
    property. *)
Theorem processStreamChunk_token_free (chunk out : value) (ps : list value) :
  processStreamChunk chunk = Normal out ->
  candidate0_parts chunk = Some ps ->
  Forall (fun p => forall t, text_of p = Some t -> token_free t) ps ->
  out = chunk.
Proof.
  unfold candidate0_parts, processStreamChunk.
  destruct (get_field chunk (lit "candidates")) as [cands|] eqn:E1; [|discriminate].
  destruct cands as [| | | | |[|candidate others]|]; try discriminate.
  apply get_field_defined in E1 as (props & -> & E1); [|discriminate].
  destruct (get_field candidate (lit "content")) as [c|] eqn:E2; [|discriminate].
  destruct (get_field c (lit "parts")) as [psv|] eqn:E3; [|discriminate].
  destruct psv; try discriminate.
  apply get_field_defined in E3 as (cprops & -> & E3); [|discriminate].
  apply get_field_defined in E2 as (candprops & -> & E2); [|discriminate].
  intros H [= ->] Hfree.
  cbn [default from_option id and_then truthy negb length_is_zero index0 get_field] in H.
  rewrite E2 in H.
  cbn [default from_option id and_then truthy negb get_field] in H.
  rewrite E3 in H.
  cbn [default from_option id and_then truthy negb array_map] in H.
  destruct (map_result clean_stream_part ps) as [ps'|] eqn:Em; [|discriminate].
  cbn [and_then] in H. injection H as <-.
  assert (ps' = ps) as ->.
  { eapply map_result_id; [exact Em|].
    eapply Forall_impl; [exact Hfree|].
    intros p Hp p' Hc. eapply clean_stream_part_token_free; eassumption. }
  cbn [set_index0 set_field].
  rewrite (assoc_set_id _ _ cprops) by exact E3.
  rewrite (assoc_set_id _ _ candprops) by exact E2.
  rewrite (assoc_set_id _ _ props) by exact E1. reflexivity.
Qed.

Lemma processStreamChunk_token_free_witness :
  VObject [(lit "candidates", VArray [Samples.candidate_of (lit "Hello")])]
  = VObject [(lit "candidates", VArray [Samples.candidate_of (lit "Hello")])].
Proof.
  apply (processStreamChunk_token_free _ _ [Samples.text_part (lit "Hello")]).
  - reflexivity.
  - reflexivity.
  - constructor; [|constructor]. intros t [= <-]. repeat split.
Defined.

(** ** The entry point: which requests reach the upstream *)

Lemma span_no_colon_spec (s : jsstring) :
  let '(run, rest) := span_no_colon s in
  s = run ++ rest /\ ~ In 58%N run /\ (rest = [] \/ exists r, rest = 58%N :: r).
Proof.
  induction s as [|c s IH]; cbn [span_no_colon].
  - repeat split; auto.
  - destruct (c =? 58)%N eqn:E.
    + apply N.eqb_eq in E. subst c. repeat split; eauto.
    + destruct (span_no_colon s) as [run rest]. destruct IH as (-> & Hn & Hr).
      repeat split; auto. intros [->|H]; [discriminate|auto].
Qed.

Lemma span_no_colon_app (m rest : jsstring) :
  ~ In 58%N m -> span_no_colon (m ++ 58%N :: rest) = (m, 58%N :: rest).
Proof.
  induction m as [|c m IH]; intros Hn; cbn [app span_no_colon].
  - reflexivity.
  - destruct (c =? 58)%N eqn:E.
    + apply N.eqb_eq in E. subst c. exfalso. apply Hn. left. reflexivity.
    + rewrite IH; [reflexivity|]. intros H. apply Hn. right. exact H.
Qed.

Lemma model_at_sound (s m : jsstring) :
  model_at s = Some m ->
  exists b, s = lit "/models/" ++ m ++ 58%N :: b /\ m <> [] /\ ~ In 58%N m.
Proof.
  unfold model_at. destruct (startsWith s (lit "/models/")) eqn:Es; [|discriminate].
  apply startsWith_spec in Es as [r ->].
  change (drop 8 (lit "/models/" ++ r)) with r.
  pose proof (span_no_colon_spec r) as Hs.
  destruct (span_no_colon r) as [[|c run] rest]; [discriminate|].
  destruct rest as [|c' rest]; [discriminate|].
  intros [= <-]. destruct Hs as (-> & Hn & [?|(r' & [= -> ->])]); [discriminate|].
  exists r'. repeat split; auto.
Qed.

(** A capture of the pattern is what stands between [/models/] and the
    next colon. *)
Lemma model_match_sound (s m : jsstring) :
  model_match s = Some m ->
  exists a b, s = a ++ lit "/models/" ++ m ++ 58%N :: b /\ m <> [] /\ ~ In 58%N m.
Proof.
  induction s as [|c s IH]; cbn [model_match].
  - destruct (model_at []) eqn:E; [|discriminate]. intros [= <-].
    apply model_at_sound in E as (b & E & ?). exists [], b. auto.
  - destruct (model_at (c :: s)) eqn:E.
    + intros [= <-]. apply model_at_sound in E as (b & E & ?). exists [], b. auto.
    + intros H. destruct (IH H) as (a & b & -> & ?). exists (c :: a), b. auto.
Qed.

Lemma model_at_here (m rest : jsstring) :
  m <> [] -> ~ In 58%N m ->
  model_at (lit "/models/" ++ m ++ 58%N :: rest) = Some m.
Proof.
  intros Hne Hn. unfold model_at. rewrite startsWith_app.
  change (drop 8 (lit "/models/" ++ m ++ 58%N :: rest)) with (m ++ 58%N :: rest).
  rewrite span_no_colon_app by exact Hn. destruct m; [contradiction|reflexivity].
Qed.

(** The model of a path [pre/models/<model>:<rest>] in which the
    [/models/] shown is the first one. *)
Lemma model_match_path (pre m rest : jsstring) :
  includes (pre ++ lit "/models") (lit "/models/") = false ->
  m <> [] -> ~ In 58%N m ->
  model_match (pre ++ lit "/models/" ++ m ++ 58%N :: rest) = Some m.
Proof.
  intros Hpre Hne Hn. induction pre as [|c pre IH].
  - cbn [app]. destruct (lit "/models/" ++ m ++ 58%N :: rest) eqn:E;
      cbn [model_match]; rewrite <- E; rewrite model_at_here by assumption;
      reflexivity.
  - cbn [app model_match].
    assert (Hno : model_at (c :: pre ++ lit "/models/" ++ m ++ 58%N :: rest) = None).
    { unfold model_at.
      destruct (startsWith (c :: pre ++ lit "/models/" ++ m ++ 58%N :: rest)
                           (lit "/models/")) eqn:Es; [|reflexivity].
      exfalso. apply includes_false_startsWith in Hpre.
      assert (Hp : startsWith ((c :: pre) ++ lit "/models") (lit "/models/") = true).
      { apply startsWith_spec in Es as [r Er].
        apply startsWith_spec.
        change (lit "/models/" ++ m ++ 58%N :: rest)
          with (lit "/models" ++ 47%N :: m ++ 58%N :: rest) in Er.
        change ((c :: pre) ++ lit "/models" ++ 47%N :: m ++ 58%N :: rest
                = lit "/models/" ++ r) in Er.
        rewrite app_assoc in Er.
        assert (L : length (lit "/models/") <= length ((c :: pre) ++ lit "/models")).
        { rewrite length_app. cbn. lia. }
        apply (f_equal (take (length ((c :: pre) ++ lit "/models")))) in Er.
        rewrite take_app_length in Er.
        rewrite take_app_ge in Er by exact L.
        exists (take (length ((c :: pre) ++ lit "/models") - length (lit "/models/")) r).
        exact Er. }
      rewrite Hp in Hpre. discriminate. }
    rewrite Hno. apply IH. eapply includes_false_tail, Hpre.
Qed.

Lemma supported_iff (model : jsstring) :
  supported model = true <->
  model = lit "gemini-2.5-pro" \/ model = lit "gemini-2.5-flash".
Proof.
  unfold supported, TARGET_MODELS. cbn [existsb]. rewrite orb_false_r, orb_true_iff.
  rewrite !bool_decide_eq_true. split; intros [H|H]; auto.
Qed.

(** X17. Model gating: a request for
    [.../models/<model>:<anything>] whose model is not one of
    [gemini-2.5-pro] and [gemini-2.5-flash] is answered through
    [createErrorResponse] with status 400 and the message "Model not
    supported", whatever its body (which is not even parsed) and with no
    call of the upstream. *)
Theorem unsupported_model_is_rejected (w : World) (J : JSON)
    (body_of : UpstreamResponse -> option (list jsstring))
    (pre model rest search : jsstring) (body : option (Heap.heap * Heap.loc))
    (st : state) :
  includes (pre ++ lit "/models") (lit "/models/") = false ->
  model <> [] -> ~ In 58%N model ->
  model <> lit "gemini-2.5-pro" -> model <> lit "gemini-2.5-flash" ->
  exists details,
    handleGeminiAntiRequest w J body_of
      (pre ++ lit "/models/" ++ model ++ lit ":" ++ rest) search body st
    = Some (Normal (ClientError (lit "Model not supported") details), st).
Proof.
  intros Hpre Hne Hn H1 H2. unfold handleGeminiAntiRequest.
  change (lit ":" ++ rest) with (58%N :: rest).
  rewrite model_match_path by assumption.
  destruct (supported model) eqn:Es; [|eexists; reflexivity].
  apply supported_iff in Es as [?|?]; contradiction.
Qed.

Lemma unsupported_model_is_rejected_witness :
  exists details,
    handleGeminiAntiRequest (Samples.always Samples.unavailable) Samples.rejecting
      (fun _ => None)
      (lit "/api/gemini-anti/v1" ++ lit "/models/" ++ lit "gemini-1.0-pro"
       ++ lit ":" ++ lit "generateContent")
      [] (Some (Samples.uninstructed, 1%positive)) initial
    = Some (Normal (ClientError (lit "Model not supported") details), initial).
Proof.
  apply (unsupported_model_is_rejected (Samples.always Samples.unavailable)
           Samples.rejecting (fun _ => None) (lit "/api/gemini-anti/v1")
           (lit "gemini-1.0-pro") (lit "generateContent")).
  - reflexivity.
  - discriminate.
  - intros H. vm_compute in H.
    repeat (destruct H as [H|H]; [discriminate H|]). exact H.
  - discriminate.
  - discriminate.
Defined.

(** X18. A path with no [/models/] in it, or with no colon, or in which
    every [/models/] is directly followed by a colon or by the end, has
    no model: whenever the pattern does not match, the request is
    answered with the 400 payload "Invalid model path", with no call of
    the upstream; and the pattern matches only paths of the shape
    [a/models/<model>:b] with a non-empty, colon-free model. *)
Theorem path_without_model_is_rejected (w : World) (J : JSON)
    (body_of : UpstreamResponse -> option (list jsstring))
    (pathname search : jsstring) (body : option (Heap.heap * Heap.loc))
    (st : state) :
  (forall a m b, m <> [] -> ~ In 58%N m ->
                 pathname <> a ++ lit "/models/" ++ m ++ lit ":" ++ b) ->
  handleGeminiAntiRequest w J body_of pathname search body st
  = Some (Normal (ClientError (lit "Invalid model path")
                    (lit "Expected format: /api/gemini-anti/v1/models/{model}:generateContent")),
          st).
Proof.
  intros Hno. unfold handleGeminiAntiRequest.
  destruct (model_match pathname) as [m|] eqn:E; [|reflexivity].
  apply model_match_sound in E as (a & b & E & Hne & Hn).
  exfalso. apply (Hno a m b Hne Hn). exact E.
Qed.

Lemma path_without_model_is_rejected_witness :
  handleGeminiAntiRequest (Samples.always Samples.unavailable) Samples.rejecting
    (fun _ => None) [] [] None initial
  = Some (Normal (ClientError (lit "Invalid model path")
                    (lit "Expected format: /api/gemini-anti/v1/models/{model}:generateContent")),
          initial).
Proof.
  apply (path_without_model_is_rejected (Samples.always Samples.unavailable)
           Samples.rejecting (fun _ => None) [] [] None initial).
  intros a m b _ _ H. destruct a; discriminate H.
Defined.

(** X19. The streaming handler, whatever the upstream does: it makes at
    most four fetches, each of them of the request the augmenter
    returned, as it is, to the [streamGenerateContent] endpoint (so
    never a continuation request), and besides them it only sleeps; it
    answers either with status 500 and the error payload "Gemini
    streaming failed", or with the success status of the upstream
    response it got and that response's body piped through the chunk
    transformer. *)
Theorem streaming_outcome (w : World) (J : JSON)
    (body_of : UpstreamResponse -> option (list jsstring))
    (h : Heap.heap) (request : Heap.loc) (model searchParams : jsstring)
    (st st' : state) (a : answer) :
  handleStreamingRequest w J body_of h request model searchParams st = Some (a, st') ->
  fetches st <= fetches st' <= fetches st + 4 /\
  (exists evs,
      trace st' = trace st ++ evs /\
      (evs = [] \/
       exists modifiedRequest h1 sent,
         Heap.addAntiTruncationPrompt h request = Some (Normal modifiedRequest, h1) /\
         reify h1 modifiedRequest = Some sent /\
         mandated sent /\
         Forall (fun ev => ev = Fetch (request_url model searchParams true) sent
                           \/ exists ms, ev = Sleep ms) evs)) /\
  match a with
  | Replied reply =>
      reply_status reply = 500%Z /\
      exists e, reply_body reply = ErrorBody (lit "Gemini streaming failed") e
  | Streamed s enqueued =>
      (200 <= s <= 299)%Z /\
      exists response,
        upstream w (fetches st' - 1) = Resolved response /\
        status response = s /\
        enqueued = pipeThrough J (body_of response)
  | ClientError _ _ => False
  end.
Proof.
  unfold handleStreamingRequest.
  destruct (Heap.addAntiTruncationPrompt h request) as [[[m|e] h1]|] eqn:Ea;
    cbn [mbind option_bind]; [| |discriminate].
  2:{ intros [= <- <-]. split; [lia|]. split.
      - exists []. rewrite app_nil_r. split; [reflexivity|left; reflexivity].
      - split; [reflexivity|eauto]. }
  destruct (reify h1 m) as [sentRequest|] eqn:Er; cbn [mbind option_bind];
    [|discriminate].
  pose proof (reify_mandated _ _ _ _ _ Ea Er) as Hm.
  pose proof (client_summary w sentRequest model searchParams true st) as [Hb Hr].
  cbv zeta in Hb, Hr.
  destruct (client_events w sentRequest model searchParams true st)
    as (evs & Hev & Hall). unfold events_since in Hev.
  destruct (makeGeminiRequestWithRetry w sentRequest model searchParams true 0 st)
    as [sent st1]. cbn [fst snd] in *.
  assert (Hevs : exists evs0,
             trace st1 = trace st ++ evs0 /\
             (evs0 = [] \/
              exists modifiedRequest h2 sent0,
                Some (Normal m, h1) = Some (Normal modifiedRequest, h2) /\
                reify h2 modifiedRequest = Some sent0 /\
                mandated sent0 /\
                Forall (fun ev => ev = Fetch (request_url model searchParams true) sent0
                                  \/ exists ms, ev = Sleep ms) evs0)).
  { exists evs. split; [exact Hev|]. right. exists m, h1, sentRequest. auto. }
  destruct sent as [response|e]; cbn [and_then].
  2:{ intros [= <- <-]. split; [lia|]. split; [exact Hevs|].
      split; [reflexivity|eauto]. }
  destruct (Hr response eq_refl) as [Hok Hup].
  unfold new_stream_Response.
  destruct (_ || _)%Z.
  { intros [= <- <-]. split; [lia|]. split; [exact Hevs|].
    split; [reflexivity|eauto]. }
  destruct (_ && _).
  { intros [= <- <-]. split; [lia|]. split; [exact Hevs|].
    split; [reflexivity|eauto]. }
  intros [= <- <-]. split; [lia|]. split; [exact Hevs|].
  split; [apply ok_status, Hok|]. exists response. auto.
Qed.

Lemma streaming_outcome_witness :
  fetches initial <= 1 <= fetches initial + 4 /\
  (exists evs,
      trace (snd (default (ClientError [] [], initial)
                    (handleStreamingRequest
                       (Samples.always (Samples.http 200 (lit "OK") None))
                       Samples.rejecting (fun _ => Some [Samples.blank_separated])
                       Samples.uninstructed 1%positive Samples.model [] initial)))
      = trace initial ++ evs /\
      (evs = [] \/
       exists modifiedRequest h1 sent,
         Heap.addAntiTruncationPrompt Samples.uninstructed 1%positive
         = Some (Normal modifiedRequest, h1) /\
         reify h1 modifiedRequest = Some sent /\
         mandated sent /\
         Forall (fun ev => ev = Fetch (request_url Samples.model [] true) sent
                           \/ exists ms, ev = Sleep ms) evs)) /\
  (200 <= 200 <= 299)%Z /\
  exists response,
    upstream (Samples.always (Samples.http 200 (lit "OK") None)) (1 - 1)
      = Resolved response /\
    status response = 200%Z /\
    Some [lit "event: ping" ++ newline; lit "event: pong" ++ newline]
    = pipeThrough Samples.rejecting ((fun _ => Some [Samples.blank_separated]) response).
Proof.
  refine (streaming_outcome (Samples.always (Samples.http 200 (lit "OK") None))
            Samples.rejecting (fun _ => Some [Samples.blank_separated])
            Samples.uninstructed 1%positive Samples.model [] initial
            (snd (default (ClientError [] [], initial)
                    (handleStreamingRequest
                       (Samples.always (Samples.http 200 (lit "OK") None))
                       Samples.rejecting (fun _ => Some [Samples.blank_separated])
                       Samples.uninstructed 1%positive Samples.model [] initial)))
            (Streamed 200 (Some [lit "event: ping" ++ newline;
                                 lit "event: pong" ++ newline])) _).
  vm_compute. reflexivity.
Defined.
(* ===================================================================== *)
(** ** The ring buffer and the request counters *)
(* ===================================================================== *)

Section RingBuffer.
Import Monitoring.
Context {A : Type}.

Lemma add_all_snoc (vs : list A) (v : A) (b : CircularBuffer A) :
  add_all (vs ++ [v]) b = add v (add_all vs b).
Proof. unfold add_all. rewrite fold_left_app. reflexivity. Qed.

Lemma last_n_snoc (n : nat) (vs : list A) (v : A) :
  0 < n -> n <= length vs ->
  last_n n (vs ++ [v]) = drop 1 (last_n n vs) ++ [v].
Proof.
  intros Hn Hle. unfold last_n. rewrite length_app. simpl.
  rewrite drop_drop.
  replace (length vs + 1 - n) with (length vs - n + 1) by lia.
  rewrite drop_app_le by lia. reflexivity.
Qed.

Lemma add_all_inv (n : nat) (b0 : CircularBuffer A) (vs : list A) :
  0 < n -> size b0 = n -> length (buffer b0) = n -> index b0 = 0 -> count b0 = 0 ->
  size (add_all vs b0) = n /\
  length (buffer (add_all vs b0)) = n /\
  index (add_all vs b0) = length vs mod n /\
  count (add_all vs b0) = min (length vs) n /\
  (if length vs <? n
   then take (length vs) (buffer (add_all vs b0)) = Some <$> vs
   else drop (index (add_all vs b0)) (buffer (add_all vs b0))
          ++ take (index (add_all vs b0)) (buffer (add_all vs b0))
        = Some <$> last_n n vs).
Proof.
  intros Hn Hs Hl Hi Hc.
  induction vs as [|v vs IH] using rev_ind.
  - cbn. rewrite Hs, Hl, Hi, Hc.
    rewrite Nat.Div0.mod_0_l.
    destruct n; [lia|]. repeat split; reflexivity.
  - destruct IH as (IHs & IHl & IHi & IHc & IHv).
    rewrite add_all_snoc. set (b := add_all vs b0) in *.
    assert (Hlt : index b < n) by (rewrite IHi; apply Nat.mod_upper_bound; lia).
    rewrite length_app. cbn [length add size buffer index count].
    unfold array_set. rewrite IHl, IHs.
    destruct (index b <? n) eqn:E; [|apply Nat.ltb_ge in E; lia]. clear E.
    rewrite length_insert.
    split; [reflexivity|]. split; [exact IHl|].
    split; [rewrite IHi; apply Nat.Div0.add_mod_idemp_l|].
    split.
    { rewrite IHc. destruct (Nat.min (length vs) n <? n) eqn:E.
      - apply Nat.ltb_lt in E. lia.
      - apply Nat.ltb_ge in E. lia. }
    destruct (length vs <? n) eqn:Elen.
    + apply Nat.ltb_lt in Elen.
      assert (Hidx : index b = length vs) by (rewrite IHi; apply Nat.mod_small; lia).
      rewrite Hidx.
      assert (Htake : take (length vs + 1) (<[length vs := Some v]> (buffer b))
                      = Some <$> (vs ++ [v])).
      { rewrite fmap_app. cbn [fmap list_fmap].
        replace (length vs + 1) with (S (length vs)) by lia.
        rewrite (take_S_r _ _ (Some v)).
        - rewrite take_insert_ge by lia. rewrite IHv. reflexivity.
        - apply list_lookup_insert_eq. lia. }
      destruct (length vs + 1 <? n) eqn:E1.
      * exact Htake.
      * apply Nat.ltb_ge in E1. assert (Hn1 : length vs + 1 = n) by lia.
        rewrite Hn1, Nat.Div0.mod_same. rewrite drop_0, take_0, app_nil_r.
        unfold last_n. rewrite length_app. cbn [length].
        rewrite Hn1, Nat.sub_diag, drop_0.
        rewrite <- Htake, Hn1. symmetry. apply take_ge.
        rewrite length_insert. lia.
    + apply Nat.ltb_ge in Elen.
      destruct (length vs + 1 <? n) eqn:E1; [apply Nat.ltb_lt in E1; lia|]. clear E1.
      rewrite last_n_snoc by lia. rewrite fmap_app, fmap_drop, <- IHv. cbn [fmap list_fmap].
      destruct (lookup_lt_is_Some_2 (buffer b) (index b)) as [x Hx]; [lia|].
      rewrite (drop_S _ _ _ Hx). cbn [app skipn]. rewrite drop_0.
      destruct (decide (index b + 1 < n)) as [Hsmall|Hlast].
      * rewrite (Nat.mod_small (index b + 1) n) by lia.
        replace (index b + 1) with (S (index b)) by lia.
        rewrite drop_insert_lt by lia.
        rewrite (take_S_r _ _ (Some v)) by (apply list_lookup_insert_eq; lia).
        rewrite take_insert_ge by lia.
        rewrite <- app_assoc. reflexivity.
      * assert (Hn1 : index b + 1 = n) by lia.
        rewrite Hn1, Nat.Div0.mod_same. rewrite drop_0, take_0, app_nil_r.
        rewrite drop_ge by lia. cbn [app].
        rewrite <- (take_ge (<[index b := Some v]> (buffer b)) n)
          by (rewrite length_insert; lia).
        rewrite <- Hn1 at 1. replace (index b + 1) with (S (index b)) by lia.
        rewrite (take_S_r _ _ (Some v)) by (apply list_lookup_insert_eq; lia).
        rewrite take_insert_ge by lia. reflexivity.
Qed.

Lemma getValues_add_all (n : nat) (b0 : CircularBuffer A) (vs : list A) :
  0 < n -> size b0 = n -> length (buffer b0) = n -> index b0 = 0 -> count b0 = 0 ->
  getValues (add_all vs b0) = Some <$> last_n n vs /\
  getCount (add_all vs b0) = min (length vs) n.
Proof.
  intros Hn Hs Hl Hi Hc.
  destruct (add_all_inv n b0 vs Hn Hs Hl Hi Hc) as (IHs & IHl & IHi & IHc & IHv).
  split; [|exact IHc].
  unfold getValues. rewrite IHc, IHs.
  destruct (length vs <? n) eqn:Elen.
  - pose proof Elen as Eb. apply Nat.ltb_lt in Elen. rewrite Nat.min_l by lia.
    destruct (length vs =? 0) eqn:E0.
    + apply Nat.eqb_eq in E0. destruct vs; [reflexivity|discriminate].
    + rewrite Eb. rewrite IHv. unfold last_n.
      replace (length vs - n) with 0 by lia. reflexivity.
  - apply Nat.ltb_ge in Elen. rewrite Nat.min_r by lia.
    destruct (n =? 0) eqn:E0; [apply Nat.eqb_eq in E0; lia|].
    rewrite Nat.ltb_irrefl. exact IHv.
Qed.

(** X20. A ring buffer of positive size [n] to which the values [vs] were
    added, in this order, returns from [getValues] the last [n] of them
    (all of them while fewer than [n] were added), oldest first, with no
    hole; [getCount] is the number of values it holds. *)
Theorem ring_buffer_keeps_last (n : nat) (vs : list A) :
  0 < n ->
  getValues (add_all vs (new_CircularBuffer n)) = Some <$> last_n n vs /\
  getCount (add_all vs (new_CircularBuffer n)) = min (length vs) n.
Proof.
  intros Hn. apply getValues_add_all; try reflexivity; try exact Hn.
  cbn. apply length_replicate.
Qed.

(** X21. [clear] does not wipe the array, yet no value added before it is
    seen again: after [clear], the buffer behaves as a new one of the same
    size. *)
Theorem ring_buffer_clear_forgets (n : nat) (old vs : list A) :
  0 < n ->
  getValues (add_all vs (clear (add_all old (new_CircularBuffer n))))
  = getValues (add_all vs (new_CircularBuffer n)) /\
  getValues (clear (add_all old (new_CircularBuffer n))) = [].
Proof.
  intros Hn.
  assert (Hnew : length (buffer (new_CircularBuffer (A:=A) n)) = n)
    by (cbn; apply length_replicate).
  destruct (add_all_inv n (new_CircularBuffer n) old Hn eq_refl Hnew eq_refl eq_refl)
    as (Hs & Hl & _).
  split; [|reflexivity].
  destruct (getValues_add_all n (clear (add_all old (new_CircularBuffer n))) vs)
    as [-> _]; try assumption; try reflexivity.
  destruct (getValues_add_all n (new_CircularBuffer n) vs) as [-> _];
    try assumption; reflexivity.
Qed.

End RingBuffer.

Lemma ring_buffer_keeps_last_witness :
  0 < 2 /\
  Monitoring.getValues
    (Monitoring.add_all [10%Z; 20%Z; 30%Z] (Monitoring.new_CircularBuffer 2))
  = [Some 20%Z; Some 30%Z].
Proof.
  split; [lia|].
  exact (proj1 (ring_buffer_keeps_last 2 [10%Z; 20%Z; 30%Z] ltac:(lia))).
Defined.

Lemma ring_buffer_clear_forgets_witness :
  0 < 2 /\
  Monitoring.getValues
    (Monitoring.add_all [7%Z]
       (Monitoring.clear
          (Monitoring.add_all [10%Z; 20%Z; 30%Z] (Monitoring.new_CircularBuffer 2))))
  = [Some 7%Z].
Proof.
  split; [lia|].
  exact (proj1 (ring_buffer_clear_forgets 2 [10%Z; 20%Z; 30%Z] [7%Z] ltac:(lia))).
Defined.

Section MonitoringCounters.
Import Monitoring.

Lemma map_set_keys (k : jsstring) (v h : ServiceHealth)
    (m : list (jsstring * ServiceHealth)) :
  map_get k m = Some h -> (map_set k v m).*1 = m.*1.
Proof.
  induction m as [|[k' v'] m IH]; cbn; [discriminate|].
  destruct (bool_decide (k' = k)); cbn; [reflexivity|].
  intros H. rewrite (IH H). reflexivity.
Qed.

Lemma map_get_set_eq (k : jsstring) (v h : ServiceHealth)
    (m : list (jsstring * ServiceHealth)) :
  map_get k m = Some h -> map_get k (map_set k v m) = Some v.
Proof.
  induction m as [|[k' v'] m IH]; cbn; [discriminate|].
  destruct (bool_decide (k' = k)) eqn:E; cbn; rewrite E; [reflexivity|exact IH].
Qed.

Lemma map_get_set_ne (k k' : jsstring) (v : ServiceHealth)
    (m : list (jsstring * ServiceHealth)) :
  k' <> k -> map_get k (map_set k' v m) = map_get k m.
Proof.
  intros Hne. induction m as [|[k0 v0] m IH]; cbn.
  - rewrite bool_decide_eq_false_2 by exact Hne. reflexivity.
  - destruct (bool_decide (k0 = k')) eqn:E; cbn.
    + apply bool_decide_eq_true_1 in E. subst k0.
      rewrite bool_decide_eq_false_2 by exact Hne. reflexivity.
    + rewrite IH. reflexivity.
Qed.

Lemma perform_keys (c : call) (s : MonitoringService) :
  (serviceHealth (snd (perform c s))).*1 = (serviceHealth s).*1.
Proof.
  destruct c as [now success d service | now service st err]; cbn.
  - unfold recordRequest. destruct (responseTimes s); [|reflexivity].
    destruct success; [reflexivity|]. cbn.
    destruct service as [alias|]; [|reflexivity].
    destruct (truthy_string alias); [|reflexivity].
    destruct (map_get alias (serviceHealth s)) eqn:E; [|reflexivity].
    eapply map_set_keys; exact E.
  - unfold updateServiceHealth.
    destruct (map_get service (serviceHealth s)) eqn:E; [|reflexivity].
    cbn. eapply map_set_keys; exact E.
Qed.

Lemma perform_all_cons (c : call) (calls : list call) (s : MonitoringService) :
  perform_all (c :: calls) s
  = (fst (perform c s) :: fst (perform_all calls (snd (perform c s))),
     snd (perform_all calls (snd (perform c s)))).
Proof.
  cbn [perform_all]. destruct (perform c s) as [r s1]. cbn [fst snd].
  destruct (perform_all calls s1). reflexivity.
Qed.

Lemma successes_and_failures (l : list (bool * Z)) :
  length l
  = length (List.filter fst l) + length (List.filter (fun p => negb (fst p)) l).
Proof.
  induction l as [|[[] d] l IH]; cbn [List.filter fst negb length]; lia.
Qed.

Lemma recorded_cons (c : call) (calls : list call) :
  recorded (c :: calls) = recorded [c] ++ recorded calls.
Proof. destruct c; reflexivity. Qed.

Lemma perform_ring (c : call) (s : MonitoringService) (ds : list Z) :
  responseTimes s = Ring (add_all ds (new_CircularBuffer 1000)) ->
  fst (perform c s) = Normal tt /\
  total (snd (perform c s)) = (total s + N.of_nat (length (recorded [c])))%N /\
  successful (snd (perform c s))
  = (successful s + N.of_nat (length (List.filter fst (recorded [c]))))%N /\
  failed (snd (perform c s))
  = (failed s
     + N.of_nat (length (List.filter (fun p => negb (fst p)) (recorded [c]))))%N /\
  responseTimes (snd (perform c s))
  = Ring (add_all (ds ++ (snd <$> recorded [c])) (new_CircularBuffer 1000)).
Proof.
  intros Hring.
  destruct c as [now success d service | now service st err]; cbn [perform recorded].
  - unfold recordRequest. rewrite Hring.
    destruct success;
      cbn [fst snd total successful failed responseTimes List.filter negb
           length fmap list_fmap];
      rewrite add_all_snoc; repeat split; try reflexivity; lia.
  - unfold updateServiceHealth. cbn [fst snd]. rewrite app_nil_r.
    destruct (map_get service (serviceHealth s)); cbn;
      rewrite ?N.add_0_r; repeat split; try reflexivity; exact Hring.
Qed.

Lemma perform_all_ring (calls : list call) :
  forall (s : MonitoringService) (ds : list Z),
  responseTimes s = Ring (add_all ds (new_CircularBuffer 1000)) ->
  Forall (fun r => r = Normal tt) (fst (perform_all calls s)) /\
  total (snd (perform_all calls s))
  = (total s + N.of_nat (length (recorded calls)))%N /\
  successful (snd (perform_all calls s))
  = (successful s + N.of_nat (length (List.filter fst (recorded calls))))%N /\
  failed (snd (perform_all calls s))
  = (failed s
     + N.of_nat (length (List.filter (fun p => negb (fst p)) (recorded calls))))%N /\
  responseTimes (snd (perform_all calls s))
  = Ring (add_all (ds ++ (snd <$> recorded calls)) (new_CircularBuffer 1000)) /\
  (serviceHealth (snd (perform_all calls s))).*1 = (serviceHealth s).*1.
Proof.
  induction calls as [|c calls IH]; intros s ds Hring.
  - cbn. rewrite app_nil_r, !N.add_0_r. repeat split; try reflexivity; try assumption.
    constructor.
  - rewrite perform_all_cons. cbn [fst snd].
    destruct (perform_ring c s ds Hring) as (E0 & E1 & E2 & E3 & E4).
    destruct (IH _ _ E4) as (H1 & H2 & H3 & H4 & H5 & H6).
    rewrite (recorded_cons c calls).
    rewrite !List.filter_app, !length_app, fmap_app, !Nat2N.inj_add.
    rewrite H2, H3, H4, H5, H6, E1, E2, E3, perform_keys, app_assoc.
    repeat split; try reflexivity; try lia.
    constructor; [exact E0|exact H1].
Qed.

(** X22. On a new [MonitoringService], no sequence of [recordRequest] and
    [updateServiceHealth] calls throws; afterwards [total] is the number of
    requests recorded, [successful] and [failed] count the successes and
    the failures (so [total = successful + failed]), the response times
    kept are those of the last 1000 requests in order, and the health map
    has exactly the configured services. *)
Theorem monitoring_counters (nowMs : Z) (now : jsstring) (calls : list call) :
  exists (outcomes : list (result unit)) (s : MonitoringService)
         (b : CircularBuffer Z),
    perform_all calls (new_MonitoringService nowMs now) = (outcomes, s) /\
    Forall (fun r => r = Normal tt) outcomes /\
    total s = N.of_nat (length (recorded calls)) /\
    successful s = N.of_nat (length (List.filter fst (recorded calls))) /\
    failed s
    = N.of_nat (length (List.filter (fun p => negb (fst p)) (recorded calls))) /\
    total s = (successful s + failed s)%N /\
    responseTimes s = Ring b /\
    getValues b = Some <$> last_n 1000 (snd <$> recorded calls) /\
    (serviceHealth s).*1 = GENERIC_SERVICES ++ SPECIAL_SERVICES.
Proof.
  destruct (perform_all_ring calls (new_MonitoringService nowMs now) [] eq_refl)
    as (H1 & H2 & H3 & H4 & H5 & H6).
  destruct (perform_all calls (new_MonitoringService nowMs now)) as [outcomes s].
  cbn [fst snd] in *.
  eexists outcomes, s, _. split; [reflexivity|].
  cbn [total successful failed new_MonitoringService app] in *.
  rewrite N.add_0_l in H2, H3, H4.
  split; [exact H1|]. split; [exact H2|]. split; [exact H3|]. split; [exact H4|].
  split.
  { rewrite H2, H3, H4, <- Nat2N.inj_add. f_equal.
    apply successes_and_failures. }
  split; [exact H5|].
  split.
  { apply (getValues_add_all 1000 (new_CircularBuffer 1000)); try reflexivity; lia. }
  rewrite H6. vm_compute. reflexivity.
Qed.

Lemma perform_frame (alias : jsstring) (c : call) (s : MonitoringService) :
  names alias c = false ->
  map_get alias (serviceHealth (snd (perform c s)))
  = map_get alias (serviceHealth s).
Proof.
  intros Hc.
  destruct c as [now success d service | now service st err]; cbn [perform snd names] in *.
  - unfold recordRequest. destruct (responseTimes s); [|reflexivity].
    destruct success; [reflexivity|]. cbn [snd serviceHealth].
    destruct service as [a|]; [|reflexivity].
    destruct (truthy_string a); [|reflexivity].
    destruct (map_get a (serviceHealth s)); [|reflexivity].
    apply map_get_set_ne. intros ->.
    cbn in Hc. rewrite bool_decide_eq_true_2 in Hc by reflexivity. discriminate.
  - unfold updateServiceHealth.
    destruct (map_get service (serviceHealth s)); [|reflexivity].
    cbn [serviceHealth]. apply map_get_set_ne. intros ->.
    rewrite bool_decide_eq_true_2 in Hc by reflexivity. discriminate.
Qed.

(** X23. The health entry of a service changes only through a call that
    names it: a failed [recordRequest] for that service or an
    [updateServiceHealth] of it.  Successful requests, failed requests of
    other services and requests without a service leave it as it is; in
    particular a successful request never restores a status. *)
Theorem health_changes_only_when_named (alias : jsstring) (calls : list call)
    (s : MonitoringService) :
  Forall (fun c => names alias c = false) calls ->
  map_get alias (serviceHealth (snd (perform_all calls s)))
  = map_get alias (serviceHealth s).
Proof.
  intros Hall. revert s.
  induction Hall as [|c calls Hc _ IH]; intros s; [reflexivity|].
  rewrite perform_all_cons. cbn [snd].
  rewrite IH. apply perform_frame. exact Hc.
Qed.

Lemma perform_keeps_degraded (alias : jsstring) (c : call) (s : MonitoringService) :
  made_by_main c = true ->
  status_of alias s = Some degraded ->
  status_of alias (snd (perform c s)) = Some degraded.
Proof.
  intros Hc Hs. unfold status_of in *.
  destruct c as [now success d service | now service st err];
    cbn [perform snd made_by_main] in *.
  - unfold recordRequest. destruct (responseTimes s); [|exact Hs].
    destruct success; [exact Hs|]. cbn [snd serviceHealth].
    destruct service as [a|]; [|exact Hs].
    destruct (truthy_string a); [|exact Hs].
    destruct (map_get a (serviceHealth s)) as [h|] eqn:E; [|exact Hs].
    destruct (decide (a = alias)) as [->|Hne].
    + rewrite (map_get_set_eq _ _ _ _ E). reflexivity.
    + rewrite map_get_set_ne by exact Hne. exact Hs.
  - destruct st; try discriminate.
    unfold updateServiceHealth.
    destruct (map_get service (serviceHealth s)) as [h|] eqn:E; [|exact Hs].
    cbn [serviceHealth].
    destruct (decide (service = alias)) as [->|Hne].
    + rewrite (map_get_set_eq _ _ _ _ E).
      destruct err as [e|]; [destruct (truthy_string e)|]; reflexivity.
    + rewrite map_get_set_ne by exact Hne. exact Hs.
Qed.

(** X24. Under the calls [main.ts] makes ([recordRequest], and
    [updateServiceHealth] only with ['degraded']) a service that is
    ['degraded'] stays so: nothing sets a status back to ['healthy']. *)
Theorem degraded_is_never_restored (alias : jsstring) (calls : list call)
    (s : MonitoringService) :
  Forall (fun c => made_by_main c = true) calls ->
  status_of alias s = Some degraded ->
  status_of alias (snd (perform_all calls s)) = Some degraded.
Proof.
  intros Hall. revert s.
  induction Hall as [|c calls Hc _ IH]; intros s Hs; [exact Hs|].
  rewrite perform_all_cons. cbn [snd].
  apply IH. apply perform_keeps_degraded; assumption.
Qed.

Lemma perform_all_plain (calls : list call) :
  forall (s : MonitoringService) (l : list Z),
  responseTimes s = PlainArray l ->
  fst (perform_all calls s)
  = (fun c => match c with
              | RecordRequest _ _ _ _ => Throw TypeError
              | UpdateServiceHealth _ _ _ _ => Normal tt
              end) <$> calls /\
  total (snd (perform_all calls s))
  = (total s + N.of_nat (length (recorded calls)))%N /\
  successful (snd (perform_all calls s)) = successful s /\
  failed (snd (perform_all calls s)) = failed s /\
  responseTimes (snd (perform_all calls s)) = PlainArray l.
Proof.
  induction calls as [|c calls IH]; intros s l Hplain.
  - cbn. rewrite N.add_0_r. repeat split; try reflexivity. exact Hplain.
  - rewrite perform_all_cons. cbn [fst snd fmap list_fmap].
    destruct c as [now success d service | now service st err]; cbn [perform recorded].
    + unfold recordRequest. rewrite Hplain. cbn [fst snd].
      destruct (IH {| startTime := startTime s; serviceHealth := serviceHealth s;
                      total := total s + 1; successful := successful s;
                      failed := failed s; responseTimes := PlainArray l |} l eq_refl)
        as (H1 & H2 & H3 & H4 & H5).
      rewrite H1, H2, H3, H4, H5. cbn [total successful failed length].
      repeat split; try reflexivity. lia.
    + cbn [fst snd].
      assert (Hsame : responseTimes (updateServiceHealth now service st err s)
                      = responseTimes s
                      /\ total (updateServiceHealth now service st err s) = total s
                      /\ successful (updateServiceHealth now service st err s)
                         = successful s
                      /\ failed (updateServiceHealth now service st err s) = failed s).
      { unfold updateServiceHealth.
        destruct (map_get service (serviceHealth s)); repeat split; reflexivity. }
      destruct Hsame as (E1 & E2 & E3 & E4).
      destruct (IH (updateServiceHealth now service st err s) l
                  ltac:(rewrite E1; exact Hplain))
        as (H1 & H2 & H3 & H4 & H5).
      rewrite H1, H2, H3, H4, H5, E2, E3, E4. repeat split; reflexivity.
Qed.

(** X25. [resetMetrics] replaces the ring buffer by a plain array, which
    has no [add]: from then on every [recordRequest] throws a [TypeError],
    after it has incremented [total].  So [total] goes on counting the
    requests while [successful] and [failed] stay 0 and no response time
    is kept. *)
Theorem recordRequest_throws_after_reset (nowMs : Z) (now : jsstring)
    (s0 : MonitoringService) (calls : list call) :
  exists (outcomes : list (result unit)) (s : MonitoringService),
    perform_all calls (resetMetrics nowMs now s0) = (outcomes, s) /\
    outcomes
    = (fun c => match c with
                | RecordRequest _ _ _ _ => Throw TypeError
                | UpdateServiceHealth _ _ _ _ => Normal tt
                end) <$> calls /\
    total s = N.of_nat (length (recorded calls)) /\
    successful s = 0%N /\
    failed s = 0%N /\
    responseTimes s = PlainArray [].
Proof.
  destruct (perform_all_plain calls (resetMetrics nowMs now s0) [] eq_refl)
    as (H1 & H2 & H3 & H4 & H5).
  destruct (perform_all calls (resetMetrics nowMs now s0)) as [outcomes s].
  cbn [fst snd] in *. exists outcomes, s.
  cbn [resetMetrics total successful failed] in *. rewrite N.add_0_l in H2.
  repeat split; assumption.
Qed.

End MonitoringCounters.

Lemma health_changes_only_when_named_witness :
  Monitoring.status_of (lit "gemini")
    (snd (Monitoring.perform_all
            [Monitoring.RecordRequest (lit "t1") false 5%Z (Some (lit "openai"));
             Monitoring.RecordRequest (lit "t2") true 3%Z (Some (lit "gemini"))]
            (Monitoring.new_MonitoringService 0%Z (lit "t0"))))
  = Some Monitoring.healthy.
Proof.
  unfold Monitoring.status_of.
  rewrite (health_changes_only_when_named (lit "gemini")
             [Monitoring.RecordRequest (lit "t1") false 5%Z (Some (lit "openai"));
              Monitoring.RecordRequest (lit "t2") true 3%Z (Some (lit "gemini"))]
             (Monitoring.new_MonitoringService 0%Z (lit "t0"))).
  - vm_compute. reflexivity.
  - repeat constructor.
Defined.

Lemma degraded_is_never_restored_witness :
  Monitoring.status_of (lit "openai")
    (snd (Monitoring.perform_all
            [Monitoring.RecordRequest (lit "t2") true 3%Z (Some (lit "openai"));
             Monitoring.UpdateServiceHealth (lit "t3") (lit "gemini")
               Monitoring.degraded (Some (lit "HTTP 500"))]
            (snd (Monitoring.perform
                    (Monitoring.RecordRequest (lit "t1") false 5%Z (Some (lit "openai")))
                    (Monitoring.new_MonitoringService 0%Z (lit "t0"))))))
  = Some Monitoring.degraded.
Proof.
  apply degraded_is_never_restored.
  - repeat constructor.
  - vm_compute. reflexivity.
Defined.
(* ===================================================================== *)
(** ** The rate limiter *)
(* ===================================================================== *)

Section RateLimiterRefinement.
Import RateLimit.

Lemma in_window_mono (w now now' t : Z) :
  (now <= now')%Z -> in_window w now' t = true -> in_window w now t = true.
Proof.
  unfold in_window. intros Hle H. apply Z.ltb_lt in H. apply Z.ltb_lt. lia.
Qed.

Lemma filter_window_idem (w now now' : Z) (l : list Z) :
  (now <= now')%Z ->
  List.filter (in_window w now') (List.filter (in_window w now) l)
  = List.filter (in_window w now') l.
Proof.
  intros Hle. induction l as [|t l IH]; [reflexivity|]. cbn [List.filter].
  destruct (in_window w now t) eqn:E; cbn [List.filter].
  - rewrite IH. reflexivity.
  - destruct (in_window w now' t) eqn:E'; [|exact IH].
    rewrite (in_window_mono _ _ _ _ Hle E') in E. discriminate.
Qed.

Lemma filter_window_nil (w now now' : Z) (l : list Z) :
  (now <= now')%Z ->
  length (List.filter (in_window w now) l) = 0 ->
  List.filter (in_window w now') l = [].
Proof.
  intros Hle H0. rewrite <- (filter_window_idem w now now' l Hle).
  destruct (List.filter (in_window w now) l); [reflexivity|discriminate].
Qed.

Lemma limiter_map_get_None (c : jsstring) (m : list (jsstring * list Z)) :
  c ∉ m.*1 -> map_get c m = None.
Proof.
  induction m as [|[k v] m IH]; [reflexivity|]. cbn. intros Hnot.
  rewrite not_elem_of_cons in Hnot. destruct Hnot as [Hne Hnot].
  rewrite bool_decide_eq_false_2 by (intros ->; apply Hne; reflexivity).
  apply IH. exact Hnot.
Qed.

Lemma cleanup_entries_keys (w now : Z) (es : list (jsstring * list Z)) :
  forall (cleaned : nat) (c : jsstring),
  c ∈ (cleanup_entries w now es cleaned).*1 -> c ∈ es.*1.
Proof.
  induction es as [|[k ts] es IH]; intros cleaned c; [intros H; exact H|].
  cbn [cleanup_entries].
  destruct (50 <=? cleaned); [intros H; exact H|].
  destruct (length (List.filter (in_window w now) ts) =? 0).
  { intros H. cbn. right. eapply IH. exact H. }
  destruct (negb _); cbn; rewrite !elem_of_cons; intros [->|H];
    try (left; reflexivity); right; eapply IH; exact H.
Qed.

Lemma cleanup_entries_NoDup (w now : Z) (es : list (jsstring * list Z)) :
  forall (cleaned : nat), NoDup es.*1 -> NoDup (cleanup_entries w now es cleaned).*1.
Proof.
  induction es as [|[k ts] es IH]; intros cleaned Hnd; [exact Hnd|].
  cbn [cleanup_entries].
  destruct (50 <=? cleaned); [exact Hnd|].
  cbn in Hnd. apply NoDup_cons in Hnd. destruct Hnd as [Hk Hnd].
  destruct (length (List.filter (in_window w now) ts) =? 0); [apply IH; exact Hnd|].
  destruct (negb _); cbn; apply NoDup_cons; (split; [|apply IH; exact Hnd]);
    intros Hin; apply Hk; eapply cleanup_entries_keys; exact Hin.
Qed.

Lemma cleanup_entries_stored (w now now' : Z) (c : jsstring)
    (es : list (jsstring * list Z)) :
  (now <= now')%Z ->
  forall (cleaned : nat), NoDup es.*1 ->
  List.filter (in_window w now') (default [] (map_get c (cleanup_entries w now es cleaned)))
  = List.filter (in_window w now') (default [] (map_get c es)).
Proof.
  intros Hle. induction es as [|[k ts] es IH]; intros cleaned Hnd; [reflexivity|].
  cbn [cleanup_entries].
  destruct (50 <=? cleaned); [reflexivity|].
  cbn in Hnd. apply NoDup_cons in Hnd. destruct Hnd as [Hk Hnd].
  destruct (length (List.filter (in_window w now) ts) =? 0) eqn:E0.
  { apply Nat.eqb_eq in E0. cbn [map_get].
    destruct (bool_decide (k = c)) eqn:Ek.
    - apply bool_decide_eq_true_1 in Ek. subst k.
      rewrite limiter_map_get_None
        by (intros Hin; apply Hk; eapply cleanup_entries_keys; exact Hin).
      cbn. symmetry. eapply filter_window_nil; eassumption.
    - apply IH. exact Hnd. }
  destruct (negb _); cbn [map_get]; destruct (bool_decide (k = c)); cbn;
    try reflexivity; try (apply IH; exact Hnd).
  apply filter_window_idem. exact Hle.
Qed.

Lemma full_entries_keys (w now : Z) (es : list (jsstring * list Z)) (c : jsstring) :
  c ∈ (full_entries w now es).*1 -> c ∈ es.*1.
Proof.
  induction es as [|[k ts] es IH]; [intros H; exact H|].
  cbn [full_entries].
  destruct (length (List.filter (in_window w now) ts) =? 0).
  - intros H. cbn. right. apply IH. exact H.
  - cbn. rewrite !elem_of_cons. intros [->|H]; [left; reflexivity|right; apply IH; exact H].
Qed.

Lemma full_entries_NoDup (w now : Z) (es : list (jsstring * list Z)) :
  NoDup es.*1 -> NoDup (full_entries w now es).*1.
Proof.
  induction es as [|[k ts] es IH]; intros Hnd; [exact Hnd|].
  cbn [full_entries]. cbn in Hnd. apply NoDup_cons in Hnd. destruct Hnd as [Hk Hnd].
  destruct (length (List.filter (in_window w now) ts) =? 0); [apply IH; exact Hnd|].
  cbn. apply NoDup_cons. split; [|apply IH; exact Hnd].
  intros Hin. apply Hk. eapply full_entries_keys; exact Hin.
Qed.

Lemma full_entries_stored (w now now' : Z) (c : jsstring)
    (es : list (jsstring * list Z)) :
  (now <= now')%Z -> NoDup es.*1 ->
  List.filter (in_window w now') (default [] (map_get c (full_entries w now es)))
  = List.filter (in_window w now') (default [] (map_get c es)).
Proof.
  intros Hle. induction es as [|[k ts] es IH]; intros Hnd; [reflexivity|].
  cbn [full_entries]. cbn in Hnd. apply NoDup_cons in Hnd. destruct Hnd as [Hk Hnd].
  destruct (length (List.filter (in_window w now) ts) =? 0) eqn:E0.
  { apply Nat.eqb_eq in E0. cbn [map_get].
    destruct (bool_decide (k = c)) eqn:Ek.
    - apply bool_decide_eq_true_1 in Ek. subst k.
      rewrite limiter_map_get_None
        by (intros Hin; apply Hk; eapply full_entries_keys; exact Hin).
      cbn. symmetry. eapply filter_window_nil; eassumption.
    - apply IH. exact Hnd. }
  cbn [map_get]. destruct (bool_decide (k = c)); cbn; [|apply IH; exact Hnd].
  apply filter_window_idem. exact Hle.
Qed.

Lemma limiter_map_set_keys (c : jsstring) (v : list Z) (m : list (jsstring * list Z)) :
  forall k, k ∈ (map_set c v m).*1 -> k = c \/ k ∈ m.*1.
Proof.
  induction m as [|[k0 v0] m IH]; intros k; cbn.
  - rewrite list_elem_of_singleton. intros ->. left. reflexivity.
  - destruct (bool_decide (k0 = c)); cbn; rewrite !elem_of_cons.
    + intros [->|H]; right; [left; reflexivity|right; exact H].
    + intros [->|H]; [right; left; reflexivity|].
      destruct (IH _ H) as [->|H']; [left; reflexivity|right; right; exact H'].
Qed.

Lemma limiter_map_set_NoDup (c : jsstring) (v : list Z) (m : list (jsstring * list Z)) :
  NoDup m.*1 -> NoDup (map_set c v m).*1.
Proof.
  induction m as [|[k0 v0] m IH]; intros Hnd; cbn.
  - apply NoDup_singleton.
  - cbn in Hnd. apply NoDup_cons in Hnd. destruct Hnd as [Hk Hnd].
    destruct (bool_decide (k0 = c)) eqn:E; cbn.
    + apply NoDup_cons. split; assumption.
    + apply NoDup_cons. split; [|apply IH; exact Hnd].
      intros Hin. destruct (limiter_map_set_keys _ _ _ _ Hin) as [->|H'].
      * rewrite bool_decide_eq_true_2 in E by reflexivity. discriminate.
      * apply Hk. exact H'.
Qed.

Lemma limiter_map_get_set_eq (c : jsstring) (v : list Z) (m : list (jsstring * list Z)) :
  map_get c (map_set c v m) = Some v.
Proof.
  induction m as [|[k0 v0] m IH]; cbn.
  - rewrite bool_decide_eq_true_2 by reflexivity. reflexivity.
  - destruct (bool_decide (k0 = c)) eqn:E; cbn; rewrite E; [reflexivity|exact IH].
Qed.

Lemma limiter_map_get_set_ne (c k : jsstring) (v : list Z) (m : list (jsstring * list Z)) :
  k <> c -> map_get c (map_set k v m) = map_get c m.
Proof.
  intros Hne. induction m as [|[k0 v0] m IH]; cbn.
  - rewrite bool_decide_eq_false_2 by exact Hne. reflexivity.
  - destruct (bool_decide (k0 = k)) eqn:E; cbn.
    + apply bool_decide_eq_true_1 in E. subst k0.
      rewrite bool_decide_eq_false_2 by exact Hne. reflexivity.
    + rewrite IH. reflexivity.
Qed.

Lemma logged_in_window_length (w now : Z) (c : jsstring) (log : list (jsstring * Z)) :
  length (logged_in_window w now c log)
  = length (List.filter (in_window w now) (times_of c log)).
Proof.
  unfold logged_in_window, times_of.
  induction log as [|[k t] log IH]; [reflexivity|]. cbn [List.filter fst snd].
  destruct (bool_decide (k = c)); cbn [andb fmap list_fmap List.filter snd]; [|exact IH].
  destruct (in_window w now t); cbn [length]; rewrite IH; reflexivity.
Qed.

Lemma times_of_snoc (c k : jsstring) (t : Z) (log : list (jsstring * Z)) :
  times_of c (log ++ [(k, t)])
  = times_of c log ++ (if bool_decide (k = c) then [t] else []).
Proof.
  unfold times_of. rewrite List.filter_app, fmap_app. cbn [List.filter fst].
  destruct (bool_decide (k = c)); reflexivity.
Qed.

Lemma incrementalCleanup_agrees (T now : Z) (rl : RateLimiter)
    (log : list (jsstring * Z)) :
  (T <= now)%Z -> agrees T rl log ->
  agrees now (incrementalCleanup now rl) log /\
  windowMs (incrementalCleanup now rl) = windowMs rl /\
  maxRequests (incrementalCleanup now rl) = maxRequests rl.
Proof.
  intros Hle [Hnd Hag]. unfold incrementalCleanup.
  destruct (negb _ && _).
  - repeat split; [exact Hnd|]. intros c now' Hnow. apply Hag. lia.
  - repeat split; cbn [requests windowMs].
    + apply cleanup_entries_NoDup. exact Hnd.
    + intros c now' Hnow. unfold stored. cbn [requests].
      rewrite cleanup_entries_stored by assumption. apply Hag. lia.
Qed.

Lemma fullCleanup_agrees (T now : Z) (rl : RateLimiter) (log : list (jsstring * Z)) :
  (T <= now)%Z -> agrees T rl log -> agrees now (fullCleanup now rl) log.
Proof.
  intros Hle [Hnd Hag]. split; unfold fullCleanup; cbn [requests windowMs].
  - apply full_entries_NoDup. exact Hnd.
  - intros c now' Hnow. unfold stored. cbn [requests].
    rewrite full_entries_stored by assumption. apply Hag. lia.
Qed.

Lemma run_as_log (ops : list op) :
  forall (T : Z) (rl : RateLimiter) (log : list (jsstring * Z)),
  agrees T rl log ->
  StronglySorted Z.le (T :: (time_of <$> ops)) ->
  fst (run ops rl) = fst (log_answers (windowMs rl) (maxRequests rl) ops log).
Proof.
  induction ops as [|o ops IH]; intros T rl log Hag Hsorted; [reflexivity|].
  apply StronglySorted_inv in Hsorted. destruct Hsorted as [Hsorted HT].
  cbn [fmap list_fmap] in Hsorted, HT.
  apply Forall_cons in HT. destruct HT as [HTo HT].
  destruct o as [now c | now]; cbn [time_of] in *.
  - cbn [run log_answers]. unfold isAllowed.
    destruct (incrementalCleanup_agrees T now rl log HTo Hag) as ([Hnd1 Hag1] & Hw & Hm).
    set (rl1 := incrementalCleanup now rl) in *.
    rewrite logged_in_window_length. fold (stored c rl1).
    rewrite <- Hw, <- Hm. rewrite <- (Hag1 c now) by lia.
    destruct (maxRequests rl1 <=? _)%Z.
    + specialize (IH now rl1 log (conj Hnd1 Hag1) Hsorted).
      destruct (run ops rl1) as [answers rl2].
      destruct (log_answers (windowMs rl1) (maxRequests rl1) ops log) as [answers' log'].
      cbn [fst] in *. rewrite IH. reflexivity.
    + match goal with |- context [run ops ?st] => set (rl2 := st) end.
      assert (Hag2 : agrees now rl2 (log ++ [(c, now)])).
      { split; [apply limiter_map_set_NoDup; exact Hnd1|].
        intros c' now' Hnow. unfold stored. cbn [rl2 requests windowMs].
        rewrite times_of_snoc, List.filter_app, <- (Hag1 c' now' Hnow).
        destruct (bool_decide (c = c')) eqn:Ec.
        - apply bool_decide_eq_true_1 in Ec. subst c'.
          rewrite limiter_map_get_set_eq. cbn [default from_option id].
          rewrite List.filter_app, filter_window_idem by exact Hnow. reflexivity.
        - apply bool_decide_eq_false_1 in Ec.
          rewrite limiter_map_get_set_ne by exact Ec.
          cbn [List.filter]. rewrite app_nil_r. reflexivity. }
      specialize (IH now rl2 _ Hag2 Hsorted).
      destruct (run ops rl2) as [answers rl3].
      change (windowMs rl2) with (windowMs rl1) in IH.
      change (maxRequests rl2) with (maxRequests rl1) in IH.
      destruct (log_answers (windowMs rl1) (maxRequests rl1) ops (log ++ [(c, now)]))
        as [answers' log'].
      cbn [fst] in *. rewrite IH. reflexivity.
  - cbn [run log_answers].
    apply (IH now (fullCleanup now rl) log); [|exact Hsorted].
    eapply fullCleanup_agrees; eassumption.
Qed.

Lemma run_new_as_log (t0 w limit : Z) (ops : list op) :
  StronglySorted Z.le (time_of <$> ops) ->
  fst (run ops (new_RateLimiter t0 w limit)) = fst (log_answers w limit ops []).
Proof.
  intros Hsorted.
  destruct ops as [|o ops]; [reflexivity|].
  apply (run_as_log (o :: ops) (time_of o) (new_RateLimiter t0 w limit) []).
  - split; [apply NoDup_nil_2|]. intros c now _. reflexivity.
  - constructor; [exact Hsorted|].
    apply StronglySorted_inv in Hsorted. destruct Hsorted as [_ Hall].
    cbn [fmap list_fmap]. constructor; [lia|exact Hall].
Qed.

(** X26. As long as the clock does not run backwards, the limiter answers
    every [isAllowed] as a limiter would that never cleans up, keeps the
    log of all requests it allowed, and allows a request while fewer than
    [maxRequests] logged requests of the client are younger than
    [windowMs]: neither the incremental clean-up (at most 50 entries a
    round) nor the timer's full clean-up changes an answer. *)
Theorem limiter_answers_as_log (t0 w limit : Z) (ops : list op) :
  StronglySorted Z.le (time_of <$> ops) ->
  fst (run ops (new_RateLimiter t0 w limit)) = fst (log_answers w limit ops []).
Proof. apply run_new_as_log. Qed.

Lemma log_answers_allowed (w limit : Z) (c : jsstring) (ops : list op) :
  forall (log : list (jsstring * Z)),
  times_of c (snd (log_answers w limit ops log))
  = times_of c log ++ allowed c ops (fst (log_answers w limit ops log)).
Proof.
  induction ops as [|[now k|now] ops IH]; intros log; cbn [log_answers allowed].
  - cbn. rewrite app_nil_r. reflexivity.
  - destruct (limit <=? _)%Z.
    + specialize (IH log). destruct (log_answers w limit ops log) as [answers log'].
      cbn [fst snd allowed andb app] in *. exact IH.
    + specialize (IH (log ++ [(k, now)])).
      destruct (log_answers w limit ops (log ++ [(k, now)])) as [answers log'].
      cbn [fst snd allowed andb] in *. rewrite IH, times_of_snoc, <- app_assoc.
      reflexivity.
  - apply IH.
Qed.

Lemma filter_suffix_length (p : Z -> bool) (l : list Z) :
  forall (i : nat),
  (forall (j : nat) (t : Z), i <= j -> l !! j = Some t -> p t = true) ->
  length l - i <= length (List.filter p l).
Proof.
  induction l as [|a l IH]; intros i Hall; [cbn; lia|].
  cbn [List.filter length]. destruct i as [|i].
  - rewrite (Hall 0 a) by (try reflexivity; lia). cbn [length].
    specialize (IH 0 (fun j t Hj Hl => Hall (S j) t ltac:(lia) Hl)). lia.
  - specialize (IH i (fun j t Hj Hl => Hall (S j) t ltac:(lia) Hl)).
    destruct (p a); cbn [length]; lia.
Qed.

Lemma log_answers_spaced (w limit : Z) (c : jsstring) (ops : list op) :
  forall (T : Z) (log : list (jsstring * Z)),
  StronglySorted Z.le (T :: (time_of <$> ops)) ->
  nondecreasing (times_of c log) ->
  Forall (fun t => (t <= T)%Z) (times_of c log) ->
  spaced w (Z.to_nat limit) (times_of c log) ->
  spaced w (Z.to_nat limit) (times_of c (snd (log_answers w limit ops log))).
Proof.
  induction ops as [|o ops IH]; intros T log Hsorted Hmono Hbound Hspaced;
    [exact Hspaced|].
  apply StronglySorted_inv in Hsorted. destruct Hsorted as [Hsorted HT].
  cbn [fmap list_fmap] in Hsorted, HT.
  apply Forall_cons in HT. destruct HT as [HTo HT].
  assert (Hbound' : Forall (fun t => (t <= time_of o)%Z) (times_of c log)).
  { eapply Forall_impl; [exact Hbound|]. intros t Ht. cbn in Ht. lia. }
  destruct o as [now k|now]; cbn [time_of log_answers] in *.
  - destruct (limit <=? _)%Z eqn:Elimit.
    + specialize (IH now log Hsorted Hmono Hbound' Hspaced).
      destruct (log_answers w limit ops log) as [answers log']. exact IH.
    + assert (Hgoal : spaced w (Z.to_nat limit)
                        (times_of c (snd (log_answers w limit ops (log ++ [(k, now)]))))).
      { apply (IH now); [exact Hsorted| | |]; rewrite times_of_snoc.
        - intros i j ti tj Hij Hi Hj.
          destruct (bool_decide (k = c)); [|rewrite app_nil_r in Hi, Hj; eauto].
          destruct (decide (j < length (times_of c log))) as [Hlt|Hge].
          + rewrite lookup_app_l in Hi, Hj by lia. eauto.
          + apply lookup_lt_Some in Hj as Hj'. rewrite length_app in Hj'. cbn in Hj'.
            assert (j = length (times_of c log)) by lia. subst j.
            rewrite list_lookup_middle in Hj by reflexivity.
            injection Hj as <-.
            destruct (decide (i < length (times_of c log))) as [Hlt|Hge'].
            * rewrite lookup_app_l in Hi by lia.
              rewrite Forall_lookup in Hbound'. exact (Hbound' _ _ Hi).
            * assert (i = length (times_of c log)) by lia. subst i.
              rewrite list_lookup_middle in Hi by reflexivity.
              injection Hi as <-. lia.
        - destruct (bool_decide (k = c)); [|rewrite app_nil_r; exact Hbound'].
          apply Forall_app. split; [exact Hbound'|]. constructor; [lia|constructor].
        - intros i t t' Hi Hj.
          destruct (bool_decide (k = c)) eqn:Ek; [|rewrite app_nil_r in Hi, Hj; eauto].
          apply bool_decide_eq_true_1 in Ek. subst k.
          rewrite logged_in_window_length in Elimit. apply Z.leb_gt in Elimit.
          set (l := times_of c log) in *.
          destruct (decide (i + Z.to_nat limit < length l)) as [Hlt|Hge].
          + rewrite lookup_app_l in Hi, Hj by lia. eauto.
          + apply lookup_lt_Some in Hj as Hj'. rewrite length_app in Hj'. cbn in Hj'.
            assert (Hlast : i + Z.to_nat limit = length l) by lia.
            rewrite Hlast in Hj. rewrite list_lookup_middle in Hj by reflexivity.
            injection Hj as <-.
            assert (Hi' : l !! i = Some t) by (rewrite lookup_app_l in Hi by lia; exact Hi).
            destruct (Z_lt_le_dec (now - t) w) as [Hin|Hout]; [exfalso|exact Hout].
            assert (Hlen : length l - i <= length (List.filter (in_window w now) l)).
            { apply filter_suffix_length. intros j tj Hij Hlj.
              unfold in_window. apply Z.ltb_lt.
              pose proof (Hmono i j t tj Hij Hi' Hlj). lia. }
            lia. }
      destruct (log_answers w limit ops (log ++ [(k, now)])) as [answers log'].
      exact Hgoal.
  - apply (IH now); assumption.
Qed.

(** X27. As long as the clock does not run backwards, the requests of one
    client that the limiter allows are spread out: an allowed request and
    the [maxRequests]-th allowed one after it are at least [windowMs]
    apart, so no window shorter than that holds more than [maxRequests]
    of them. *)
Theorem allowed_requests_are_spread (t0 w limit : Z) (c : jsstring) (ops : list op)
    (i : nat) (t t' : Z) :
  StronglySorted Z.le (time_of <$> ops) ->
  allowed c ops (fst (run ops (new_RateLimiter t0 w limit))) !! i = Some t ->
  allowed c ops (fst (run ops (new_RateLimiter t0 w limit))) !! (i + Z.to_nat limit)
  = Some t' ->
  (w <= t' - t)%Z.
Proof.
  intros Hsorted. rewrite (run_new_as_log t0 w limit ops Hsorted).
  destruct ops as [|o ops]; [cbn; discriminate|].
  pose proof (log_answers_allowed w limit c (o :: ops) []) as Hallowed.
  cbn [times_of List.filter fmap list_fmap app] in Hallowed.
  rewrite <- Hallowed.
  apply (log_answers_spaced w limit c (o :: ops) (time_of o) []).
  - constructor; [exact Hsorted|].
    apply StronglySorted_inv in Hsorted. destruct Hsorted as [_ Hall].
    cbn [fmap list_fmap]. constructor; [lia|exact Hall].
  - intros ? ? ? ? _ H. cbn in H. discriminate.
  - constructor.
  - intros ? ? ? H. cbn in H. discriminate.
Qed.

End RateLimiterRefinement.

Lemma limiter_answers_as_log_witness :
  StronglySorted Z.le
    (RateLimit.time_of <$>
       [RateLimit.IsAllowed 0 (lit "a"); RateLimit.IsAllowed 10 (lit "a");
        RateLimit.IsAllowed 20 (lit "a"); RateLimit.FullCleanup 1500;
        RateLimit.IsAllowed 1500 (lit "a")]) /\
  fst (RateLimit.run
         [RateLimit.IsAllowed 0 (lit "a"); RateLimit.IsAllowed 10 (lit "a");
          RateLimit.IsAllowed 20 (lit "a"); RateLimit.FullCleanup 1500;
          RateLimit.IsAllowed 1500 (lit "a")]
         (RateLimit.new_RateLimiter 0 1000 2))
  = [true; true; false; true].
Proof.
  assert (Hsorted : StronglySorted Z.le
    (RateLimit.time_of <$>
       [RateLimit.IsAllowed 0 (lit "a"); RateLimit.IsAllowed 10 (lit "a");
        RateLimit.IsAllowed 20 (lit "a"); RateLimit.FullCleanup 1500;
        RateLimit.IsAllowed 1500 (lit "a")])).
  { cbn. repeat (constructor; try lia). }
  split; [exact Hsorted|].
  rewrite (limiter_answers_as_log 0 1000 2 _ Hsorted).
  vm_compute. reflexivity.
Defined.

Lemma allowed_requests_are_spread_witness :
  RateLimit.allowed (lit "a")
    [RateLimit.IsAllowed 0 (lit "a"); RateLimit.IsAllowed 10 (lit "a");
     RateLimit.IsAllowed 20 (lit "a"); RateLimit.FullCleanup 1500;
     RateLimit.IsAllowed 1500 (lit "a")]
    (fst (RateLimit.run
            [RateLimit.IsAllowed 0 (lit "a"); RateLimit.IsAllowed 10 (lit "a");
             RateLimit.IsAllowed 20 (lit "a"); RateLimit.FullCleanup 1500;
             RateLimit.IsAllowed 1500 (lit "a")]
            (RateLimit.new_RateLimiter 0 1000 2)))
  = [0; 10; 1500]%Z /\
  (1000 <= 1500 - 0)%Z.
Proof.
  split; [vm_compute; reflexivity|].
  apply (allowed_requests_are_spread 0 1000 2 (lit "a")
           [RateLimit.IsAllowed 0 (lit "a"); RateLimit.IsAllowed 10 (lit "a");
            RateLimit.IsAllowed 20 (lit "a"); RateLimit.FullCleanup 1500;
            RateLimit.IsAllowed 1500 (lit "a")] 0 0 1500).
  - cbn. repeat (constructor; try lia).
  - vm_compute. reflexivity.
  - vm_compute. reflexivity.
Defined.
